(** * MarQS: the queue scripts and the broker operations over a Redis store

    A shallow embedding of [apps/webapp/app/v3/marqs/index.server.ts]: the
    Lua scripts registered by [#registerCommands], the private [#call...]
    wrappers, the public broker operations and the requeuer cycle, all as
    commands over an explicit model of the Redis keyspace. *)

From Stdlib Require Import ZArith Ascii String List Lia.
From stdpp Require Import base option list sorting gmap strings fin_maps fin_sets.

Local Open Scope Z_scope.

(** ** Message payloads *)

(** A JSON leaf, for the values of [Record<string, unknown>]. *)
Inductive unknown : Type :=
| UNull
| UBool (b : bool)
| UNum (n : Z)
| UStr (s : string).

Abbreviation Data := (gmap string unknown).

(** [MessagePayload] as the broker builds it in [enqueueMessage] and
    [replaceMessage]. *)
Record MessagePayload : Type := mkPayload {
  version : string;
  data : Data;
  queue : string;
  concurrencyKey : option string;
  timestamp : Z;
  messageId : string;
  parentQueue : string;
}.

(** ** The Redis keyspace *)

(** The text stored under a string key, represented by what the readers of
    the program make of it: Lua's [tonumber], JavaScript's truthiness test,
    [JSON.parse] and [MessagePayload.safeParse].  [SNumber n] is [String(n)],
    [SPayload m] is [JSON.stringify(m)]. *)
Inductive rstring : Type :=
| SNumber (n : Z)
| SPayload (m : MessagePayload)
| SJson
| SGarbled
| SEmpty.

(** One keyspace; a key holds a string, a sorted set or a set.  Scores are
    millisecond timestamps, kept as integers.  A sorted set or a set that
    becomes empty is removed with its key, as Redis does. *)
Inductive rvalue : Type :=
| RString (s : rstring)
| RZSet (z : gmap string Z)
| RSet (s : gset string).

Abbreviation store := (gmap string rvalue).

(** ** Commands: state passing with errors

    [Raised] is a Redis error reply inside a script ([WRONGTYPE], a Lua
    runtime error) or a JavaScript exception in the broker; the writes made
    before it stay in the store. *)
Inductive outcome (A : Type) : Type :=
| Done (a : A) (st : store)
| Raised (st : store).
Arguments Done {A} a st.
Arguments Raised {A} st.

Definition cmd (A : Type) : Type := store → outcome A.

Definition store_of {A} (o : outcome A) : store :=
  match o with Done _ st => st | Raised st => st end.

Definition result_of {A} (o : outcome A) : option A :=
  match o with Done a _ => Some a | Raised _ => None end.

#[global] Instance cmd_ret : MRet cmd := λ A a st, Done a st.
#[global] Instance cmd_bind : MBind cmd := λ A B f m st,
  match m st with
  | Done a st' => f a st'
  | Raised st' => Raised st'
  end.

Definition raise {A} : cmd A := λ st, Raised st.

Fixpoint forM_ {A} (l : list A) (f : A → cmd unit) : cmd unit :=
  match l with
  | [] => mret tt
  | x :: l' => f x ≫= λ _, forM_ l' f
  end.

Fixpoint mapM {A B} (f : A → cmd B) (l : list A) : cmd (list B) :=
  match l with
  | [] => mret []
  | x :: l' => y ← f x; ys ← mapM f l'; mret (y :: ys)
  end.

(** ** Sorted sets in score order *)

(** Redis orders a sorted set by score, then by member bytes. *)
Definition entry_leb (a b : string * Z) : bool :=
  (a.2 <? b.2) || ((a.2 =? b.2) && String.leb a.1 b.1).

Fixpoint insert_entry (x : string * Z) (l : list (string * Z)) : list (string * Z) :=
  match l with
  | [] => [x]
  | y :: l' => if entry_leb x y then x :: l else y :: insert_entry x l'
  end.

Definition sort_entries (l : list (string * Z)) : list (string * Z) :=
  foldr insert_entry [] l.

Definition zset_entries (z : gmap string Z) : list (string * Z) :=
  sort_entries (map_to_list z).

(** Index ranges of [ZRANGE]: negative indexes count from the end, the range
    is clipped to the set. *)
Definition zrange_slice {A} (l : list A) (start stop : Z) : list A :=
  let len := Z.of_nat (length l) in
  let start := if start <? 0 then Z.max 0 (len + start) else start in
  let stop := if stop <? 0 then len + stop else stop in
  if (stop <? start) || (len <=? start) then []
  else take (Z.to_nat (Z.min stop (len - 1) - start + 1)) (drop (Z.to_nat start) l).

(** Score ranges of [ZRANGEBYSCORE]; [None] as lower bound is [-inf]. *)
Definition in_score_range (lo : option Z) (hi : Z) (e : string * Z) : bool :=
  match lo with
  | None => e.2 <=? hi
  | Some l => (l <=? e.2) && (e.2 <=? hi)
  end.

Definition zrangebyscore_entries (z : gmap string Z) (lo : option Z) (hi : Z)
    (offset count : nat) : list (string * Z) :=
  take count (drop offset (List.filter (in_score_range lo hi) (zset_entries z))).

(** ** Redis commands *)

Module Redis.

Definition GET (key : string) : cmd (option rstring) := λ st,
  match st !! key with
  | None => Done None st
  | Some (RString s) => Done (Some s) st
  | Some _ => Raised st
  end.

Definition SET (key : string) (v : rstring) : cmd unit := λ st,
  Done tt (<[key := RString v]> st).

Definition DEL (key : string) : cmd unit := λ st,
  Done tt (delete key st).

(** The sorted set under [key]; a missing key reads as the empty set. *)
Definition zset_at (st : store) (key : string) : option (gmap string Z) :=
  match st !! key with
  | None => Some ∅
  | Some (RZSet z) => Some z
  | Some _ => None
  end.

Definition put_zset (key : string) (z : gmap string Z) (st : store) : store :=
  if decide (z = ∅) then delete key st else <[key := RZSet z]> st.

Definition ZADD (key : string) (score : Z) (member : string) : cmd unit := λ st,
  match zset_at st key with
  | Some z => Done tt (put_zset key (<[member := score]> z) st)
  | None => Raised st
  end.

Definition ZREM (key : string) (member : string) : cmd unit := λ st,
  match zset_at st key with
  | Some z => Done tt (put_zset key (delete member z) st)
  | None => Raised st
  end.

Definition ZSCORE (key : string) (member : string) : cmd (option Z) := λ st,
  match zset_at st key with
  | Some z => Done (z !! member) st
  | None => Raised st
  end.

Definition ZRANGE (key : string) (start stop : Z) : cmd (list (string * Z)) := λ st,
  match zset_at st key with
  | Some z => Done (zrange_slice (zset_entries z) start stop) st
  | None => Raised st
  end.

Definition ZRANGEBYSCORE (key : string) (lo : option Z) (hi : Z)
    (offset count : nat) : cmd (list (string * Z)) := λ st,
  match zset_at st key with
  | Some z => Done (zrangebyscore_entries z lo hi offset count) st
  | None => Raised st
  end.

(** The set under [key]; a missing key reads as the empty set. *)
Definition set_at (st : store) (key : string) : option (gset string) :=
  match st !! key with
  | None => Some ∅
  | Some (RSet s) => Some s
  | Some _ => None
  end.

Definition put_set (key : string) (s : gset string) (st : store) : store :=
  if decide (s = ∅) then delete key st else <[key := RSet s]> st.

Definition SCARD (key : string) : cmd Z := λ st,
  match set_at st key with
  | Some s => Done (Z.of_nat (size s)) st
  | None => Raised st
  end.

Definition SADD (key : string) (member : string) : cmd unit := λ st,
  match set_at st key with
  | Some s => Done tt (put_set key ({[member]} ∪ s) st)
  | None => Raised st
  end.

Definition SREM (key : string) (member : string) : cmd unit := λ st,
  match set_at st key with
  | Some s => Done tt (put_set key (s ∖ {[member]}) st)
  | None => Raised st
  end.

End Redis.

(** ** Lua helpers *)

(** [tonumber] on the text of a string value. *)
Definition tonumber (s : rstring) : option Z :=
  match s with
  | SNumber n => Some n
  | _ => None
  end.

(** [a >= b] in Lua, where [b] may be [nil]: comparing a number with [nil]
    is a runtime error. *)
Definition lua_ge (a : Z) (b : option Z) : cmd bool :=
  match b with
  | Some b => mret (b <=? a)
  | None => raise
  end.

(** ** The Lua scripts of [#registerCommands] *)

Module Lua.
Import Redis.

(** "Rebalance the parent queue": the last block of the enqueue, dequeue and
    nack scripts, with [#earliestMessage == 0] as the empty list and
    [earliestMessage[2]] as the score of the first entry. *)
Definition rebalanceParentQueue (queue parentQueue queueName : string) : cmd unit :=
  earliestMessage ← ZRANGE queue 0 0;
  match earliestMessage with
  | [] => ZREM parentQueue queueName
  | (_, score) :: _ => ZADD parentQueue score queueName
  end.

Definition enqueueMessage (queue parentQueue messageKey : string)
    (queueName messageId : string) (messageData : rstring) (messageScore : Z) : cmd unit :=
  SET messageKey messageData;;
  ZADD queue messageScore messageId;;
  rebalanceParentQueue queue parentQueue queueName.

(** [tonumber(redis.call('GET', key) or default)]: [GET] of a missing key is
    [false] in Lua, every stored string is truthy. *)
Definition limitOrDefault (limitKey : string) (defaultLimit : Z) : cmd (option Z) :=
  v ← GET limitKey;
  mret (match v with
        | Some s => tonumber s
        | None => Some defaultLimit
        end).

Definition dequeueMessage
    (childQueue parentQueue visibilityQueue : string)
    (concurrencyLimitKey envConcurrencyLimitKey orgConcurrencyLimitKey : string)
    (currentConcurrencyKey envCurrentConcurrencyKey orgCurrentConcurrencyKey : string)
    (childQueueName : string) (visibilityTimeout currentTime : Z)
    (defaultConcurrencyLimit defaultEnvConcurrencyLimit defaultOrgConcurrencyLimit : Z)
    : cmd (option (string * Z)) :=
  orgCurrentConcurrency ← SCARD orgCurrentConcurrencyKey;
  orgConcurrencyLimit ← limitOrDefault orgConcurrencyLimitKey defaultOrgConcurrencyLimit;
  orgFull ← lua_ge orgCurrentConcurrency orgConcurrencyLimit;
  if orgFull : bool then mret None else
  envCurrentConcurrency ← SCARD envCurrentConcurrencyKey;
  envConcurrencyLimit ← limitOrDefault envConcurrencyLimitKey defaultEnvConcurrencyLimit;
  envFull ← lua_ge envCurrentConcurrency envConcurrencyLimit;
  if envFull : bool then mret None else
  currentConcurrency ← SCARD currentConcurrencyKey;
  concurrencyLimit ← limitOrDefault concurrencyLimitKey defaultConcurrencyLimit;
  queueFull ← lua_ge currentConcurrency concurrencyLimit;
  if queueFull : bool then mret None else
  messages ← ZRANGEBYSCORE childQueue None currentTime 0 1;
  match messages with
  | [] => mret None
  | (messageId, messageScore) :: _ =>
      let timeoutScore := currentTime + visibilityTimeout in
      ZREM childQueue messageId;;
      ZADD visibilityQueue timeoutScore messageId;;
      SADD currentConcurrencyKey messageId;;
      SADD envCurrentConcurrencyKey messageId;;
      SADD orgCurrentConcurrencyKey messageId;;
      rebalanceParentQueue childQueue parentQueue childQueueName;;
      mret (Some (messageId, messageScore))
  end.

Definition acknowledgeMessage (messageKey visibilityQueue : string)
    (concurrencyKey envCurrentConcurrencyKey orgCurrentConcurrencyKey : string)
    (messageId : string) : cmd unit :=
  DEL messageKey;;
  ZREM visibilityQueue messageId;;
  SREM concurrencyKey messageId;;
  SREM envCurrentConcurrencyKey messageId;;
  SREM orgCurrentConcurrencyKey messageId.

(** [tonumber(redis.call('ZSCORE', key, member)) or 0]: a missing member
    gives [false], [tonumber(false)] is [nil], and [nil or 0] is [0]. *)
Definition scoreOrZero (key member : string) : cmd Z :=
  v ← ZSCORE key member;
  mret (default 0 v).

Definition nackMessage (messageKey childQueueKey parentQueueKey : string)
    (concurrencyKey envConcurrencyKey orgConcurrencyKey visibilityQueue : string)
    (childQueueName messageId : string) (currentTime messageScore : Z) : cmd unit :=
  messageVisibility ← scoreOrZero visibilityQueue messageId;
  if messageVisibility =? 0 then mret tt else
  SREM concurrencyKey messageId;;
  SREM envConcurrencyKey messageId;;
  SREM orgConcurrencyKey messageId;;
  ZREM visibilityQueue messageId;;
  ZADD childQueueKey messageScore messageId;;
  rebalanceParentQueue childQueueKey parentQueueKey childQueueName.

Definition heartbeatMessage (visibilityQueue : string) (messageId : string)
    (milliseconds maxVisibilityTimeout : Z) : cmd unit :=
  currentVisibilityTimeout ← scoreOrZero visibilityQueue messageId;
  if currentVisibilityTimeout =? 0 then mret tt else
  let newVisibilityTimeout :=
    Z.min (currentVisibilityTimeout + milliseconds * 1000) maxVisibilityTimeout in
  ZADD visibilityQueue newVisibilityTimeout messageId.

(** The reply is a Lua table; its conversion to a Redis array stops at the
    first [nil]. *)
Fixpoint lua_array (l : list (option Z)) : list Z :=
  match l with
  | Some n :: l' => n :: lua_array l'
  | _ => []
  end.

Definition calculateMessageQueueCapacities
    (currentConcurrencyKey currentEnvConcurrencyKey currentOrgConcurrencyKey : string)
    (concurrencyLimitKey envConcurrencyLimitKey orgConcurrencyLimitKey : string)
    (defaultConcurrencyLimit defaultEnvConcurrencyLimit defaultOrgConcurrencyLimit : Z)
    : cmd (list Z) :=
  currentOrgConcurrency ← SCARD currentOrgConcurrencyKey;
  orgConcurrencyLimit ← limitOrDefault orgConcurrencyLimitKey defaultOrgConcurrencyLimit;
  currentEnvConcurrency ← SCARD currentEnvConcurrencyKey;
  envConcurrencyLimit ← limitOrDefault envConcurrencyLimitKey defaultEnvConcurrencyLimit;
  currentConcurrency ← SCARD currentConcurrencyKey;
  concurrencyLimit ← limitOrDefault concurrencyLimitKey defaultConcurrencyLimit;
  mret (lua_array [Some currentConcurrency; concurrencyLimit;
                   Some currentEnvConcurrency; envConcurrencyLimit;
                   Some currentOrgConcurrency; orgConcurrencyLimit]).

Definition updateGlobalConcurrencyLimits (envConcurrencyLimitKey orgConcurrencyLimitKey : string)
    (envConcurrencyLimit orgConcurrencyLimit : rstring) : cmd unit :=
  SET envConcurrencyLimitKey envConcurrencyLimit;;
  SET orgConcurrencyLimitKey orgConcurrencyLimit.

End Lua.

(** ** The broker's collaborators *)

Record Organization : Type := {
  organizationId : string;
  organizationMaximumConcurrencyLimit : Z;
}.

Record AuthenticatedEnvironment : Type := {
  environmentId : string;
  organization : Organization;
  maximumConcurrencyLimit : Z;
}.

(** The interface [MarQSKeyProducer] of [./types], with the methods the
    broker calls. *)
Class MarQSKeyProducer : Type := {
  queueConcurrencyLimitKey : AuthenticatedEnvironment → string → string;
  envConcurrencyLimitKey : AuthenticatedEnvironment → string;
  orgConcurrencyLimitKey : AuthenticatedEnvironment → string;
  queueKey : AuthenticatedEnvironment → string → option string → string;
  envSharedQueueKey : AuthenticatedEnvironment → string;
  concurrencyLimitKeyFromQueue : string → string;
  currentConcurrencyKeyFromQueue : string → string;
  envConcurrencyLimitKeyFromQueue : string → string;
  envCurrentConcurrencyKeyFromQueue : string → string;
  orgConcurrencyLimitKeyFromQueue : string → string;
  orgCurrentConcurrencyKeyFromQueue : string → string;
  messageKey : string → string;
}.

(** [Number(x)] of a reply element that may be missing is [NaN], here
    [None]. *)
Record Capacity : Type := { current : option Z; limit : option Z }.

Record QueueCapacities : Type := {
  queueCapacity : Capacity;
  envCapacity : Capacity;
  orgCapacity : Capacity;
}.

Record QueueWithScores : Type := {
  scoredQueue : string;
  capacities : QueueCapacities;
  age : Z;
}.

(** The interface [MarQSQueuePriorityStrategy]: a candidate window of the
    parent queue with a selection id, and the choice among the scored
    candidates ([None] when the strategy returns no queue name). *)
Record MarQSQueuePriorityStrategy : Type := {
  nextCandidateSelection : string → (Z * Z) * string;
  chooseQueue : list QueueWithScores → string → string → option string;
}.

Record MarQSOptions : Type := {
  defaultQueueConcurrency : Z;
  defaultEnvConcurrency : Z;
  defaultOrgConcurrency : Z;
  visibilityTimeoutInMs_opt : option Z;
  workers : nat;
  queuePriorityStrategy : MarQSQueuePriorityStrategy;
  envQueuePriorityStrategy : MarQSQueuePriorityStrategy;
}.

(** [propagation.inject(context.active(), messageData)]: the propagator
    writes its fields into the carrier, over any field of the same name.
    The active context is given by the fields it injects. *)
Definition inject (activeContext : gmap string string) (messageData : Data) : Data :=
  (UStr <$> activeContext) ∪ messageData.

(** What [JSON.parse] and [MessagePayload.safeParse] make of a stored text. *)
Inductive json : Type :=
| JNumber (n : Z)
| JMessage (m : MessagePayload)
| JOther.

Definition JSON_stringify (m : MessagePayload) : rstring := SPayload m.

(** [None] is the [SyntaxError] that [JSON.parse] throws. *)
Definition JSON_parse (s : rstring) : option json :=
  match s with
  | SNumber n => Some (JNumber n)
  | SPayload m => Some (JMessage m)
  | SJson => Some JOther
  | SGarbled | SEmpty => None
  end.

Definition safeParse (j : json) : option MessagePayload :=
  match j with
  | JMessage m => Some m
  | _ => None
  end.

(** [!rawMessage] for the reply of [GET]: [null] and the empty string. *)
Definition falsy (raw : option rstring) : bool :=
  match raw with
  | None | Some SEmpty => true
  | Some _ => false
  end.

Module constants.
Definition SHARED_QUEUE : string := "sharedQueue".
Definition MESSAGE_VISIBILITY_TIMEOUT_QUEUE : string := "msgVisibilityTimeout".
End constants.

Record DequeueReply : Type := {
  replyMessageId : string;
  replyMessageScore : Z;
}.

(** ** The broker, class [MarQS]

    [now] is the value of [Date.now()] during the operation.  The spans of
    [#trace] carry no store state and are left out; the client's key prefix
    is put before every key alike and is left out too. *)

Module MarQS.
Import Redis.

Section Broker.
Context {keys : MarQSKeyProducer}.
Variable options : MarQSOptions.

Definition visibilityTimeoutInMs : Z :=
  default 300000 (visibilityTimeoutInMs_opt options).

Definition callEnqueueMessage (message : MessagePayload) : cmd unit :=
  Lua.enqueueMessage (queue message) (parentQueue message) (messageKey (messageId message))
    (queue message) (messageId message) (JSON_stringify message) (timestamp message).

Definition callDequeueMessage (now : Z) (messageQueue parentQueue visibilityQueue : string)
    (concurrencyLimitKey envConcurrencyLimitKey orgConcurrencyLimitKey : string)
    (currentConcurrencyKey envCurrentConcurrencyKey orgCurrentConcurrencyKey : string)
    : cmd (option DequeueReply) :=
  result ← Lua.dequeueMessage messageQueue parentQueue visibilityQueue
              concurrencyLimitKey envConcurrencyLimitKey orgConcurrencyLimitKey
              currentConcurrencyKey envCurrentConcurrencyKey orgCurrentConcurrencyKey
              messageQueue (default 300000 (visibilityTimeoutInMs_opt options)) now
              (defaultQueueConcurrency options) (defaultEnvConcurrency options)
              (defaultOrgConcurrency options);
  mret (match result with
        | None => None
        | Some (id, score) => Some {| replyMessageId := id; replyMessageScore := score |}
        end).

Definition callAcknowledgeMessage (messageKey visibilityQueue : string)
    (concurrencyKey envConcurrencyKey orgConcurrencyKey messageId : string) : cmd unit :=
  Lua.acknowledgeMessage messageKey visibilityQueue concurrencyKey envConcurrencyKey
    orgConcurrencyKey messageId.

Definition callNackMessage (now : Z) (messageKey messageQueue parentQueue : string)
    (concurrencyKey envConcurrencyKey orgConcurrencyKey visibilityQueue : string)
    (messageId : string) (messageScore : Z) : cmd unit :=
  Lua.nackMessage messageKey messageQueue parentQueue concurrencyKey envConcurrencyKey
    orgConcurrencyKey visibilityQueue messageQueue messageId now messageScore.

Definition callHeartbeatMessage (visibilityQueue messageId : string)
    (milliseconds maxVisibilityTimeout : Z) : cmd unit :=
  Lua.heartbeatMessage visibilityQueue messageId milliseconds maxVisibilityTimeout.

Definition callCalculateMessageCapacities
    (currentConcurrencyKey currentEnvConcurrencyKey currentOrgConcurrencyKey : string)
    (concurrencyLimitKey envConcurrencyLimitKey orgConcurrencyLimitKey : string)
    : cmd QueueCapacities :=
  capacities ← Lua.calculateMessageQueueCapacities
                  currentConcurrencyKey currentEnvConcurrencyKey currentOrgConcurrencyKey
                  concurrencyLimitKey envConcurrencyLimitKey orgConcurrencyLimitKey
                  (defaultQueueConcurrency options) (defaultEnvConcurrency options)
                  (defaultOrgConcurrency options);
  mret {| queueCapacity := {| current := capacities !! 0%nat; limit := capacities !! 1%nat |};
          envCapacity := {| current := capacities !! 2%nat; limit := capacities !! 3%nat |};
          orgCapacity := {| current := capacities !! 4%nat; limit := capacities !! 5%nat |} |}.

Definition callUpdateGlobalConcurrencyLimits (envConcurrencyLimitKey orgConcurrencyLimitKey : string)
    (envConcurrencyLimit orgConcurrencyLimit : Z) : cmd unit :=
  Lua.updateGlobalConcurrencyLimits envConcurrencyLimitKey orgConcurrencyLimitKey
    (SNumber envConcurrencyLimit) (SNumber orgConcurrencyLimit).

Definition updateQueueConcurrencyLimits (env : AuthenticatedEnvironment) (queue : string)
    (concurrency : Z) : cmd unit :=
  SET (queueConcurrencyLimitKey env queue) (SNumber concurrency).

Definition updateEnvConcurrencyLimits (env : AuthenticatedEnvironment) : cmd unit :=
  callUpdateGlobalConcurrencyLimits (envConcurrencyLimitKey env) (orgConcurrencyLimitKey env)
    (maximumConcurrencyLimit env)
    (organizationMaximumConcurrencyLimit (organization env)).

Definition readMessage (messageId : string) : cmd (option MessagePayload) :=
  rawMessage ← GET (messageKey messageId);
  if falsy rawMessage then mret None else
  match rawMessage ≫= JSON_parse with
  | None => raise
  | Some parsed => mret (safeParse parsed)
  end.

Definition enqueueMessage (activeContext : gmap string string) (now : Z)
    (env : AuthenticatedEnvironment) (queue messageId : string) (messageData : Data)
    (concurrencyKey : option string) : cmd unit :=
  let messageQueue := queueKey env queue concurrencyKey in
  let timestamp := now in
  let parentQueue := envSharedQueueKey env in
  let messageData := inject activeContext messageData in
  let messagePayload :=
    {| version := "1"; data := messageData; queue := messageQueue;
       concurrencyKey := concurrencyKey; timestamp := timestamp;
       messageId := messageId; parentQueue := parentQueue |} in
  callEnqueueMessage messagePayload.

Definition zrangeWithScores (key : string) (min max : Z) : cmd (list (string * Z)) :=
  ZRANGE key min max.

Definition calculateMessageQueueCapacities (queue : string) : cmd QueueCapacities :=
  callCalculateMessageCapacities
    (currentConcurrencyKeyFromQueue queue) (envCurrentConcurrencyKeyFromQueue queue)
    (orgCurrentConcurrencyKeyFromQueue queue) (concurrencyLimitKeyFromQueue queue)
    (envConcurrencyLimitKeyFromQueue queue) (orgConcurrencyLimitKeyFromQueue queue).

Definition calculateQueueScores (now : Z) (queues : list (string * Z))
    (calculateCapacities : string → cmd QueueCapacities) : cmd (list QueueWithScores) :=
  mapM (λ q : string * Z,
          c ← calculateCapacities q.1;
          mret {| scoredQueue := q.1; capacities := c; age := now - q.2 |}) queues.

(** The candidate window comes from the strategy passed in, the choice from
    [this.queuePriorityStrategy]. *)
Definition getRandomQueueFromParentQueue (now : Z) (parentQueue : string)
    (strategy : MarQSQueuePriorityStrategy)
    (calculateCapacities : string → cmd QueueCapacities) : cmd (option string) :=
  let '(range, selectionId) := nextCandidateSelection strategy parentQueue in
  queues ← zrangeWithScores parentQueue range.1 range.2;
  queuesWithScores ← calculateQueueScores now queues calculateCapacities;
  mret (chooseQueue (queuePriorityStrategy options) queuesWithScores parentQueue selectionId).

(** [!messageQueue] holds for [undefined] and for the empty string. *)
Definition dequeueMessageInEnv (now : Z) (env : AuthenticatedEnvironment)
    : cmd (option MessagePayload) :=
  let parentQueue := envSharedQueueKey env in
  messageQueue ← getRandomQueueFromParentQueue now parentQueue
                    (envQueuePriorityStrategy options) calculateMessageQueueCapacities;
  match messageQueue with
  | None | Some "" => mret None
  | Some messageQueue =>
      messageData ← callDequeueMessage now messageQueue parentQueue
                       constants.MESSAGE_VISIBILITY_TIMEOUT_QUEUE
                       (concurrencyLimitKeyFromQueue messageQueue)
                       (envConcurrencyLimitKeyFromQueue messageQueue)
                       (orgConcurrencyLimitKeyFromQueue messageQueue)
                       (currentConcurrencyKeyFromQueue messageQueue)
                       (envCurrentConcurrencyKeyFromQueue messageQueue)
                       (orgCurrentConcurrencyKeyFromQueue messageQueue);
      match messageData with
      | None => mret None
      | Some messageData => readMessage (replyMessageId messageData)
      end
  end.

Definition dequeueMessageInSharedQueue (now : Z) : cmd (option MessagePayload) :=
  let parentQueue := constants.SHARED_QUEUE in
  messageQueue ← getRandomQueueFromParentQueue now parentQueue
                    (queuePriorityStrategy options) calculateMessageQueueCapacities;
  match messageQueue with
  | None | Some "" => mret None
  | Some messageQueue =>
      messageData ← callDequeueMessage now messageQueue parentQueue
                       constants.MESSAGE_VISIBILITY_TIMEOUT_QUEUE
                       (concurrencyLimitKeyFromQueue messageQueue)
                       (envConcurrencyLimitKeyFromQueue messageQueue)
                       (orgConcurrencyLimitKeyFromQueue messageQueue)
                       (currentConcurrencyKeyFromQueue messageQueue)
                       (envCurrentConcurrencyKeyFromQueue messageQueue)
                       (orgCurrentConcurrencyKeyFromQueue messageQueue);
      match messageData with
      | None => mret None
      | Some messageData => readMessage (replyMessageId messageData)
      end
  end.

Definition acknowledgeMessage (messageId : string) : cmd unit :=
  message ← readMessage messageId;
  match message with
  | None => mret tt
  | Some message =>
      callAcknowledgeMessage (messageKey messageId)
        constants.MESSAGE_VISIBILITY_TIMEOUT_QUEUE
        (currentConcurrencyKeyFromQueue (queue message))
        (envCurrentConcurrencyKeyFromQueue (queue message))
        (orgCurrentConcurrencyKeyFromQueue (queue message))
        messageId
  end.

Definition replaceMessage (now : Z) (messageId : string) (messageData : Data)
    (timestamp : option Z) : cmd unit :=
  oldMessage ← readMessage messageId;
  match oldMessage with
  | None => mret tt
  | Some oldMessage =>
      callAcknowledgeMessage (messageKey messageId)
        constants.MESSAGE_VISIBILITY_TIMEOUT_QUEUE
        (currentConcurrencyKeyFromQueue (queue oldMessage))
        (envCurrentConcurrencyKeyFromQueue (queue oldMessage))
        (orgCurrentConcurrencyKeyFromQueue (queue oldMessage))
        messageId;;
      let newMessage :=
        {| version := "1"; data := messageData; queue := queue oldMessage;
           concurrencyKey := concurrencyKey oldMessage;
           timestamp := default now timestamp;
           messageId := messageId; parentQueue := parentQueue oldMessage |} in
      callEnqueueMessage newMessage
  end.

Definition nackMessage (now : Z) (messageId : string) (retryAt : option Z) : cmd unit :=
  let retryAt := default now retryAt in
  message ← readMessage messageId;
  match message with
  | None => mret tt
  | Some message =>
      callNackMessage now (messageKey messageId) (queue message) (parentQueue message)
        (currentConcurrencyKeyFromQueue (queue message))
        (envCurrentConcurrencyKeyFromQueue (queue message))
        (orgCurrentConcurrencyKeyFromQueue (queue message))
        constants.MESSAGE_VISIBILITY_TIMEOUT_QUEUE
        messageId retryAt
  end.

Definition heartbeatMessage (now : Z) (messageId : string) (seconds : option Z) : cmd unit :=
  let seconds := default 30 seconds in
  callHeartbeatMessage constants.MESSAGE_VISIBILITY_TIMEOUT_QUEUE messageId
    (seconds * 1000) (now + visibilityTimeoutInMs).

(** One turn of the loop of [#requeueVisibleMessages], for the id [message]
    read from the visibility queue. *)
Definition requeueMessage (now : Z) (message : string) : cmd unit :=
  messageData ← GET (messageKey message);
  if falsy messageData then
    ZREM constants.MESSAGE_VISIBILITY_TIMEOUT_QUEUE message
  else
    match messageData ≫= JSON_parse with
    | None => raise
    | Some parsed =>
        match safeParse parsed with
        | None => ZREM constants.MESSAGE_VISIBILITY_TIMEOUT_QUEUE message
        | Some parsedMessage =>
            callNackMessage now (messageKey message) (queue parsedMessage)
              (parentQueue parsedMessage)
              (currentConcurrencyKeyFromQueue (queue parsedMessage))
              (envCurrentConcurrencyKeyFromQueue (queue parsedMessage))
              (orgCurrentConcurrencyKeyFromQueue (queue parsedMessage))
              constants.MESSAGE_VISIBILITY_TIMEOUT_QUEUE
              (messageId parsedMessage) (timestamp parsedMessage)
        end
    end.

(** The ids read by one cycle: [zrangebyscore(key, 0, now, "LIMIT", 0, 10)]. *)
Definition expiredMessages (now : Z) : cmd (list string) :=
  messages ← ZRANGEBYSCORE constants.MESSAGE_VISIBILITY_TIMEOUT_QUEUE (Some 0) now 0 10;
  mret (messages.*1).

Definition requeueVisibleMessages (now : Z) : cmd unit :=
  messages ← expiredMessages now;
  if (length messages =? 0)%nat then mret tt else
  forM_ messages (requeueMessage now).

End Broker.
End MarQS.

(** ** A concrete key producer and strategy for the examples *)

Module Example.

Fixpoint split_on (c : ascii) (s : string) : list string :=
  match s with
  | EmptyString => [EmptyString]
  | String a s' =>
      if Ascii.eqb a c then EmptyString :: split_on c s'
      else match split_on c s' with
           | h :: t => String a h :: t
           | [] => [String a EmptyString]
           end
  end.

Definition ckSuffix (concurrencyKey : option string) : string :=
  match concurrencyKey with
  | Some ck => ":ck:" +:+ ck
  | None => ""
  end.

(** The organisation, environment, queue name and concurrency key written in
    a child queue key. *)
Definition descriptorFromQueue (queue : string) : string * string * string * option string :=
  match split_on ":" queue with
  | [_; org; env; name] => (org, env, name, None)
  | [_; org; env; name; _; ck] => (org, env, name, Some ck)
  | _ => ("", "", "", None)
  end.

(** Modelled from the spec: the key producer ([MarQSShortKeyProducer] is not
    among the sources), with the key shapes of the data model; a child queue
    key also carries the organisation id, so that the keys of the
    organisation can be rebuilt from it, and the limit key of a child queue
    leaves the concurrency key out. *)
#[export] Instance shortKeys : MarQSKeyProducer := {|
  queueConcurrencyLimitKey env queue := "cl:" +:+ environmentId env +:+ ":" +:+ queue;
  envConcurrencyLimitKey env := "el:" +:+ environmentId env;
  orgConcurrencyLimitKey env := "ol:" +:+ organizationId (organization env);
  queueKey env queue ck :=
    "queue:" +:+ organizationId (organization env) +:+ ":" +:+ environmentId env
      +:+ ":" +:+ queue +:+ ckSuffix ck;
  envSharedQueueKey env := "env:" +:+ environmentId env +:+ ":sharedQueue";
  concurrencyLimitKeyFromQueue queue :=
    let '(_, env, name, _) := descriptorFromQueue queue in "cl:" +:+ env +:+ ":" +:+ name;
  currentConcurrencyKeyFromQueue queue :=
    let '(_, env, name, ck) := descriptorFromQueue queue in
    "cc:" +:+ env +:+ ":" +:+ name +:+ ckSuffix ck;
  envConcurrencyLimitKeyFromQueue queue :=
    let '(_, env, _, _) := descriptorFromQueue queue in "el:" +:+ env;
  envCurrentConcurrencyKeyFromQueue queue :=
    let '(_, env, _, _) := descriptorFromQueue queue in "ecc:" +:+ env;
  orgConcurrencyLimitKeyFromQueue queue :=
    let '(org, _, _, _) := descriptorFromQueue queue in "ol:" +:+ org;
  orgCurrentConcurrencyKeyFromQueue queue :=
    let '(org, _, _, _) := descriptorFromQueue queue in "occ:" +:+ org;
  messageKey messageId := "message:" +:+ messageId;
|}.

(** A strategy that looks at the first twelve children of the parent queue
    and takes the first one. *)
Definition firstQueue : MarQSQueuePriorityStrategy := {|
  nextCandidateSelection _ := ((0, 11), "selection");
  chooseQueue candidates _ _ := scoredQueue <$> head candidates;
|}.

Definition exampleOptions (visibilityTimeout : Z) : MarQSOptions := {|
  defaultQueueConcurrency := 10;
  defaultEnvConcurrency := 10;
  defaultOrgConcurrency := 10;
  visibilityTimeoutInMs_opt := Some visibilityTimeout;
  workers := 1;
  queuePriorityStrategy := firstQueue;
  envQueuePriorityStrategy := firstQueue;
|}.

Definition acme : Organization :=
  {| organizationId := "acme"; organizationMaximumConcurrencyLimit := 10 |}.

Definition dev : AuthenticatedEnvironment :=
  {| environmentId := "dev"; organization := acme; maximumConcurrencyLimit := 10 |}.

Definition VIS : string := constants.MESSAGE_VISIBILITY_TIMEOUT_QUEUE.

End Example.

(** ** Queue names *)

(** [sanitizeQueueName]: a JavaScript string is a sequence of UTF-16 code
    units; the pattern keeps the units of [a-zA-Z0-9_\-\/] and [substring]
    keeps the first 128 of them. *)
Definition allowedInQueueName (c : N) : bool :=
  ((97 <=? c) && (c <=? 122) || (65 <=? c) && (c <=? 90) || (48 <=? c) && (c <=? 57)
   || (c =? 95) || (c =? 45) || (c =? 47))%N.

Definition sanitizeQueueName (queueName : list N) : list N :=
  take 128 (List.filter allowedInQueueName queueName).

(** * The vocabulary of the statements *)

Import Redis.

(** Entries come in nondecreasing score. *)
Definition by_score (a b : string * Z) : Prop := a.2 ≤ b.2.

(** The least score of a sorted set. *)
Definition min_score (z : gmap string Z) (s : Z) : Prop :=
  (∃ m, z !! m = Some s) ∧ ∀ m' s', z !! m' = Some s' → s ≤ s'.

(** The deadline of a message in a visibility queue. *)
Definition deadline (st : store) (visibilityQueue messageId : string) : option Z :=
  Redis.zset_at st visibilityQueue ≫= (.!! messageId).

(** The cardinality of a current-concurrency set. *)
Definition cardinality (st : store) (currentKey : string) : option Z :=
  (λ s : gset string, Z.of_nat (size s)) <$> Redis.set_at st currentKey.

(** The value of a limit key, or the default when the key is missing. *)
Definition limit_value (st : store) (limitKey : string) (defaultLimit : Z) : option Z :=
  match st !! limitKey with
  | None => Some defaultLimit
  | Some (RString s) => tonumber s
  | Some _ => None
  end.

(** Whether a concurrency ceiling is reached: current ≥ limit. *)
Definition ceiling_reached (st : store) (currentKey limitKey : string) (defaultLimit : Z)
    : option bool :=
  c ← cardinality st currentKey;
  l ← limit_value st limitKey defaultLimit;
  Some (l <=? c).

(** A run of broker heartbeats, each with its clock, message id and optional
    number of seconds. *)
Definition heartbeats (options : MarQSOptions) (hs : list (Z * string * option Z))
    : cmd unit :=
  forM_ hs (λ h, MarQS.heartbeatMessage options h.1.1 h.1.2 h.2).

(** The entry of a child queue in its parent queue is the least score of the
    child, and there is none exactly when the child is empty. *)
Definition parent_balanced (st : store) (childQueue parentQueue queueName : string) : Prop :=
  ∃ zc zp, zset_at st childQueue = Some zc ∧ zset_at st parentQueue = Some zp
    ∧ (zp !! queueName = None ↔ zc = ∅)
    ∧ ∀ s, zp !! queueName = Some s → min_score zc s.

(** The three sorted-set keys of a script differ from each other and from
    the three keys of the current-concurrency sets. *)
Definition keys_apart (childQueue parentQueue visibilityQueue : string)
    (currentConcurrencyKey envCurrentConcurrencyKey orgCurrentConcurrencyKey : string)
    : Prop :=
  NoDup [childQueue; parentQueue; visibilityQueue]
  ∧ Forall (λ k, k ∉ [childQueue; parentQueue; visibilityQueue])
      [currentConcurrencyKey; envCurrentConcurrencyKey; orgCurrentConcurrencyKey].

#[global] Instance keys_apart_dec c p v q e o : Decision (keys_apart c p v q e o).
Proof. unfold keys_apart. apply _. Defined.

(** A member is in the set under [k], or is about to be added to it. *)
Definition maybe_added (st : store) (k m : string) (s : gset string) : Prop :=
  set_at st k = Some s ∨ set_at st k = Some ({[m]} ∪ s).

(** A member is out of the set under [k], or is about to be removed. *)
Definition maybe_removed (st : store) (k m : string) (s : gset string) : Prop :=
  set_at st k = Some s ∨ set_at st k = Some (s ∖ {[m]}).

(** A command that leaves every string value of the store in place, whether
    it completes or not. *)
Definition keeps_strings {A} (c : cmd A) : Prop :=
  ∀ st k v, st !! k = Some (RString v) → store_of (c st) !! k = Some (RString v).

(** The value under a message key is missing or is a text that holds no
    message payload: the empty text, a text that is not JSON, or JSON that
    [MessagePayload.safeParse] rejects. *)
Definition no_payload (v : option rvalue) : bool :=
  match v with
  | None => true
  | Some (RString (SPayload _)) => false
  | Some (RString _) => true
  | Some _ => false
  end.

(** A text on which [JSON.parse] throws. *)
Definition not_json (v : option rvalue) : bool :=
  match v with
  | Some (RString SGarbled) => true
  | _ => false
  end.

(** The value under a message key is missing, the empty text, or JSON that
    [MessagePayload.safeParse] rejects. *)
Definition missing_or_invalid (v : option rvalue) : bool :=
  match v with
  | None => true
  | Some (RString (SNumber _ | SJson | SEmpty)) => true
  | _ => false
  end.

Section Deliveries.
Context {keys : MarQSKeyProducer}.

(** Any number of dequeues, from an environment or from the shared queue,
    each with its own options (so with its own strategy) and clock. *)
Inductive dequeue_steps : store → store → Prop :=
| steps_done st : dequeue_steps st st
| steps_env options now env st st' :
    dequeue_steps (store_of (MarQS.dequeueMessageInEnv options now env st)) st' →
    dequeue_steps st st'
| steps_shared options now st st' :
    dequeue_steps (store_of (MarQS.dequeueMessageInSharedQueue options now st)) st' →
    dequeue_steps st st'.

(** A dequeue from [parentQueue] chooses a queue, which is not the empty
    string (the operation gives up on one), and the script replies with the
    id [messageId]; [st'] is the store the script leaves. *)
Definition delivers (options : MarQSOptions) (now : Z) (parentQueue : string)
    (strategy : MarQSQueuePriorityStrategy) (st : store) (messageId : string)
    (st' : store) : Prop :=
  ∃ messageQueue st1 reply,
    MarQS.getRandomQueueFromParentQueue options now parentQueue strategy
      (MarQS.calculateMessageQueueCapacities options) st = Done (Some messageQueue) st1
    ∧ MarQS.callDequeueMessage options now messageQueue parentQueue
        constants.MESSAGE_VISIBILITY_TIMEOUT_QUEUE
        (concurrencyLimitKeyFromQueue messageQueue)
        (envConcurrencyLimitKeyFromQueue messageQueue)
        (orgConcurrencyLimitKeyFromQueue messageQueue)
        (currentConcurrencyKeyFromQueue messageQueue)
        (envCurrentConcurrencyKeyFromQueue messageQueue)
        (orgCurrentConcurrencyKeyFromQueue messageQueue) st1 = Done (Some reply) st'
    ∧ messageQueue ≠ ""
    ∧ replyMessageId reply = messageId.

(** The payload a message is read back as. *)
Definition reads_back (activeContext : gmap string string) (now : Z)
    (env : AuthenticatedEnvironment) (queueName id : string) (messageData : Data)
    (ck : option string) (message : MessagePayload) : Prop :=
  messageId message = id
  ∧ queue message = queueKey env queueName ck
  ∧ concurrencyKey message = ck
  ∧ timestamp message = now
  ∧ parentQueue message = envSharedQueueKey env
  ∧ (∀ k, activeContext !! k = None → data message !! k = messageData !! k)
  ∧ (∀ k v, activeContext !! k = Some v → data message !! k = Some (UStr v)).

End Deliveries.

(** The id is not a member of the sorted set under [k], and the key is in
    the state Redis keeps it in: missing, or holding a set that is not
    empty. *)
Definition id_gone_from_zset (st : store) (k m : string) : Prop :=
  st !! k = None ∨ ∃ z, st !! k = Some (RZSet z) ∧ z ≠ ∅ ∧ z !! m = None.

(** The same for the set under [k]. *)
Definition id_gone_from_set (st : store) (k m : string) : Prop :=
  st !! k = None ∨ ∃ s, st !! k = Some (RSet s) ∧ s ≠ ∅ ∧ m ∉ s.

(** A command that never writes: the store is the same after it, whether
    it completes or not. *)
Definition reads_only {A} (c : cmd A) : Prop :=
  ∀ st, store_of (c st) = st.

(** [st'] is [st], or the store the dequeue script leaves when the broker
    runs it on some child queue of [parentQueue]. *)
Definition written_by_dequeue_script {keys : MarQSKeyProducer} (options : MarQSOptions)
    (now : Z) (parentQueue : string) (st st' : store) : Prop :=
  st' = st
  ∨ ∃ messageQueue,
      st' = store_of
              (Lua.dequeueMessage messageQueue parentQueue
                 constants.MESSAGE_VISIBILITY_TIMEOUT_QUEUE
                 (concurrencyLimitKeyFromQueue messageQueue)
                 (envConcurrencyLimitKeyFromQueue messageQueue)
                 (orgConcurrencyLimitKeyFromQueue messageQueue)
                 (currentConcurrencyKeyFromQueue messageQueue)
                 (envCurrentConcurrencyKeyFromQueue messageQueue)
                 (orgCurrentConcurrencyKeyFromQueue messageQueue)
                 messageQueue (default 300000 (visibilityTimeoutInMs_opt options)) now
                 (defaultQueueConcurrency options) (defaultEnvConcurrency options)
                 (defaultOrgConcurrency options) st).

(** * Facts about the model *)

(** ** Commands *)

Lemma bind_done {A B} (m : cmd A) (f : A → cmd B) st a st' :
  m st = Done a st' → (m ≫= f) st = f a st'.
Proof. intros H. unfold mbind, cmd_bind. by rewrite H. Qed.

Lemma bind_raised {A B} (m : cmd A) (f : A → cmd B) st st' :
  m st = Raised st' → (m ≫= f) st = Raised st'.
Proof. intros H. unfold mbind, cmd_bind. by rewrite H. Qed.

Lemma bind_inv {A B} (m : cmd A) (f : A → cmd B) st b st' :
  (m ≫= f) st = Done b st' → ∃ a st1, m st = Done a st1 ∧ f a st1 = Done b st'.
Proof.
  unfold mbind, cmd_bind. destruct (m st) as [a st1|st1]; [eauto | discriminate].
Qed.

(** ** Sorted sets *)

Lemma insert_entry_perm x l : insert_entry x l ≡ₚ x :: l.
Proof.
  induction l as [|y l IH]; simpl; [done|].
  destruct (entry_leb x y); [done|]. rewrite IH. apply Permutation_swap.
Qed.

Lemma sort_entries_perm l : sort_entries l ≡ₚ l.
Proof.
  induction l as [|x l IH]; simpl; [done|].
  by rewrite insert_entry_perm, IH.
Qed.

Lemma elem_of_zset_entries z m s : (m, s) ∈ zset_entries z ↔ z !! m = Some s.
Proof.
  unfold zset_entries. rewrite sort_entries_perm. apply elem_of_map_to_list.
Qed.

Lemma zset_entries_nil z : zset_entries z = [] → z = ∅.
Proof.
  intros H. apply map_empty. intros m.
  destruct (z !! m) as [s|] eqn:E; [|done].
  apply elem_of_zset_entries in E. rewrite H in E. by apply elem_of_nil in E.
Qed.

Lemma zset_entries_empty : zset_entries ∅ = [].
Proof. unfold zset_entries. by rewrite map_to_list_empty. Qed.

Lemma entry_leb_false x y : entry_leb x y = false → by_score y x.
Proof.
  unfold entry_leb, by_score. intros H.
  apply orb_false_iff in H as [H _]. lia.
Qed.

Lemma entry_leb_true x y : entry_leb x y = true → by_score x y.
Proof.
  unfold entry_leb, by_score. intros H.
  apply orb_true_iff in H as [H|H]; [lia|].
  apply andb_true_iff in H as [H _]. lia.
Qed.

Lemma insert_entry_sorted x l :
  StronglySorted by_score l → StronglySorted by_score (insert_entry x l).
Proof.
  induction 1 as [|y l Hl IH Hy]; simpl.
  - repeat constructor.
  - destruct (entry_leb x y) eqn:E.
    + apply entry_leb_true in E. constructor; [by constructor|].
      constructor; [done|]. eapply Forall_impl; [exact Hy|].
      unfold by_score in *. intros; simpl in *; lia.
    + apply entry_leb_false in E. constructor; [done|].
      rewrite insert_entry_perm. by constructor.
Qed.

Lemma sort_entries_sorted l : StronglySorted by_score (sort_entries l).
Proof.
  induction l; simpl; [constructor | by apply insert_entry_sorted].
Qed.

Lemma filter_sorted (P : string * Z → bool) l :
  StronglySorted by_score l → StronglySorted by_score (List.filter P l).
Proof.
  induction 1 as [|y l Hl IH Hy]; simpl; [constructor|].
  destruct (P y); [|done]. constructor; [done|].
  apply Forall_forall. intros e He. apply list_elem_of_In, filter_In in He as [He _].
  rewrite Forall_forall in Hy. by apply Hy, list_elem_of_In.
Qed.

Lemma sorted_head_least e l e' :
  StronglySorted by_score (e :: l) → e' ∈ e :: l → e.2 ≤ e'.2.
Proof.
  intros Hs He. apply StronglySorted_inv in Hs as [_ Hs].
  apply elem_of_cons in He as [->|He]; [lia|].
  rewrite Forall_forall in Hs. by apply Hs.
Qed.

Lemma zset_entries_head z m s l :
  zset_entries z = (m, s) :: l → z !! m = Some s ∧ min_score z s.
Proof.
  intros H.
  assert (z !! m = Some s) as Hm.
  { apply elem_of_zset_entries. rewrite H. apply elem_of_cons; auto. }
  split; [done|]. split; [eauto|]. intros m' s' H'.
  apply elem_of_zset_entries in H'. rewrite H in H'.
  pose proof (sort_entries_sorted (map_to_list z)) as Hs.
  fold (zset_entries z) in Hs. rewrite H in Hs.
  by apply (sorted_head_least _ _ _ Hs H').
Qed.

Lemma zrange_slice_first {A} (l : list A) : zrange_slice l 0 0 = take 1 l.
Proof.
  unfold zrange_slice. destruct l as [|x l]; [done|].
  change (0 <? 0) with false. cbv iota zeta. rewrite orb_false_l.
  assert ((Z.of_nat (length (x :: l)) <=? 0) = false) as ->
    by (apply Z.leb_gt; rewrite length_cons; lia).
  replace (Z.min 0 (Z.of_nat (length (x :: l)) - 1) - 0 + 1) with 1
    by (rewrite length_cons; lia).
  done.
Qed.

(** The first due entry of a sorted set, as [ZRANGEBYSCORE key -inf now
    LIMIT 0 1] reads it. *)
Lemma first_due_entry z now m s l :
  zrangebyscore_entries z None now 0 1 = (m, s) :: l →
  z !! m = Some s ∧ s ≤ now ∧ min_score z s.
Proof.
  unfold zrangebyscore_entries. rewrite drop_0. intros H.
  destruct (List.filter (in_score_range None now) (zset_entries z)) as [|e l'] eqn:E;
    [done|].
  simpl in H. injection H as -> _.
  assert (In (m, s) (List.filter (in_score_range None now) (zset_entries z))) as Hin
    by (rewrite E; by left).
  apply filter_In in Hin as [Hin Hdue]. simpl in Hdue.
  apply list_elem_of_In, elem_of_zset_entries in Hin.
  assert (s ≤ now) as Hs by lia.
  split; [done|]. split; [done|]. split; [eauto|].
  intros m' s' H'. destruct (decide (s' ≤ now)) as [Hle|Hgt]; [|lia].
  assert ((m', s') ∈ List.filter (in_score_range None now) (zset_entries z)) as Hin'.
  { apply list_elem_of_In, filter_In. split.
    - by apply list_elem_of_In, elem_of_zset_entries.
    - simpl. lia. }
  pose proof (filter_sorted (in_score_range None now) _
                (sort_entries_sorted (map_to_list z))) as Hsorted.
  fold (zset_entries z) in Hsorted. rewrite E in Hsorted, Hin'.
  by apply (sorted_head_least _ _ _ Hsorted Hin').
Qed.

Lemma no_due_entry z now :
  (∀ m s, z !! m = Some s → now < s) →
  zrangebyscore_entries z None now 0 1 = [].
Proof.
  intros H. unfold zrangebyscore_entries.
  destruct (List.filter (in_score_range None now) (zset_entries z)) as [|[m s] l] eqn:E;
    [done|].
  assert (In (m, s) (List.filter (in_score_range None now) (zset_entries z))) as Hin
    by (rewrite E; by left).
  apply filter_In in Hin as [Hin Hdue]. simpl in Hdue.
  apply list_elem_of_In, elem_of_zset_entries, H in Hin. lia.
Qed.

Lemma some_due_entry z now m s :
  z !! m = Some s → s ≤ now →
  ∃ e l, zrangebyscore_entries z None now 0 1 = e :: l.
Proof.
  intros Hm Hs. unfold zrangebyscore_entries.
  destruct (List.filter (in_score_range None now) (zset_entries z)) as [|e l] eqn:E.
  - assert (In (m, s) (List.filter (in_score_range None now) (zset_entries z))) as Hin.
    { apply filter_In. split.
      - by apply list_elem_of_In, elem_of_zset_entries.
      - simpl. lia. }
    rewrite E in Hin. destruct Hin.
  - simpl. eauto.
Qed.

(** ** The keyspace *)

Section Keyspace.
Import Redis.
Implicit Types (st : store) (k : string) (z : gmap string Z) (s : gset string).

Lemma lookup_put_zset_ne st k k' z : k ≠ k' → put_zset k z st !! k' = st !! k'.
Proof.
  intros. unfold put_zset. case_decide; by simplify_map_eq.
Qed.

Lemma lookup_put_set_ne st k k' s : k ≠ k' → put_set k s st !! k' = st !! k'.
Proof.
  intros. unfold put_set. case_decide; by simplify_map_eq.
Qed.

Lemma zset_at_put_zset st k z : zset_at (put_zset k z st) k = Some z.
Proof.
  unfold zset_at, put_zset. case_decide; simplify_map_eq; done.
Qed.

Lemma zset_at_put_zset_ne st k k' z :
  k ≠ k' → zset_at (put_zset k z st) k' = zset_at st k'.
Proof. intros. unfold zset_at. by rewrite lookup_put_zset_ne. Qed.

Lemma set_at_put_zset_ne st k k' z :
  k ≠ k' → set_at (put_zset k z st) k' = set_at st k'.
Proof. intros. unfold set_at. by rewrite lookup_put_zset_ne. Qed.

Lemma set_at_put_set st k s : set_at (put_set k s st) k = Some s.
Proof.
  unfold set_at, put_set. case_decide; simplify_map_eq; done.
Qed.

Lemma set_at_put_set_ne st k k' s :
  k ≠ k' → set_at (put_set k s st) k' = set_at st k'.
Proof. intros. unfold set_at. by rewrite lookup_put_set_ne. Qed.

Lemma zset_at_put_set_ne st k k' s :
  k ≠ k' → zset_at (put_set k s st) k' = zset_at st k'.
Proof. intros. unfold zset_at. by rewrite lookup_put_set_ne. Qed.

(** A string value survives every write to a sorted set or a set: the write
    goes to another key, or it is refused with [WRONGTYPE]. *)
Lemma put_zset_string st k z k' v :
  zset_at st k = Some z → st !! k' = Some (RString v) →
  ∀ z', put_zset k z' st !! k' = Some (RString v).
Proof.
  intros Hz Hv z'. destruct (decide (k = k')) as [->|Hne].
  - unfold zset_at in Hz. rewrite Hv in Hz. discriminate.
  - by rewrite lookup_put_zset_ne.
Qed.

Lemma put_set_string st k s k' v :
  set_at st k = Some s → st !! k' = Some (RString v) →
  ∀ s', put_set k s' st !! k' = Some (RString v).
Proof.
  intros Hs Hv s'. destruct (decide (k = k')) as [->|Hne].
  - unfold set_at in Hs. rewrite Hv in Hs. discriminate.
  - by rewrite lookup_put_set_ne.
Qed.

Lemma ZSCORE_done st k z m : zset_at st k = Some z → ZSCORE k m st = Done (z !! m) st.
Proof. intros H. unfold ZSCORE. by rewrite H. Qed.

Lemma ZADD_done st k z sc m :
  zset_at st k = Some z → ZADD k sc m st = Done tt (put_zset k (<[m := sc]> z) st).
Proof. intros H. unfold ZADD. by rewrite H. Qed.

Lemma ZREM_done st k z m :
  zset_at st k = Some z → ZREM k m st = Done tt (put_zset k (delete m z) st).
Proof. intros H. unfold ZREM. by rewrite H. Qed.

Lemma SCARD_done st k s : set_at st k = Some s → SCARD k st = Done (Z.of_nat (size s)) st.
Proof. intros H. unfold SCARD. by rewrite H. Qed.

Lemma SADD_done st k s m :
  set_at st k = Some s → SADD k m st = Done tt (put_set k ({[m]} ∪ s) st).
Proof. intros H. unfold SADD. by rewrite H. Qed.

Lemma SREM_done st k s m :
  set_at st k = Some s → SREM k m st = Done tt (put_set k (s ∖ {[m]}) st).
Proof. intros H. unfold SREM. by rewrite H. Qed.

End Keyspace.

Lemma scoreOrZero_done st k z m :
  Redis.zset_at st k = Some z → Lua.scoreOrZero k m st = Done (default 0 (z !! m)) st.
Proof.
  intros H. unfold Lua.scoreOrZero. by rewrite (bind_done _ _ _ _ _ (ZSCORE_done _ _ _ m H)).
Qed.

Lemma ceiling_reached_inv st cur lim dflt b :
  ceiling_reached st cur lim dflt = Some b →
  ∃ c l, Redis.SCARD cur st = Done c st
       ∧ Lua.limitOrDefault lim dflt st = Done (Some l) st
       ∧ lua_ge c (Some l) st = Done b st.
Proof.
  unfold ceiling_reached, cardinality, limit_value.
  destruct (Redis.set_at st cur) as [s|] eqn:Hs; [|done]. simpl.
  intros H. exists (Z.of_nat (size s)).
  unfold Lua.limitOrDefault, Redis.GET, mbind, cmd_bind, mret, cmd_ret.
  rewrite (SCARD_done _ _ _ Hs).
  destruct (st !! lim) as [[v| |]|]; simpl in *; try done.
  - destruct (tonumber v) as [l|]; simpl in *; [|done].
    injection H as <-. by exists l.
  - injection H as <-. by exists dflt.
Qed.

(** * The heartbeat script *)

Lemma heartbeat_script_absent st vis id ms maxd :
  deadline st vis id = None → is_Some (Redis.zset_at st vis) →
  Lua.heartbeatMessage vis id ms maxd st = Done tt st.
Proof.
  unfold deadline. intros Hd [z Hz]. rewrite Hz in Hd. simpl in Hd.
  unfold Lua.heartbeatMessage.
  rewrite (bind_done _ _ _ _ _ (scoreOrZero_done _ _ _ id Hz)), Hd. done.
Qed.

(** What the script does to a present id with a nonzero deadline: the
    second argument is multiplied by 1000 before it is added. *)
Lemma heartbeat_script_present st vis z id s ms maxd :
  Redis.zset_at st vis = Some z → z !! id = Some s → s ≠ 0 →
  Lua.heartbeatMessage vis id ms maxd st
  = Done tt (Redis.put_zset vis (<[id := Z.min (s + ms * 1000) maxd]> z) st).
Proof.
  intros Hz Hs Hne. unfold Lua.heartbeatMessage.
  rewrite (bind_done _ _ _ _ _ (scoreOrZero_done _ _ _ id Hz)), Hs. simpl.
  destruct (s =? 0) eqn:E; [lia|]. by apply ZADD_done.
Qed.

(** The broker passes the seconds times 1000 and the current time plus the
    configured visibility timeout. *)
Lemma heartbeatMessage_arguments options now id seconds :
  MarQS.heartbeatMessage options now id seconds
  = Lua.heartbeatMessage constants.MESSAGE_VISIBILITY_TIMEOUT_QUEUE id
      (default 30 seconds * 1000) (now + MarQS.visibilityTimeoutInMs options).
Proof. reflexivity. Qed.

(** C1, at the failing input.  A message leased until 301000 gets a
    heartbeat of one second at time 100000 under a visibility timeout of
    300000: the broker passes 1000 ms and the clamp 400000, and the script
    adds 1000 * 1000, so the deadline becomes the clamp 400000 and not
    min(301000 + 1000, 400000) = 302000. *)
Example heartbeat_extension_multiplied_twice :
  let options := Example.exampleOptions 300000 in
  let st : store :=
    {[ constants.MESSAGE_VISIBILITY_TIMEOUT_QUEUE := RZSet {[ "a" := 301000 ]} ]} in
  let st' := store_of (MarQS.heartbeatMessage options 100000 "a" (Some 1) st) in
  let extensionMs := 1 * 1000 in
  let maxDeadlineMs := 100000 + MarQS.visibilityTimeoutInMs options in
  deadline st constants.MESSAGE_VISIBILITY_TIMEOUT_QUEUE "a" = Some 301000
  ∧ deadline st' constants.MESSAGE_VISIBILITY_TIMEOUT_QUEUE "a" = Some 400000
  ∧ deadline st' constants.MESSAGE_VISIBILITY_TIMEOUT_QUEUE "a"
    ≠ Some (Z.min (301000 + extensionMs) maxDeadlineMs).
Proof.
  intros options st st' extensionMs maxDeadlineMs. split; [|split].
  - vm_compute. reflexivity.
  - vm_compute. reflexivity.
  - vm_compute. discriminate.
Qed.

(** * Leases under repeated heartbeats *)

Lemma heartbeat_step options st id d T now id' seconds :
  deadline st constants.MESSAGE_VISIBILITY_TIMEOUT_QUEUE id = Some d →
  now ≤ T →
  ∃ st' d', MarQS.heartbeatMessage options now id' seconds st = Done tt st'
    ∧ deadline st' constants.MESSAGE_VISIBILITY_TIMEOUT_QUEUE id = Some d'
    ∧ d' ≤ Z.max d (T + MarQS.visibilityTimeoutInMs options).
Proof.
  intros Hd Hnow. unfold deadline in *.
  destruct (Redis.zset_at st constants.MESSAGE_VISIBILITY_TIMEOUT_QUEUE) as [z|] eqn:Hz;
    [|done].
  simpl in Hd.
  unfold MarQS.heartbeatMessage, MarQS.callHeartbeatMessage.
  destruct (z !! id') as [s|] eqn:Hs.
  - destruct (decide (s = 0)) as [->|Hne].
    + exists st, d. unfold Lua.heartbeatMessage.
      rewrite (bind_done _ _ _ _ _ (scoreOrZero_done _ _ _ id' Hz)), Hs. simpl.
      rewrite Hz. simpl. split; [done|]. split; [done|lia].
    + rewrite (heartbeat_script_present _ _ _ _ _ _ _ Hz Hs Hne).
      destruct (decide (id' = id)) as [->|Hid].
      * eexists _, _. split; [done|]. rewrite zset_at_put_zset. simpl.
        rewrite lookup_insert_eq. split; [done|]. lia.
      * eexists _, _. split; [done|]. rewrite zset_at_put_zset. simpl.
        rewrite lookup_insert_ne by done. split; [done|]. lia.
  - exists st, d. unfold Lua.heartbeatMessage.
    rewrite (bind_done _ _ _ _ _ (scoreOrZero_done _ _ _ id' Hz)), Hs. simpl.
    rewrite Hz. simpl. split; [done|]. split; [done|lia].
Qed.

(** C2, counterexample.  The message "a" is dequeued at time 0 under a
    visibility timeout of 100 and is leased until 100; after heartbeats at
    times 50 and 120 its deadline is 220, later than the original lease plus
    the visibility timeout. *)
Lemma lease_extended_past_original_bound :
  let options := Example.exampleOptions 100 in
  let child := "queue:acme:dev:Q" in
  let st0 : store := {[ child := RZSet {[ "a" := 0 ]};
                       "env:dev:sharedQueue" := RZSet {[ child := 0 ]} ]} in
  let st1 := store_of (MarQS.callDequeueMessage options 0 child "env:dev:sharedQueue"
                         constants.MESSAGE_VISIBILITY_TIMEOUT_QUEUE
                         "cl:dev:Q" "el:dev" "ol:acme" "cc:dev:Q" "ecc:dev" "occ:acme"
                         st0) in
  let st3 := store_of (heartbeats options [(50, "a", Some 1); (120, "a", Some 1)] st1) in
  ∃ lease d,
    deadline st1 constants.MESSAGE_VISIBILITY_TIMEOUT_QUEUE "a" = Some lease
    ∧ deadline st3 constants.MESSAGE_VISIBILITY_TIMEOUT_QUEUE "a" = Some d
    ∧ ¬ (d ≤ lease + MarQS.visibilityTimeoutInMs options).
Proof.
  intros options child st0 st1 st3. exists 100, 220. split; [|split].
  - vm_compute. reflexivity.
  - vm_compute. reflexivity.
  - change (MarQS.visibilityTimeoutInMs options) with 100. lia.
Qed.

(** C2, amended.  Whatever heartbeats the broker sends, a message leased
    until [d] never gets a deadline later than the larger of [d] and the
    latest heartbeat clock plus the configured visibility timeout. *)
Theorem heartbeats_deadline_bound options st id d T hs :
  deadline st constants.MESSAGE_VISIBILITY_TIMEOUT_QUEUE id = Some d →
  Forall (λ h : Z * string * option Z, h.1.1 ≤ T) hs →
  ∃ st' d', heartbeats options hs st = Done tt st'
    ∧ deadline st' constants.MESSAGE_VISIBILITY_TIMEOUT_QUEUE id = Some d'
    ∧ d' ≤ Z.max d (T + MarQS.visibilityTimeoutInMs options).
Proof.
  intros Hd Hhs. revert st d Hd.
  induction Hhs as [|[[now id'] seconds] hs Hnow _ IH]; intros st d Hd.
  - exists st, d. split; [done|]. split; [done|lia].
  - simpl in Hnow.
    destruct (heartbeat_step options st id d T now id' seconds Hd Hnow)
      as (st1 & d1 & Hrun & Hd1 & Hle).
    destruct (IH st1 d1 Hd1) as (st' & d' & Hrun' & Hd' & Hle').
    exists st', d'. split; [|split; [done|lia]].
    unfold heartbeats in *. simpl. by rewrite (bind_done _ _ _ _ _ Hrun).
Qed.

Lemma heartbeats_deadline_bound_witness :
  let options := Example.exampleOptions 100 in
  let st : store := {[ Example.VIS := RZSet {[ "a" := 100 ]} ]} in
  ∃ st' d', heartbeats options [(50, "a", Some 1); (120, "a", Some 1)] st = Done tt st'
    ∧ deadline st' constants.MESSAGE_VISIBILITY_TIMEOUT_QUEUE "a" = Some d'
    ∧ d' ≤ Z.max 100 (120 + MarQS.visibilityTimeoutInMs options).
Proof.
  intros options st.
  apply (heartbeats_deadline_bound options st "a" 100 120).
  - vm_compute. reflexivity.
  - repeat constructor; simpl; lia.
Defined.

(** * Score 0 in the visibility queue *)

(** C9.  An id that sits in the visibility queue with score 0 is taken for
    a missing one by the guard [tonumber(ZSCORE) or 0] of both scripts: nack
    and heartbeat return at once and leave the store as it is. *)
Theorem zero_deadline_taken_for_absent st vis id :
  deadline st vis id = Some 0 →
  (∀ messageKey childQueueKey parentQueueKey concurrencyKey envConcurrencyKey
     orgConcurrencyKey childQueueName currentTime messageScore,
     Lua.nackMessage messageKey childQueueKey parentQueueKey concurrencyKey
       envConcurrencyKey orgConcurrencyKey vis childQueueName id currentTime
       messageScore st = Done tt st)
  ∧ (∀ milliseconds maxVisibilityTimeout,
       Lua.heartbeatMessage vis id milliseconds maxVisibilityTimeout st = Done tt st).
Proof.
  unfold deadline. intros Hd.
  destruct (Redis.zset_at st vis) as [z|] eqn:Hz; [|done]. simpl in Hd.
  split; intros.
  - unfold Lua.nackMessage.
    rewrite (bind_done _ _ _ _ _ (scoreOrZero_done _ _ _ id Hz)), Hd. done.
  - unfold Lua.heartbeatMessage.
    rewrite (bind_done _ _ _ _ _ (scoreOrZero_done _ _ _ id Hz)), Hd. done.
Qed.

Lemma zero_deadline_taken_for_absent_witness :
  let st : store :=
    {[ Example.VIS := RZSet {[ "a" := 0 ]}; "cc:dev:Q" := RSet {[ "a" ]} ]} in
  Lua.nackMessage "message:a" "queue:acme:dev:Q" "env:dev:sharedQueue" "cc:dev:Q"
    "ecc:dev" "occ:acme" Example.VIS "queue:acme:dev:Q" "a" 1000 1000 st = Done tt st
  ∧ Lua.heartbeatMessage Example.VIS "a" 30000 301000 st = Done tt st.
Proof.
  intros st.
  destruct (zero_deadline_taken_for_absent st Example.VIS "a") as [Hnack Hbeat].
  - vm_compute. reflexivity.
  - split; [apply Hnack | apply Hbeat].
Defined.

(** * Concurrency ceilings of the dequeue script *)

(** C5.  The script tests the organisation, the environment and the queue,
    in this order, each as cardinality of the current set ≥ value of the
    limit key (or the default when the key is missing).  At the first
    ceiling that is reached it returns nil and the store is as before; the
    keys of the later ceilings are not even read. *)
Theorem dequeue_blocked_by_ceiling st
    childQueue parentQueue visibilityQueue
    concurrencyLimitKey envConcurrencyLimitKey orgConcurrencyLimitKey
    currentConcurrencyKey envCurrentConcurrencyKey orgCurrentConcurrencyKey
    childQueueName visibilityTimeout currentTime
    defaultConcurrencyLimit defaultEnvConcurrencyLimit defaultOrgConcurrencyLimit :
  let org := ceiling_reached st orgCurrentConcurrencyKey orgConcurrencyLimitKey
               defaultOrgConcurrencyLimit in
  let env := ceiling_reached st envCurrentConcurrencyKey envConcurrencyLimitKey
               defaultEnvConcurrencyLimit in
  let que := ceiling_reached st currentConcurrencyKey concurrencyLimitKey
               defaultConcurrencyLimit in
  org = Some true
  ∨ (org = Some false ∧ env = Some true)
  ∨ (org = Some false ∧ env = Some false ∧ que = Some true) →
  Lua.dequeueMessage childQueue parentQueue visibilityQueue
    concurrencyLimitKey envConcurrencyLimitKey orgConcurrencyLimitKey
    currentConcurrencyKey envCurrentConcurrencyKey orgCurrentConcurrencyKey
    childQueueName visibilityTimeout currentTime
    defaultConcurrencyLimit defaultEnvConcurrencyLimit defaultOrgConcurrencyLimit st
  = Done None st.
Proof.
  intros org env que H. unfold Lua.dequeueMessage.
  assert (∀ cur lim dflt b (k : bool → cmd (option (string * Z))),
            ceiling_reached st cur lim dflt = Some b →
            (c ← Redis.SCARD cur; l ← Lua.limitOrDefault lim dflt;
             full ← lua_ge c l; k full) st = k b st) as Hstep.
  { intros cur lim dflt b k Hb.
    destruct (ceiling_reached_inv _ _ _ _ _ Hb) as (c & l & Hc & Hl & Hge).
    by rewrite (bind_done _ _ _ _ _ Hc), (bind_done _ _ _ _ _ Hl),
      (bind_done _ _ _ _ _ Hge). }
  destruct H as [Ho|[[Ho He]|(Ho & He & Hq)]].
  - by rewrite (Hstep _ _ _ _ _ Ho).
  - by rewrite (Hstep _ _ _ _ _ Ho), (Hstep _ _ _ _ _ He).
  - by rewrite (Hstep _ _ _ _ _ Ho), (Hstep _ _ _ _ _ He), (Hstep _ _ _ _ _ Hq).
Qed.

Lemma dequeue_blocked_by_ceiling_witness :
  let child := "queue:acme:dev:Q" in
  let st : store := {[ child := RZSet {[ "b" := 200 ]};
                      "env:dev:sharedQueue" := RZSet {[ child := 200 ]};
                      "cl:dev:Q" := RString (SNumber 1);
                      "cc:dev:Q" := RSet {[ "a" ]};
                      "ecc:dev" := RSet {[ "a" ]};
                      "occ:acme" := RSet {[ "a" ]} ]} in
  Lua.dequeueMessage child "env:dev:sharedQueue" Example.VIS
    "cl:dev:Q" "el:dev" "ol:acme" "cc:dev:Q" "ecc:dev" "occ:acme"
    child 500 300 10 10 10 st = Done None st.
Proof.
  intros child st. apply dequeue_blocked_by_ceiling.
  right. right. split_and!; reflexivity.
Defined.

(** ** Runs of the writing commands *)

Section Runs.
Implicit Types (st : store) (k : string) (z : gmap string Z) (s : gset string).

Lemma zset_at_frame st st' k : st' !! k = st !! k → zset_at st' k = zset_at st k.
Proof. unfold zset_at. by intros ->. Qed.

Lemma set_at_frame st st' k : st' !! k = st !! k → set_at st' k = set_at st k.
Proof. unfold set_at. by intros ->. Qed.

Lemma ZADD_run st k z sc m :
  zset_at st k = Some z →
  ∃ st', ZADD k sc m st = Done tt st'
    ∧ zset_at st' k = Some (<[m := sc]> z)
    ∧ ∀ k', k' ≠ k → st' !! k' = st !! k'.
Proof.
  intros H. eexists. split; [by apply ZADD_done|].
  split; [apply zset_at_put_zset|]. intros. by apply lookup_put_zset_ne.
Qed.

Lemma ZREM_run st k z m :
  zset_at st k = Some z →
  ∃ st', ZREM k m st = Done tt st'
    ∧ zset_at st' k = Some (delete m z)
    ∧ ∀ k', k' ≠ k → st' !! k' = st !! k'.
Proof.
  intros H. eexists. split; [by apply ZREM_done|].
  split; [apply zset_at_put_zset|]. intros. by apply lookup_put_zset_ne.
Qed.

Lemma SADD_run st k s m :
  set_at st k = Some s →
  ∃ st', SADD k m st = Done tt st'
    ∧ set_at st' k = Some ({[m]} ∪ s)
    ∧ ∀ k', k' ≠ k → st' !! k' = st !! k'.
Proof.
  intros H. eexists. split; [by apply SADD_done|].
  split; [apply set_at_put_set|]. intros. by apply lookup_put_set_ne.
Qed.

Lemma SREM_run st k s m :
  set_at st k = Some s →
  ∃ st', SREM k m st = Done tt st'
    ∧ set_at st' k = Some (s ∖ {[m]})
    ∧ ∀ k', k' ≠ k → st' !! k' = st !! k'.
Proof.
  intros H. eexists. split; [by apply SREM_done|].
  split; [apply set_at_put_set|]. intros. by apply lookup_put_set_ne.
Qed.

Lemma ZADD_inv st k sc m st' :
  ZADD k sc m st = Done tt st' →
  ∃ z, zset_at st k = Some z ∧ zset_at st' k = Some (<[m := sc]> z)
     ∧ ∀ k', k' ≠ k → st' !! k' = st !! k'.
Proof.
  unfold ZADD. destruct (zset_at st k) as [z|] eqn:Hz; [|done].
  intros [= <-]. exists z. split; [done|].
  split; [apply zset_at_put_zset|]. intros. by apply lookup_put_zset_ne.
Qed.

Lemma ZREM_inv st k m st' :
  ZREM k m st = Done tt st' →
  ∃ z, zset_at st k = Some z ∧ zset_at st' k = Some (delete m z)
     ∧ ∀ k', k' ≠ k → st' !! k' = st !! k'.
Proof.
  unfold ZREM. destruct (zset_at st k) as [z|] eqn:Hz; [|done].
  intros [= <-]. exists z. split; [done|].
  split; [apply zset_at_put_zset|]. intros. by apply lookup_put_zset_ne.
Qed.

End Runs.

(** ** The rebalance of the parent queue *)

Lemma min_score_insert zc name s :
  min_score zc s → min_score (<[name := s]> zc) s.
Proof.
  intros [[m Hm] Hmin]. split.
  - exists name. by rewrite lookup_insert_eq.
  - intros m' s'. destruct (decide (name = m')) as [->|Hne].
    + rewrite lookup_insert_eq. intros [= <-]. lia.
    + rewrite lookup_insert_ne by done. apply Hmin.
Qed.

Lemma rebalance_balanced st child parent name st' :
  Lua.rebalanceParentQueue child parent name st = Done tt st' →
  parent_balanced st' child parent name.
Proof.
  unfold Lua.rebalanceParentQueue. intros H.
  apply bind_inv in H as (entries & st1 & Hrange & H).
  unfold ZRANGE in Hrange. destruct (zset_at st child) as [zc|] eqn:Hc; [|done].
  injection Hrange as <- <-. rewrite zrange_slice_first in H.
  destruct (zset_entries zc) as [|[m s] l] eqn:He; simpl in H.
  - apply zset_entries_nil in He as ->.
    apply ZREM_inv in H as (zp & Hp & Hp' & Hframe).
    destruct (decide (child = parent)) as [->|Hne].
    + assert (zp = ∅) as -> by congruence.
      exists (delete name ∅), (delete name ∅). rewrite delete_empty in *.
      split_and!; [done|done|done|]. intros s. by rewrite lookup_empty.
    + exists ∅, (delete name zp). rewrite (zset_at_frame st st') by by apply Hframe.
      rewrite lookup_delete_eq. split_and!; done.
  - apply zset_entries_head in He as [Hm Hmin].
    apply ZADD_inv in H as (zp & Hp & Hp' & Hframe).
    destruct (decide (child = parent)) as [->|Hne].
    + assert (zp = zc) as -> by congruence.
      exists (<[name := s]> zc), (<[name := s]> zc). rewrite lookup_insert_eq.
      split_and!; [done|done| |].
      * split; [done|]. intros E. apply (f_equal (.!! name)) in E.
        by rewrite lookup_insert_eq, lookup_empty in E.
      * intros s0 [= <-]. by apply min_score_insert.
    + exists zc, (<[name := s]> zp). rewrite (zset_at_frame st st') by by apply Hframe.
      rewrite lookup_insert_eq. split_and!; [done|done| |].
      * split; [done|]. intros ->. by rewrite lookup_empty in Hm.
      * by intros s0 [= <-].
Qed.

(** * The dequeue script *)

Lemma keys_apart_inv c p v q e o :
  keys_apart c p v q e o →
  (c ≠ p ∧ c ≠ v ∧ p ≠ v)
  ∧ (q ≠ c ∧ q ≠ p ∧ q ≠ v) ∧ (e ≠ c ∧ e ≠ p ∧ e ≠ v) ∧ (o ≠ c ∧ o ≠ p ∧ o ≠ v).
Proof.
  intros [Hnd Hsets].
  rewrite !NoDup_cons in Hnd. rewrite !Forall_cons in Hsets.
  repeat setoid_rewrite elem_of_cons in Hnd. repeat setoid_rewrite elem_of_cons in Hsets.
  split_and!; intros ->; tauto.
Qed.

Lemma ceiling_check_run {R} st cur lim dflt b (k : bool → cmd R) :
  ceiling_reached st cur lim dflt = Some b →
  (c ← SCARD cur; l ← Lua.limitOrDefault lim dflt; full ← lua_ge c l; k full) st = k b st.
Proof.
  intros Hb.
  destruct (ceiling_reached_inv _ _ _ _ _ Hb) as (c & l & Hc & Hl & Hge).
  by rewrite (bind_done _ _ _ _ _ Hc), (bind_done _ _ _ _ _ Hl), (bind_done _ _ _ _ _ Hge).
Qed.

Lemma ceiling_check_inv {R} st cur lim dflt (k : bool → cmd R) r st' :
  (c ← SCARD cur; l ← Lua.limitOrDefault lim dflt; full ← lua_ge c l; k full) st
  = Done r st' →
  ∃ b, ceiling_reached st cur lim dflt = Some b ∧ k b st = Done r st'.
Proof.
  unfold ceiling_reached, cardinality, limit_value.
  unfold SCARD, Lua.limitOrDefault, GET, lua_ge, raise, mbind, cmd_bind, mret, cmd_ret.
  destruct (set_at st cur) as [s|]; simpl; [|done].
  destruct (st !! lim) as [[v| |]|]; simpl; try done.
  - destruct (tonumber v) as [l|]; simpl; [|done]. eauto.
  - eauto.
Qed.

Lemma SADD_step st k m s :
  maybe_added st k m s →
  ∃ st', SADD k m st = Done tt st'
    ∧ set_at st' k = Some ({[m]} ∪ s)
    ∧ (∀ k', k' ≠ k → st' !! k' = st !! k')
    ∧ (∀ k' s', maybe_added st k' m s' → maybe_added st' k' m s')
    ∧ (∀ k' s', set_at st k' = Some ({[m]} ∪ s') → set_at st' k' = Some ({[m]} ∪ s')).
Proof.
  intros Hs.
  assert (∃ s0, set_at st k = Some s0 ∧ {[m]} ∪ s0 = {[m]} ∪ s) as (s0 & Hs0 & Heq).
  { destruct Hs as [Hs|Hs]; eexists; (split; [exact Hs|]); [done|].
    by rewrite (assoc_L (∪)), union_idemp_L. }
  destruct (SADD_run st k s0 m Hs0) as (st' & Hrun & Hk & Hframe).
  rewrite Heq in Hk. exists st'. split_and!; [done..| |].
  - intros k' s' Hs'. destruct (decide (k' = k)) as [->|Hne].
    + right. rewrite Hk. f_equal. rewrite <- Heq.
      destruct Hs' as [Hs'|Hs']; rewrite Hs0 in Hs'; injection Hs' as ->; [done|].
      by rewrite (assoc_L (∪)), union_idemp_L.
    + unfold maybe_added. by rewrite (set_at_frame st st') by by apply Hframe.
  - intros k' s' Hs'. destruct (decide (k' = k)) as [->|Hne].
    + rewrite Hk. f_equal. rewrite <- Heq. rewrite Hs0 in Hs'. injection Hs' as ->.
      by rewrite (assoc_L (∪)), union_idemp_L.
    + by rewrite (set_at_frame st st') by by apply Hframe.
Qed.

Lemma rebalance_run st child parent name zc zp :
  zset_at st child = Some zc → zset_at st parent = Some zp →
  ∃ st', Lua.rebalanceParentQueue child parent name st = Done tt st'
    ∧ ∀ k', k' ≠ parent → st' !! k' = st !! k'.
Proof.
  intros Hc Hp. unfold Lua.rebalanceParentQueue, ZRANGE, mbind, cmd_bind. rewrite Hc.
  destruct (zrange_slice (zset_entries zc) 0 0) as [|[m s] l].
  - destruct (ZREM_run st parent zp name Hp) as (st' & -> & _ & Hframe). eauto.
  - destruct (ZADD_run st parent zp s name Hp) as (st' & -> & _ & Hframe). eauto.
Qed.

Section DequeueScript.
Variables (childQueue parentQueue visibilityQueue : string).
Variables (concurrencyLimitKey envConcurrencyLimitKey orgConcurrencyLimitKey : string).
Variables (currentConcurrencyKey envCurrentConcurrencyKey orgCurrentConcurrencyKey : string).
Variables (childQueueName : string) (visibilityTimeout currentTime : Z).
Variables (defaultConcurrencyLimit defaultEnvConcurrencyLimit defaultOrgConcurrencyLimit : Z).

Local Abbreviation dequeue :=
  (Lua.dequeueMessage childQueue parentQueue visibilityQueue
     concurrencyLimitKey envConcurrencyLimitKey orgConcurrencyLimitKey
     currentConcurrencyKey envCurrentConcurrencyKey orgCurrentConcurrencyKey
     childQueueName visibilityTimeout currentTime
     defaultConcurrencyLimit defaultEnvConcurrencyLimit defaultOrgConcurrencyLimit).

(** The part of the script after the range query, for the id it found. *)
Local Abbreviation move messageId :=
  (ZREM childQueue messageId;;
   ZADD visibilityQueue (currentTime + visibilityTimeout) messageId;;
   SADD currentConcurrencyKey messageId;;
   SADD envCurrentConcurrencyKey messageId;;
   SADD orgCurrentConcurrencyKey messageId;;
   Lua.rebalanceParentQueue childQueue parentQueue childQueueName).

Lemma dequeue_inv st r st' :
  dequeue st = Done r st' →
  (r = None ∧ st' = st)
  ∨ ∃ zc id sc l,
      zset_at st childQueue = Some zc
      ∧ zrangebyscore_entries zc None currentTime 0 1 = (id, sc) :: l
      ∧ r = Some (id, sc)
      ∧ move id st = Done tt st'.
Proof.
  unfold Lua.dequeueMessage. intros H.
  apply ceiling_check_inv in H as ([] & _ & H); [injection H as <- <-; by left|].
  apply ceiling_check_inv in H as ([] & _ & H); [injection H as <- <-; by left|].
  apply ceiling_check_inv in H as ([] & _ & H); [injection H as <- <-; by left|].
  apply bind_inv in H as (messages & st1 & Hrange & H).
  unfold ZRANGEBYSCORE in Hrange.
  destruct (zset_at st childQueue) as [zc|] eqn:Hc; [|done].
  injection Hrange as <- <-.
  destruct (zrangebyscore_entries zc None currentTime 0 1) as [|[id sc] l] eqn:E.
  - injection H as <- <-. by left.
  - right. exists zc, id, sc, l.
    apply bind_inv in H as ([] & s1 & H1 & H).
    apply bind_inv in H as ([] & s2 & H2 & H).
    apply bind_inv in H as ([] & s3 & H3 & H).
    apply bind_inv in H as ([] & s4 & H4 & H).
    apply bind_inv in H as ([] & s5 & H5 & H).
    apply bind_inv in H as ([] & s6 & H6 & H).
    injection H as <- <-. split_and!; [done..|].
    rewrite (bind_done _ _ _ _ _ H1), (bind_done _ _ _ _ _ H2), (bind_done _ _ _ _ _ H3),
      (bind_done _ _ _ _ _ H4), (bind_done _ _ _ _ _ H5). done.
Qed.

Lemma dequeue_run st zc :
  ceiling_reached st orgCurrentConcurrencyKey orgConcurrencyLimitKey
    defaultOrgConcurrencyLimit = Some false →
  ceiling_reached st envCurrentConcurrencyKey envConcurrencyLimitKey
    defaultEnvConcurrencyLimit = Some false →
  ceiling_reached st currentConcurrencyKey concurrencyLimitKey
    defaultConcurrencyLimit = Some false →
  zset_at st childQueue = Some zc →
  dequeue st
  = match zrangebyscore_entries zc None currentTime 0 1 with
    | [] => Done None st
    | (id, sc) :: _ => (move id;; mret (Some (id, sc))) st
    end.
Proof.
  intros Ho He Hq Hc. unfold Lua.dequeueMessage.
  rewrite (ceiling_check_run _ _ _ _ _ _ Ho), (ceiling_check_run _ _ _ _ _ _ He),
    (ceiling_check_run _ _ _ _ _ _ Hq).
  unfold ZRANGEBYSCORE, mbind at 1, cmd_bind at 1. rewrite Hc.
  destruct (zrangebyscore_entries zc None currentTime 0 1) as [|[id sc] l]; [done|].
  unfold mbind, cmd_bind.
  repeat match goal with
         | |- context [match ?c with Done _ _ => _ | Raised _ => _ end] => destruct c
         end; done.
Qed.

Lemma move_run st zc zp zv sq se so id :
  keys_apart childQueue parentQueue visibilityQueue
    currentConcurrencyKey envCurrentConcurrencyKey orgCurrentConcurrencyKey →
  zset_at st childQueue = Some zc → zset_at st parentQueue = Some zp →
  zset_at st visibilityQueue = Some zv →
  set_at st currentConcurrencyKey = Some sq →
  set_at st envCurrentConcurrencyKey = Some se →
  set_at st orgCurrentConcurrencyKey = Some so →
  ∃ st', move id st = Done tt st'
    ∧ zset_at st' childQueue = Some (delete id zc)
    ∧ zset_at st' visibilityQueue = Some (<[id := currentTime + visibilityTimeout]> zv)
    ∧ set_at st' currentConcurrencyKey = Some ({[id]} ∪ sq)
    ∧ set_at st' envCurrentConcurrencyKey = Some ({[id]} ∪ se)
    ∧ set_at st' orgCurrentConcurrencyKey = Some ({[id]} ∪ so).
Proof.
  intros Hapart Hc Hp Hv Hq He Ho.
  apply keys_apart_inv in Hapart
    as ((Hcp & Hcv & Hpv) & (Hqc & Hqp & Hqv) & (Hec & Hep & Hev) & (Hoc & Hop & Hov)).
  destruct (ZREM_run st childQueue zc id Hc) as (s1 & R1 & Hc1 & F1).
  rewrite (bind_done _ _ _ _ _ R1).
  assert (zset_at s1 visibilityQueue = Some zv) as Hv1
    by (rewrite (zset_at_frame st s1); [done | by apply F1]).
  destruct (ZADD_run s1 visibilityQueue zv (currentTime + visibilityTimeout) id Hv1)
    as (s2 & R2 & Hv2 & F2).
  rewrite (bind_done _ _ _ _ _ R2).
  assert (∀ k, k ≠ childQueue → k ≠ visibilityQueue → s2 !! k = st !! k) as F12
    by (intros; rewrite F2, F1; done).
  assert (maybe_added s2 currentConcurrencyKey id sq) as Mq
    by (left; rewrite (set_at_frame st s2); [done | by apply F12]).
  assert (maybe_added s2 envCurrentConcurrencyKey id se) as Me
    by (left; rewrite (set_at_frame st s2); [done | by apply F12]).
  assert (maybe_added s2 orgCurrentConcurrencyKey id so) as Mo
    by (left; rewrite (set_at_frame st s2); [done | by apply F12]).
  destruct (SADD_step s2 _ id sq Mq) as (s3 & R3 & Hq3 & F3 & M3 & A3).
  rewrite (bind_done _ _ _ _ _ R3).
  destruct (SADD_step s3 _ id se (M3 _ _ Me)) as (s4 & R4 & He4 & F4 & M4 & A4).
  rewrite (bind_done _ _ _ _ _ R4).
  destruct (SADD_step s4 _ id so (M4 _ _ (M3 _ _ Mo))) as (s5 & R5 & Ho5 & F5 & M5 & A5).
  rewrite (bind_done _ _ _ _ _ R5).
  assert (∀ k, k ≠ currentConcurrencyKey → k ≠ envCurrentConcurrencyKey →
               k ≠ orgCurrentConcurrencyKey → s5 !! k = s2 !! k) as F35
    by (intros; rewrite F5, F4, F3; done).
  assert (zset_at s5 childQueue = Some (delete id zc)) as Hc5.
  { rewrite (zset_at_frame s2 s5) by (apply F35; done).
    rewrite (zset_at_frame s1 s2) by (apply F2; done). done. }
  assert (zset_at s5 parentQueue = Some zp) as Hp5.
  { rewrite (zset_at_frame s2 s5) by (apply F35; done).
    rewrite (zset_at_frame st s2) by (apply F12; done). done. }
  destruct (rebalance_run s5 childQueue parentQueue childQueueName _ _ Hc5 Hp5)
    as (s6 & R6 & F6).
  exists s6. split; [done|]. split_and!.
  - rewrite (zset_at_frame s5 s6) by (apply F6; done). done.
  - rewrite (zset_at_frame s5 s6) by (apply F6; done).
    rewrite (zset_at_frame s2 s5) by (apply F35; done). done.
  - rewrite (set_at_frame s5 s6) by (apply F6; done). by apply A5, A4.
  - rewrite (set_at_frame s5 s6) by (apply F6; done). by apply A5.
  - rewrite (set_at_frame s5 s6) by (apply F6; done). done.
Qed.

(** C4.  Whatever the store, a message the script returns was in the child
    queue with the returned score, that score is not later than the current
    time and is the least score of the child queue.  With the keys apart and
    no ceiling reached, the script returns nil and changes nothing when no
    member is due, and otherwise returns a due member: it is then gone from
    the child queue, is in the visibility queue at current time plus
    visibility timeout, and is in the three current-concurrency sets. *)
Theorem dequeue_takes_oldest_due_message st :
  (∀ id sc st', dequeue st = Done (Some (id, sc)) st' →
     sc ≤ currentTime
     ∧ ∃ zc, zset_at st childQueue = Some zc ∧ zc !! id = Some sc ∧ min_score zc sc)
  ∧ (keys_apart childQueue parentQueue visibilityQueue
       currentConcurrencyKey envCurrentConcurrencyKey orgCurrentConcurrencyKey →
     ceiling_reached st orgCurrentConcurrencyKey orgConcurrencyLimitKey
       defaultOrgConcurrencyLimit = Some false →
     ceiling_reached st envCurrentConcurrencyKey envConcurrencyLimitKey
       defaultEnvConcurrencyLimit = Some false →
     ceiling_reached st currentConcurrencyKey concurrencyLimitKey
       defaultConcurrencyLimit = Some false →
     ∀ zc zp zv,
     zset_at st childQueue = Some zc → zset_at st parentQueue = Some zp →
     zset_at st visibilityQueue = Some zv →
     ((∀ m s, zc !! m = Some s → currentTime < s) → dequeue st = Done None st)
     ∧ ((∃ m s, zc !! m = Some s ∧ s ≤ currentTime) →
        ∃ id sc st', dequeue st = Done (Some (id, sc)) st'
          ∧ zc !! id = Some sc ∧ sc ≤ currentTime ∧ min_score zc sc
          ∧ zset_at st' childQueue = Some (delete id zc)
          ∧ zset_at st' visibilityQueue
            = Some (<[id := currentTime + visibilityTimeout]> zv)
          ∧ Forall (λ k, ∃ s, set_at st k = Some s ∧ set_at st' k = Some ({[id]} ∪ s))
              [currentConcurrencyKey; envCurrentConcurrencyKey;
               orgCurrentConcurrencyKey])).
Proof.
  split.
  - intros id sc st' H.
    apply dequeue_inv in H as [[? _]|(zc & id' & sc' & l & Hc & He & Hr & _)]; [done|].
    injection Hr as <- <-. apply first_due_entry in He as (Hm & Hle & Hmin).
    split; [done|]. by exists zc.
  - intros Hapart Ho He Hq zc zp zv Hc Hp Hv.
    rewrite (dequeue_run st zc Ho He Hq Hc). split.
    + intros Hnone. by rewrite (no_due_entry _ _ Hnone).
    + intros (m & s & Hm & Hs).
      destruct (some_due_entry _ _ _ _ Hm Hs) as ([id sc] & l & Hdue).
      rewrite Hdue. apply first_due_entry in Hdue as (Hid & Hle & Hmin).
      assert (∀ cur lim dflt b, ceiling_reached st cur lim dflt = Some b →
                is_Some (set_at st cur)) as Hset.
      { intros cur lim dflt b. unfold ceiling_reached, cardinality.
        destruct (set_at st cur); [eauto | done]. }
      destruct (Hset _ _ _ _ Hq) as [sq Hsq]. destruct (Hset _ _ _ _ He) as [se Hse].
      destruct (Hset _ _ _ _ Ho) as [so Hso].
      destruct (move_run st zc zp zv sq se so id Hapart Hc Hp Hv Hsq Hse Hso)
        as (st' & Hrun & Hc' & Hv' & Hq' & He' & Ho').
      exists id, sc, st'. split; [by rewrite (bind_done _ _ _ _ _ Hrun)|].
      split_and!; [done..|].
      repeat constructor; eauto.
Qed.

End DequeueScript.

Lemma dequeue_takes_oldest_due_message_witness :
  let child := "queue:acme:dev:Q" in
  let st : store := {[ child := RZSet {[ "a" := 100; "b" := 200 ]};
                      "env:dev:sharedQueue" := RZSet {[ child := 100 ]} ]} in
  ∃ id sc st',
    Lua.dequeueMessage child "env:dev:sharedQueue" Example.VIS
      "cl:dev:Q" "el:dev" "ol:acme" "cc:dev:Q" "ecc:dev" "occ:acme"
      child 500 300 10 10 10 st = Done (Some (id, sc)) st'
    ∧ ({[ "a" := 100; "b" := 200 ]} : gmap string Z) !! id = Some sc
    ∧ sc ≤ 300
    ∧ zset_at st' Example.VIS = Some (<[id := 300 + 500]> ∅).
Proof.
  intros child st.
  destruct (dequeue_takes_oldest_due_message child "env:dev:sharedQueue" Example.VIS
              "cl:dev:Q" "el:dev" "ol:acme" "cc:dev:Q" "ecc:dev" "occ:acme"
              child 500 300 10 10 10 st) as [_ H].
  destruct (H ltac:(compute_done)
              ltac:(reflexivity) ltac:(reflexivity) ltac:(reflexivity)
              {[ "a" := 100; "b" := 200 ]} {[ child := 100 ]} ∅
              ltac:(reflexivity) ltac:(reflexivity) ltac:(reflexivity)) as [_ Hsome].
  destruct Hsome as (id & sc & st' & Hrun & Hid & Hle & _ & _ & Hv & _).
  - exists "a", 100. split; [reflexivity | lia].
  - exists id, sc, st'. auto.
Defined.

(** * The nack script *)

Lemma SREM_step st k m s :
  maybe_removed st k m s →
  ∃ st', SREM k m st = Done tt st'
    ∧ set_at st' k = Some (s ∖ {[m]})
    ∧ (∀ k', k' ≠ k → st' !! k' = st !! k')
    ∧ (∀ k' s', maybe_removed st k' m s' → maybe_removed st' k' m s')
    ∧ (∀ k' s', set_at st k' = Some (s' ∖ {[m]}) → set_at st' k' = Some (s' ∖ {[m]})).
Proof.
  intros Hs.
  assert (∃ s0, set_at st k = Some s0 ∧ s0 ∖ {[m]} = s ∖ {[m]}) as (s0 & Hs0 & Heq).
  { destruct Hs as [Hs|Hs]; eexists; (split; [exact Hs|]); [done|].
    by rewrite difference_twice_L. }
  destruct (SREM_run st k s0 m Hs0) as (st' & Hrun & Hk & Hframe).
  rewrite Heq in Hk. exists st'. split_and!; [done..| |].
  - intros k' s' Hs'. destruct (decide (k' = k)) as [->|Hne].
    + right. rewrite Hk. f_equal. rewrite <- Heq.
      destruct Hs' as [Hs'|Hs']; rewrite Hs0 in Hs'; injection Hs' as ->; [done|].
      by rewrite difference_twice_L.
    + unfold maybe_removed. by rewrite (set_at_frame st st') by by apply Hframe.
  - intros k' s' Hs'. destruct (decide (k' = k)) as [->|Hne].
    + rewrite Hk. f_equal. rewrite <- Heq. rewrite Hs0 in Hs'. injection Hs' as ->.
      by rewrite difference_twice_L.
    + by rewrite (set_at_frame st st') by by apply Hframe.
Qed.

Section NackScript.
Variables (messageKey childQueueKey parentQueueKey : string).
Variables (concurrencyKey envConcurrencyKey orgConcurrencyKey visibilityQueue : string).
Variables (childQueueName messageId : string) (currentTime messageScore : Z).

Local Abbreviation nack :=
  (Lua.nackMessage messageKey childQueueKey parentQueueKey concurrencyKey
     envConcurrencyKey orgConcurrencyKey visibilityQueue childQueueName messageId
     currentTime messageScore).

(** The part of the script after the guard. *)
Local Abbreviation requeue :=
  (SREM concurrencyKey messageId;;
   SREM envConcurrencyKey messageId;;
   SREM orgConcurrencyKey messageId;;
   ZREM visibilityQueue messageId;;
   ZADD childQueueKey messageScore messageId;;
   Lua.rebalanceParentQueue childQueueKey parentQueueKey childQueueName).

Lemma nack_guard st zv :
  zset_at st visibilityQueue = Some zv →
  nack st = if default 0 (zv !! messageId) =? 0 then Done tt st else requeue st.
Proof.
  intros Hv. unfold Lua.nackMessage.
  rewrite (bind_done _ _ _ _ _ (scoreOrZero_done _ _ _ messageId Hv)).
  by destruct (default 0 (zv !! messageId) =? 0).
Qed.

Lemma requeue_run st zc zp zv sq se so :
  keys_apart childQueueKey parentQueueKey visibilityQueue
    concurrencyKey envConcurrencyKey orgConcurrencyKey →
  zset_at st childQueueKey = Some zc → zset_at st parentQueueKey = Some zp →
  zset_at st visibilityQueue = Some zv →
  set_at st concurrencyKey = Some sq →
  set_at st envConcurrencyKey = Some se →
  set_at st orgConcurrencyKey = Some so →
  ∃ st', requeue st = Done tt st'
    ∧ zset_at st' visibilityQueue = Some (delete messageId zv)
    ∧ zset_at st' childQueueKey = Some (<[messageId := messageScore]> zc)
    ∧ set_at st' concurrencyKey = Some (sq ∖ {[messageId]})
    ∧ set_at st' envConcurrencyKey = Some (se ∖ {[messageId]})
    ∧ set_at st' orgConcurrencyKey = Some (so ∖ {[messageId]}).
Proof.
  intros Hapart Hc Hp Hv Hq He Ho.
  apply keys_apart_inv in Hapart
    as ((Hcp & Hcv & Hpv) & (Hqc & Hqp & Hqv) & (Hec & Hep & Hev) & (Hoc & Hop & Hov)).
  destruct (SREM_step st _ messageId sq (or_introl Hq)) as (s1 & R1 & Hq1 & F1 & M1 & A1).
  rewrite (bind_done _ _ _ _ _ R1).
  destruct (SREM_step s1 _ messageId se (M1 _ _ (or_introl He)))
    as (s2 & R2 & He2 & F2 & M2 & A2).
  rewrite (bind_done _ _ _ _ _ R2).
  destruct (SREM_step s2 _ messageId so (M2 _ _ (M1 _ _ (or_introl Ho))))
    as (s3 & R3 & Ho3 & F3 & M3 & A3).
  rewrite (bind_done _ _ _ _ _ R3).
  assert (∀ k, k ≠ concurrencyKey → k ≠ envConcurrencyKey → k ≠ orgConcurrencyKey →
               s3 !! k = st !! k) as F13
    by (intros; rewrite F3, F2, F1; done).
  assert (zset_at s3 visibilityQueue = Some zv) as Hv3
    by (rewrite (zset_at_frame st s3); [done | by apply F13]).
  destruct (ZREM_run s3 visibilityQueue zv messageId Hv3) as (s4 & R4 & Hv4 & F4).
  rewrite (bind_done _ _ _ _ _ R4).
  assert (zset_at s4 childQueueKey = Some zc) as Hc4.
  { rewrite (zset_at_frame s3 s4) by (apply F4; done).
    rewrite (zset_at_frame st s3); [done | by apply F13]. }
  destruct (ZADD_run s4 childQueueKey zc messageScore messageId Hc4) as (s5 & R5 & Hc5 & F5).
  rewrite (bind_done _ _ _ _ _ R5).
  assert (∀ k, k ≠ visibilityQueue → k ≠ childQueueKey → s5 !! k = s3 !! k) as F35
    by (intros; rewrite F5, F4; done).
  assert (zset_at s5 parentQueueKey = Some zp) as Hp5.
  { rewrite (zset_at_frame s3 s5) by (apply F35; done).
    rewrite (zset_at_frame st s3); [done | by apply F13]. }
  destruct (rebalance_run s5 childQueueKey parentQueueKey childQueueName _ _ Hc5 Hp5)
    as (s6 & R6 & F6).
  exists s6. split; [done|]. split_and!.
  - rewrite (zset_at_frame s5 s6) by (apply F6; done).
    rewrite (zset_at_frame s4 s5) by (apply F5; done). done.
  - rewrite (zset_at_frame s5 s6) by (apply F6; done). done.
  - rewrite (set_at_frame s5 s6) by (apply F6; done).
    rewrite (set_at_frame s3 s5) by (apply F35; done). by apply A3, A2.
  - rewrite (set_at_frame s5 s6) by (apply F6; done).
    rewrite (set_at_frame s3 s5) by (apply F35; done). by apply A3.
  - rewrite (set_at_frame s5 s6) by (apply F6; done).
    rewrite (set_at_frame s3 s5) by (apply F35; done). done.
Qed.

(** C7, amended.  The script changes nothing when the id is missing from
    the visibility queue or has score 0 there.  When the id has a nonzero
    score there (and the keys are apart and hold the right kinds of value),
    the script does change the store: the id leaves the visibility queue and
    the three current-concurrency sets and enters the child queue at the
    given score, whatever that score is. *)
Theorem nack_requeues_unless_absent_or_zero st zv :
  zset_at st visibilityQueue = Some zv →
  ((zv !! messageId = None ∨ zv !! messageId = Some 0) → nack st = Done tt st)
  ∧ (∀ s zc zp sq se so,
       zv !! messageId = Some s → s ≠ 0 →
       keys_apart childQueueKey parentQueueKey visibilityQueue
         concurrencyKey envConcurrencyKey orgConcurrencyKey →
       zset_at st childQueueKey = Some zc → zset_at st parentQueueKey = Some zp →
       set_at st concurrencyKey = Some sq →
       set_at st envConcurrencyKey = Some se →
       set_at st orgConcurrencyKey = Some so →
       ∃ st', nack st = Done tt st' ∧ st' ≠ st
         ∧ zset_at st' visibilityQueue = Some (delete messageId zv)
         ∧ zset_at st' childQueueKey = Some (<[messageId := messageScore]> zc)
         ∧ set_at st' concurrencyKey = Some (sq ∖ {[messageId]})
         ∧ set_at st' envConcurrencyKey = Some (se ∖ {[messageId]})
         ∧ set_at st' orgConcurrencyKey = Some (so ∖ {[messageId]})).
Proof.
  intros Hv. rewrite (nack_guard st zv Hv). split.
  - by intros [->| ->].
  - intros s zc zp sq se so Hs Hne Hapart Hc Hp Hq He Ho. rewrite Hs. simpl.
    destruct (s =? 0) eqn:E; [lia|].
    destruct (requeue_run st zc zp zv sq se so Hapart Hc Hp Hv Hq He Ho)
      as (st' & Hrun & Hv' & Hrest).
    exists st'. split; [done|]. split; [|by split].
    intros ->. rewrite Hv in Hv'. injection Hv' as Hv'.
    apply (f_equal (.!! messageId)) in Hv'. by rewrite lookup_delete_eq, Hs in Hv'.
Qed.

End NackScript.

Lemma nack_requeues_unless_absent_or_zero_witness :
  let child := "queue:acme:dev:Q" in
  let st : store := {[ Example.VIS := RZSet {[ "a" := 800 ]};
                      "cc:dev:Q" := RSet {[ "a" ]};
                      "ecc:dev" := RSet {[ "a" ]};
                      "occ:acme" := RSet {[ "a" ]} ]} in
  ∃ st', Lua.nackMessage "message:a" child "env:dev:sharedQueue" "cc:dev:Q" "ecc:dev"
           "occ:acme" Example.VIS child "a" 900 2000 st = Done tt st'
    ∧ zset_at st' Example.VIS = Some ∅
    ∧ zset_at st' child = Some {[ "a" := 2000 ]}
    ∧ Lua.nackMessage "message:a" child "env:dev:sharedQueue" "cc:dev:Q" "ecc:dev"
        "occ:acme" Example.VIS child "b" 900 2000 st = Done tt st.
Proof.
  intros child st.
  destruct (nack_requeues_unless_absent_or_zero "message:a" child "env:dev:sharedQueue"
              "cc:dev:Q" "ecc:dev" "occ:acme" Example.VIS child "a" 900 2000 st
              {[ "a" := 800 ]} ltac:(reflexivity)) as [_ Hpresent].
  destruct (nack_requeues_unless_absent_or_zero "message:a" child "env:dev:sharedQueue"
              "cc:dev:Q" "ecc:dev" "occ:acme" Example.VIS child "b" 900 2000 st
              {[ "a" := 800 ]} ltac:(reflexivity)) as [Habsent _].
  destruct (Hpresent 800 ∅ ∅ {[ "a" ]} {[ "a" ]} {[ "a" ]}
              ltac:(reflexivity) ltac:(lia) ltac:(compute_done)
              ltac:(reflexivity) ltac:(reflexivity) ltac:(reflexivity)
              ltac:(reflexivity) ltac:(reflexivity))
    as (st' & Hrun & _ & Hv & Hc & _).
  exists st'. split; [done|]. split; [by rewrite Hv|]. split; [by rewrite Hc|].
  apply Habsent. left. reflexivity.
Defined.

(** C7, counterexample.  The message "a" is in the visibility queue, with
    score 0, and in the three current-concurrency sets; the script leaves the
    whole store as it is. *)
Lemma nack_noop_on_present_id :
  let child := "queue:acme:dev:Q" in
  let st : store := {[ Example.VIS := RZSet {[ "a" := 0 ]};
                      "cc:dev:Q" := RSet {[ "a" ]};
                      "ecc:dev" := RSet {[ "a" ]};
                      "occ:acme" := RSet {[ "a" ]} ]} in
  (∃ s, deadline st Example.VIS "a" = Some s)
  ∧ Lua.nackMessage "message:a" child "env:dev:sharedQueue" "cc:dev:Q" "ecc:dev"
      "occ:acme" Example.VIS child "a" 900 2000 st = Done tt st.
Proof. intros child st. split; [by exists 0|]. reflexivity. Qed.

(** * The parent queue after a script *)

(** C6.  When the enqueue script completes, when the dequeue script
    completes with a message, and when the nack script completes with a
    change to the store, the parent queue holds the child queue at the least
    score of the child, and does not hold it exactly when the child queue is
    empty.  A dequeue that returns nil and a nack that changes nothing leave
    the store, and with it the parent queue, as it was. *)
Theorem scripts_leave_parent_balanced st st' childQueue parentQueue queueName :
  (∀ messageKey messageId messageData messageScore,
     Lua.enqueueMessage childQueue parentQueue messageKey queueName messageId
       messageData messageScore st = Done tt st' →
     parent_balanced st' childQueue parentQueue queueName)
  ∧ (∀ visibilityQueue concurrencyLimitKey envConcurrencyLimitKey orgConcurrencyLimitKey
       currentConcurrencyKey envCurrentConcurrencyKey orgCurrentConcurrencyKey
       visibilityTimeout currentTime
       defaultConcurrencyLimit defaultEnvConcurrencyLimit defaultOrgConcurrencyLimit
       reply,
     Lua.dequeueMessage childQueue parentQueue visibilityQueue
       concurrencyLimitKey envConcurrencyLimitKey orgConcurrencyLimitKey
       currentConcurrencyKey envCurrentConcurrencyKey orgCurrentConcurrencyKey
       queueName visibilityTimeout currentTime
       defaultConcurrencyLimit defaultEnvConcurrencyLimit defaultOrgConcurrencyLimit st
     = Done reply st' →
     (reply = None ∧ st' = st)
     ∨ (is_Some reply ∧ parent_balanced st' childQueue parentQueue queueName))
  ∧ (∀ messageKey concurrencyKey envConcurrencyKey orgConcurrencyKey visibilityQueue
       messageId currentTime messageScore,
     Lua.nackMessage messageKey childQueue parentQueue concurrencyKey envConcurrencyKey
       orgConcurrencyKey visibilityQueue queueName messageId currentTime messageScore st
     = Done tt st' →
     st' = st ∨ parent_balanced st' childQueue parentQueue queueName).
Proof.
  split_and!.
  - intros messageKey messageId messageData messageScore H.
    unfold Lua.enqueueMessage in H.
    apply bind_inv in H as ([] & s1 & _ & H).
    apply bind_inv in H as ([] & s2 & _ & H).
    by apply rebalance_balanced in H.
  - intros visibilityQueue ? ? ? ? ? ? ? ? ? ? ? reply H.
    apply dequeue_inv in H as [?|(zc & id & sc & l & _ & _ & -> & H)]; [by left|].
    right. split; [done|].
    apply bind_inv in H as ([] & s1 & _ & H).
    apply bind_inv in H as ([] & s2 & _ & H).
    apply bind_inv in H as ([] & s3 & _ & H).
    apply bind_inv in H as ([] & s4 & _ & H).
    apply bind_inv in H as ([] & s5 & _ & H).
    by apply rebalance_balanced in H.
  - intros messageKey ? ? ? visibilityQueue messageId ? ? H.
    destruct (zset_at st visibilityQueue) as [zv|] eqn:Hv.
    + rewrite (nack_guard _ _ _ _ _ _ _ _ _ _ _ st zv Hv) in H.
      destruct (default 0 (zv !! messageId) =? 0); [injection H as <-; by left|].
      right.
      apply bind_inv in H as ([] & s1 & _ & H).
      apply bind_inv in H as ([] & s2 & _ & H).
      apply bind_inv in H as ([] & s3 & _ & H).
      apply bind_inv in H as ([] & s4 & _ & H).
      apply bind_inv in H as ([] & s5 & _ & H).
      by apply rebalance_balanced in H.
    + unfold Lua.nackMessage, Lua.scoreOrZero, ZSCORE, mbind, cmd_bind in H.
      rewrite Hv in H. discriminate.
Qed.

Lemma scripts_leave_parent_balanced_witness :
  let child := "queue:acme:dev:Q" in
  let parent := "env:dev:sharedQueue" in
  let st0 : store := ∅ in
  let st1 := store_of (Lua.enqueueMessage child parent "message:a" child "a" SJson 100 st0) in
  let st2 := store_of (Lua.dequeueMessage child parent Example.VIS "cl:dev:Q" "el:dev"
                         "ol:acme" "cc:dev:Q" "ecc:dev" "occ:acme" child 500 300
                         10 10 10 st1) in
  let st3 := store_of (Lua.nackMessage "message:a" child parent "cc:dev:Q" "ecc:dev"
                         "occ:acme" Example.VIS child "a" 900 2000 st2) in
  parent_balanced st1 child parent child
  ∧ parent_balanced st2 child parent child
  ∧ parent_balanced st3 child parent child.
Proof.
  intros child parent st0 st1 st2 st3. split_and!.
  - destruct (scripts_leave_parent_balanced st0 st1 child parent child) as (H & _ & _).
    apply (H "message:a" "a" SJson 100). reflexivity.
  - destruct (scripts_leave_parent_balanced st1 st2 child parent child) as (_ & H & _).
    destruct (H Example.VIS "cl:dev:Q" "el:dev" "ol:acme" "cc:dev:Q" "ecc:dev" "occ:acme"
                500 300 10 10 10 (Some ("a", 100)) ltac:(vm_compute; reflexivity))
      as [[? _]|[_ ?]]; [discriminate | done].
  - destruct (scripts_leave_parent_balanced st2 st3 child parent child) as (_ & _ & H).
    destruct (H "message:a" "cc:dev:Q" "ecc:dev" "occ:acme" Example.VIS "a" 900 2000
                ltac:(vm_compute; reflexivity)) as [Heq|?]; [|done].
    exfalso. apply (f_equal (λ st : store, st !! child)) in Heq.
    vm_compute in Heq. discriminate.
Defined.

(** * Message bodies under the dequeue operations *)

Section KeepsStrings.
Context {A B : Type}.

Lemma keeps_ret (a : A) : keeps_strings (mret a).
Proof. by intros st k v H. Qed.

Lemma keeps_raise : keeps_strings (@raise A).
Proof. by intros st k v H. Qed.

Lemma keeps_bind (m : cmd A) (f : A → cmd B) :
  keeps_strings m → (∀ a, keeps_strings (f a)) → keeps_strings (m ≫= f).
Proof.
  intros Hm Hf st k v H. specialize (Hm st k v H).
  unfold mbind, cmd_bind. destruct (m st) as [a st1|st1]; simpl in *; [|done].
  by apply Hf.
Qed.

End KeepsStrings.

Lemma keeps_mapM {A B} (f : A → cmd B) (l : list A) :
  (∀ a, keeps_strings (f a)) → keeps_strings (mapM f l).
Proof.
  intros Hf. induction l as [|x l IH]; simpl; [apply keeps_ret|].
  apply keeps_bind; [apply Hf|]. intros y. apply keeps_bind; [exact IH|].
  intros ys. apply keeps_ret.
Qed.

Lemma keeps_GET k : keeps_strings (GET k).
Proof. intros st k' v H. unfold GET. by repeat case_match. Qed.

Lemma keeps_ZSCORE k m : keeps_strings (ZSCORE k m).
Proof. intros st k' v H. unfold ZSCORE. by repeat case_match. Qed.

Lemma keeps_ZRANGE k a b : keeps_strings (ZRANGE k a b).
Proof. intros st k' v H. unfold ZRANGE. by repeat case_match. Qed.

Lemma keeps_ZRANGEBYSCORE k lo hi o c : keeps_strings (ZRANGEBYSCORE k lo hi o c).
Proof. intros st k' v H. unfold ZRANGEBYSCORE. by repeat case_match. Qed.

Lemma keeps_SCARD k : keeps_strings (SCARD k).
Proof. intros st k' v H. unfold SCARD. by repeat case_match. Qed.

Lemma keeps_ZADD k sc m : keeps_strings (ZADD k sc m).
Proof.
  intros st k' v H. unfold ZADD. destruct (zset_at st k) as [z|] eqn:Hz; [|done].
  simpl. by eapply put_zset_string.
Qed.

Lemma keeps_ZREM k m : keeps_strings (ZREM k m).
Proof.
  intros st k' v H. unfold ZREM. destruct (zset_at st k) as [z|] eqn:Hz; [|done].
  simpl. by eapply put_zset_string.
Qed.

Lemma keeps_SADD k m : keeps_strings (SADD k m).
Proof.
  intros st k' v H. unfold SADD. destruct (set_at st k) as [s|] eqn:Hs; [|done].
  simpl. by eapply put_set_string.
Qed.

Lemma keeps_SREM k m : keeps_strings (SREM k m).
Proof.
  intros st k' v H. unfold SREM. destruct (set_at st k) as [s|] eqn:Hs; [|done].
  simpl. by eapply put_set_string.
Qed.

Lemma keeps_lua_ge a b : keeps_strings (lua_ge a b).
Proof. destruct b; [apply keeps_ret | apply keeps_raise]. Qed.

Create HintDb keeps discriminated.
#[global] Hint Resolve keeps_GET keeps_ZSCORE keeps_ZRANGE keeps_ZRANGEBYSCORE
  keeps_SCARD keeps_ZADD keeps_ZREM keeps_SADD keeps_SREM keeps_lua_ge : keeps.

(** Goes through a command bind by bind and case by case. *)
Ltac solve_keeps :=
  repeat first
    [ apply keeps_ret
    | apply keeps_raise
    | solve [auto with keeps]
    | apply keeps_bind; [|intros ?]
    | apply keeps_mapM; intros ?
    | match goal with
      | |- keeps_strings (match ?x with _ => _ end) => destruct x
      | |- keeps_strings (let '(_, _) := ?x in _) => destruct x
      end ].

Lemma keeps_rebalanceParentQueue q p n : keeps_strings (Lua.rebalanceParentQueue q p n).
Proof. unfold Lua.rebalanceParentQueue. solve_keeps. Qed.
#[global] Hint Resolve keeps_rebalanceParentQueue : keeps.

Lemma keeps_limitOrDefault k d : keeps_strings (Lua.limitOrDefault k d).
Proof. unfold Lua.limitOrDefault. solve_keeps. Qed.
#[global] Hint Resolve keeps_limitOrDefault : keeps.

Lemma keeps_dequeueMessage c p v ql el ol qc ec oc n vt now dq de do :
  keeps_strings (Lua.dequeueMessage c p v ql el ol qc ec oc n vt now dq de do).
Proof. unfold Lua.dequeueMessage. solve_keeps. Qed.

Lemma keeps_calculateMessageQueueCapacities qc ec oc ql el ol dq de do :
  keeps_strings (Lua.calculateMessageQueueCapacities qc ec oc ql el ol dq de do).
Proof. unfold Lua.calculateMessageQueueCapacities. solve_keeps. Qed.
#[global] Hint Resolve keeps_dequeueMessage keeps_calculateMessageQueueCapacities : keeps.

Section BrokerKeeps.
Context {keys : MarQSKeyProducer}.
Variable options : MarQSOptions.

Lemma keeps_readMessage id : keeps_strings (MarQS.readMessage id).
Proof. unfold MarQS.readMessage. solve_keeps. Qed.

Lemma keeps_callDequeueMessage now mq p v ql el ol qc ec oc :
  keeps_strings (MarQS.callDequeueMessage options now mq p v ql el ol qc ec oc).
Proof. unfold MarQS.callDequeueMessage. solve_keeps. Qed.

Lemma keeps_getRandomQueueFromParentQueue now p strategy :
  keeps_strings (MarQS.getRandomQueueFromParentQueue options now p strategy
                   (MarQS.calculateMessageQueueCapacities options)).
Proof.
  unfold MarQS.getRandomQueueFromParentQueue, MarQS.zrangeWithScores,
    MarQS.calculateQueueScores, MarQS.calculateMessageQueueCapacities,
    MarQS.callCalculateMessageCapacities.
  solve_keeps.
Qed.

Hint Resolve keeps_readMessage keeps_callDequeueMessage
  keeps_getRandomQueueFromParentQueue : keeps.

Lemma keeps_dequeueMessageInEnv now env :
  keeps_strings (MarQS.dequeueMessageInEnv options now env).
Proof. unfold MarQS.dequeueMessageInEnv. solve_keeps. Qed.

Lemma keeps_dequeueMessageInSharedQueue now :
  keeps_strings (MarQS.dequeueMessageInSharedQueue options now).
Proof. unfold MarQS.dequeueMessageInSharedQueue. solve_keeps. Qed.

End BrokerKeeps.

Section RoundTrip.
Context {keys : MarQSKeyProducer}.

Lemma enqueue_writes_body activeContext now env queueName id d ck st :
  ∃ m, store_of (MarQS.enqueueMessage activeContext now env queueName id d ck st)
         !! messageKey id = Some (RString (SPayload m))
       ∧ reads_back activeContext now env queueName id d ck m.
Proof.
  eexists. split.
  - unfold MarQS.enqueueMessage, MarQS.callEnqueueMessage, Lua.enqueueMessage. simpl.
    unfold mbind at 1, cmd_bind at 1, SET at 1.
    match goal with
    | |- store_of (?c ?s) !! ?k = _ =>
        assert (keeps_strings c) as Hk by solve_keeps; apply (Hk s k)
    end.
    apply lookup_insert_eq.
  - unfold reads_back, inject. simpl. split_and!; try done.
    + intros k Hk. by rewrite lookup_union_r by by rewrite lookup_fmap, Hk.
    + intros k v Hk. apply lookup_union_Some_l. by rewrite lookup_fmap, Hk.
Qed.

Lemma dequeue_steps_keep st st' :
  dequeue_steps st st' →
  ∀ k v, st !! k = Some (RString v) → st' !! k = Some (RString v).
Proof.
  induction 1 as [st|options now env st st' _ IH|options now st st' _ IH]; intros k v H.
  - done.
  - by apply IH, keeps_dequeueMessageInEnv.
  - by apply IH, keeps_dequeueMessageInSharedQueue.
Qed.

Lemma readMessage_payload id st m :
  st !! messageKey id = Some (RString (SPayload m)) →
  MarQS.readMessage id st = Done (Some m) st.
Proof.
  intros H. unfold MarQS.readMessage, GET, mbind at 1, cmd_bind at 1. by rewrite H.
Qed.

Lemma delivers_body options now parentQueue strategy st id st' m :
  delivers options now parentQueue strategy st id st' →
  st !! messageKey id = Some (RString (SPayload m)) →
  ∃ messageQueue st1 reply,
    MarQS.getRandomQueueFromParentQueue options now parentQueue strategy
      (MarQS.calculateMessageQueueCapacities options) st = Done (Some messageQueue) st1
    ∧ MarQS.callDequeueMessage options now messageQueue parentQueue
        constants.MESSAGE_VISIBILITY_TIMEOUT_QUEUE
        (concurrencyLimitKeyFromQueue messageQueue)
        (envConcurrencyLimitKeyFromQueue messageQueue)
        (orgConcurrencyLimitKeyFromQueue messageQueue)
        (currentConcurrencyKeyFromQueue messageQueue)
        (envCurrentConcurrencyKeyFromQueue messageQueue)
        (orgCurrentConcurrencyKeyFromQueue messageQueue) st1 = Done (Some reply) st'
    ∧ messageQueue ≠ ""
    ∧ MarQS.readMessage (replyMessageId reply) st' = Done (Some m) st'.
Proof.
  intros (mq & st1 & reply & Hq & Hd & Hne & Hid) Hbody.
  exists mq, st1, reply. split; [done|]. split; [done|]. split; [done|].
  rewrite Hid. apply readMessage_payload.
  pose proof (keeps_getRandomQueueFromParentQueue options now parentQueue strategy
                st _ _ Hbody) as H1.
  rewrite Hq in H1. simpl in H1.
  eapply keeps_callDequeueMessage in H1. by erewrite Hd in H1.
Qed.

(** C3.  After [enqueueMessage] of [messageData] under [messageId], and
    after any run of dequeues, a dequeue (from an environment or from the
    shared queue) that goes on with the queue it has chosen and to which the
    script hands out [messageId] returns a
    payload with that id, with the child queue key made of the environment,
    the queue name and the concurrency key of the enqueue, and with the data
    of the enqueue in every field that the trace context did not write.
    Texts are stored by their parse, so that [JSON.parse] undoes
    [JSON.stringify] by construction. *)
Theorem enqueue_dequeue_round_trip activeContext now env queueName messageId
    messageData ck st0 st :
  dequeue_steps
    (store_of (MarQS.enqueueMessage activeContext now env queueName messageId
                 messageData ck st0)) st →
  (∀ options now' env' st',
     delivers options now' (envSharedQueueKey env') (envQueuePriorityStrategy options)
       st messageId st' →
     ∃ message,
       MarQS.dequeueMessageInEnv options now' env' st = Done (Some message) st'
       ∧ reads_back activeContext now env queueName messageId messageData ck message)
  ∧ (∀ options now' st',
       delivers options now' constants.SHARED_QUEUE (queuePriorityStrategy options)
         st messageId st' →
       ∃ message,
         MarQS.dequeueMessageInSharedQueue options now' st = Done (Some message) st'
         ∧ reads_back activeContext now env queueName messageId messageData ck message).
Proof.
  intros Hsteps.
  destruct (enqueue_writes_body activeContext now env queueName messageId messageData
              ck st0) as (m & Hbody & Hm).
  pose proof (dequeue_steps_keep _ _ Hsteps _ _ Hbody) as Hst.
  split.
  - intros options now' env' st' Hdel.
    destruct (delivers_body _ _ _ _ _ _ _ _ Hdel Hst)
      as (mq & st1 & reply & Hq & Hd & Hne & Hr).
    exists m. split; [|done]. unfold MarQS.dequeueMessageInEnv.
    rewrite (bind_done _ _ _ _ _ Hq). destruct mq as [|a mq]; [done|].
    by rewrite (bind_done _ _ _ _ _ Hd).
  - intros options now' st' Hdel.
    destruct (delivers_body _ _ _ _ _ _ _ _ Hdel Hst)
      as (mq & st1 & reply & Hq & Hd & Hne & Hr).
    exists m. split; [|done]. unfold MarQS.dequeueMessageInSharedQueue.
    rewrite (bind_done _ _ _ _ _ Hq). destruct mq as [|a mq]; [done|].
    by rewrite (bind_done _ _ _ _ _ Hd).
Qed.

End RoundTrip.

Lemma enqueue_dequeue_round_trip_witness :
  let options := Example.exampleOptions 500 in
  let ctx : gmap string string := {[ "traceparent" := "00-4bf92f35-00f067aa-01" ]} in
  let d : Data := {[ "x" := UNum 1 ]} in
  let st0 := store_of (MarQS.enqueueMessage (keys := Example.shortKeys)
                         ∅ 100 Example.dev "Q" "a" ∅ None ∅) in
  let st1 := store_of (MarQS.enqueueMessage (keys := Example.shortKeys)
                         ctx 200 Example.dev "Q" "b" d None st0) in
  let st2 := store_of (MarQS.dequeueMessageInEnv (keys := Example.shortKeys)
                         options 300 Example.dev st1) in
  ∃ message st',
    MarQS.dequeueMessageInEnv (keys := Example.shortKeys) options 400 Example.dev st2
    = Done (Some message) st'
    ∧ messageId message = "b"
    ∧ queue message = "queue:acme:dev:Q"
    ∧ data message !! "x" = Some (UNum 1).
Proof.
  intros options ctx d st0 st1 st2.
  destruct (enqueue_dequeue_round_trip (keys := Example.shortKeys)
              ctx 200 Example.dev "Q" "b" d None st0 st2) as [Henv _].
  - eapply steps_env. apply steps_done.
  - destruct (Henv options 400 Example.dev
                (store_of (MarQS.dequeueMessageInEnv (keys := Example.shortKeys)
                             options 400 Example.dev st2)))
      as (message & Hrun & Hid & Hq & _ & _ & _ & Hdata & _).
    + eexists _, _, _. split; [vm_compute; reflexivity|].
      split; [vm_compute; reflexivity|]. split; [discriminate|reflexivity].
    + exists message. eexists. split; [exact Hrun|]. split; [done|]. split; [done|].
      rewrite Hdata; reflexivity.
Defined.

(** * Operations on a message without a readable body *)

Section NoBody.
Context {keys : MarQSKeyProducer}.

Lemma readMessage_no_payload id st :
  no_payload (st !! messageKey id) = true →
  MarQS.readMessage id st
  = if not_json (st !! messageKey id) then Raised st else Done None st.
Proof.
  unfold no_payload, not_json, MarQS.readMessage, GET, mbind, cmd_bind.
  destruct (st !! messageKey id) as [[[]| |]|]; simpl; try done.
Qed.

(** C10.  With no readable body under the message key, [acknowledgeMessage],
    [nackMessage] and [replaceMessage] stop after reading it: they return
    without a script (or, on a text that is not JSON, with the exception of
    [JSON.parse]) and the store is as before, stale entries of the id in
    the visibility queue and the concurrency sets included. *)
Theorem no_body_no_script st id :
  no_payload (st !! messageKey id) = true →
  let stops (c : cmd unit) :=
    c st = (if not_json (st !! messageKey id) then Raised st else Done tt st) in
  stops (MarQS.acknowledgeMessage id)
  ∧ (∀ now retryAt, stops (MarQS.nackMessage now id retryAt))
  ∧ (∀ now messageData timestamp,
       stops (MarQS.replaceMessage now id messageData timestamp)).
Proof.
  intros H stops. unfold stops. pose proof (readMessage_no_payload id st H) as Hread.
  split_and!; intros;
    unfold MarQS.acknowledgeMessage, MarQS.nackMessage, MarQS.replaceMessage;
    cbv zeta; unfold mbind, cmd_bind; rewrite Hread;
    by destruct (not_json (st !! messageKey id)).
Qed.

End NoBody.

Lemma no_body_no_script_witness :
  let st : store := {[ Example.VIS := RZSet {[ "a" := 800 ]};
                      "cc:dev:Q" := RSet {[ "a" ]};
                      "message:b" := RString SJson ]} in
  MarQS.acknowledgeMessage (keys := Example.shortKeys) "a" st = Done tt st
  ∧ MarQS.nackMessage (keys := Example.shortKeys) 900 "a" None st = Done tt st
  ∧ MarQS.replaceMessage (keys := Example.shortKeys) 900 "b" ∅ None st = Done tt st.
Proof.
  intros st.
  destruct (no_body_no_script (keys := Example.shortKeys) st "a" eq_refl) as (Hack & Hnack & _).
  destruct (no_body_no_script (keys := Example.shortKeys) st "b" eq_refl) as (_ & _ & Hrep).
  split_and!; [apply Hack | apply Hnack | apply Hrep].
Defined.

(** * The requeuer *)

Lemma take_filter_range z lo hi n e :
  e ∈ zrangebyscore_entries z lo hi 0 n →
  z !! e.1 = Some e.2 ∧ in_score_range lo hi e = true.
Proof.
  unfold zrangebyscore_entries. rewrite drop_0. intros H.
  apply elem_of_take in H as (i & H & _). apply list_elem_of_lookup_2 in H.
  apply list_elem_of_In, filter_In in H as [H Hr]. split; [|done].
  destruct e as [m s]. by apply elem_of_zset_entries, list_elem_of_In.
Qed.

Lemma list_filter_sublist {A} (P : A → bool) l : List.filter P l `sublist_of` l.
Proof.
  induction l as [|x l IH]; simpl; [constructor|].
  destruct (P x); by constructor.
Qed.

(** The range read is a part of the sorted set, in its order. *)
Lemma zrangebyscore_sublist z lo hi n :
  zrangebyscore_entries z lo hi 0 n `sublist_of` zset_entries z.
Proof.
  unfold zrangebyscore_entries. rewrite drop_0.
  etrans; [apply sublist_take | apply list_filter_sublist].
Qed.

Lemma zrangebyscore_NoDup z lo hi n : NoDup (zrangebyscore_entries z lo hi 0 n).*1.
Proof.
  apply (sublist_NoDup _ (zset_entries z).*1).
  - unfold zset_entries. rewrite sort_entries_perm. apply NoDup_fst_map_to_list.
  - apply fmap_sublist, zrangebyscore_sublist.
Qed.

Lemma zrangebyscore_left_out z lo hi n m s :
  z !! m = Some s → in_score_range lo hi (m, s) = true →
  m ∉ (zrangebyscore_entries z lo hi 0 n).*1 →
  length (zrangebyscore_entries z lo hi 0 n) = n
  ∧ ∀ e, e ∈ zrangebyscore_entries z lo hi 0 n → e.2 ≤ s.
Proof.
  intros Hm Hr Hout. unfold zrangebyscore_entries in *. rewrite drop_0 in *.
  set (l := List.filter (in_score_range lo hi) (zset_entries z)) in *.
  assert ((m, s) ∈ l) as Hl.
  { apply list_elem_of_In, filter_In. split; [|done].
    by apply list_elem_of_In, elem_of_zset_entries. }
  assert ((m, s) ∈ drop n l) as Hd.
  { rewrite <- (take_drop n l) in Hl. apply elem_of_app in Hl as [Hl|Hl]; [|done].
    destruct Hout. apply list_elem_of_fmap. by exists (m, s). }
  split.
  - rewrite length_take. apply Nat.min_l.
    destruct (decide (n ≤ length l)%nat) as [|Hn]; [done|].
    rewrite drop_ge in Hd by lia. by apply elem_of_nil in Hd.
  - intros e He.
    assert (StronglySorted by_score (take n l ++ drop n l)) as Hs.
    { rewrite take_drop. apply filter_sorted, sort_entries_sorted. }
    apply (StronglySorted_app_1_elem_of _ _ _ e (m, s) Hs He Hd).
Qed.

Section Requeuer.
Context {keys : MarQSKeyProducer}.

(** One cycle reads the ids of the visibility queue with a score between 0
    and the current time, in score order, ten at most and none twice: an id
    with such a score is left out only when ten ids at scores no later than
    its own were read.  The cycle handles the ids in turn.  For an id whose
    body is missing, empty or JSON that is not a message payload, the turn
    removes the id from the visibility queue and changes no other key; for
    an id with a payload, the turn is the nack script on the keys of the
    payload's queue with the payload's timestamp as the new score. *)
Theorem requeuer_cycle now st zv :
  zset_at st constants.MESSAGE_VISIBILITY_TIMEOUT_QUEUE = Some zv →
  (∃ ids,
     MarQS.expiredMessages now st = Done ids st
     ∧ (length ids ≤ 10)%nat
     ∧ NoDup ids
     ∧ (∀ id, id ∈ ids → ∃ s, zv !! id = Some s ∧ 0 ≤ s ≤ now)
     ∧ (∀ id s, zv !! id = Some s → 0 ≤ s ≤ now → id ∉ ids →
          length ids = 10%nat
          ∧ ∀ id' s', id' ∈ ids → zv !! id' = Some s' → s' ≤ s)
     ∧ MarQS.requeueVisibleMessages now st = forM_ ids (MarQS.requeueMessage now) st)
  ∧ (∀ id st1 zv1,
       zset_at st1 constants.MESSAGE_VISIBILITY_TIMEOUT_QUEUE = Some zv1 →
       missing_or_invalid (st1 !! messageKey id) = true →
       ∃ st2, MarQS.requeueMessage now id st1 = Done tt st2
         ∧ zset_at st2 constants.MESSAGE_VISIBILITY_TIMEOUT_QUEUE = Some (delete id zv1)
         ∧ ∀ k, k ≠ constants.MESSAGE_VISIBILITY_TIMEOUT_QUEUE → st2 !! k = st1 !! k)
  ∧ (∀ id st1 m,
       st1 !! messageKey id = Some (RString (SPayload m)) →
       MarQS.requeueMessage now id st1
       = Lua.nackMessage (messageKey id) (queue m) (parentQueue m)
           (currentConcurrencyKeyFromQueue (queue m))
           (envCurrentConcurrencyKeyFromQueue (queue m))
           (orgCurrentConcurrencyKeyFromQueue (queue m))
           constants.MESSAGE_VISIBILITY_TIMEOUT_QUEUE
           (queue m) (messageId m) now (timestamp m) st1).
Proof.
  intros Hv. split_and!.
  - exists ((zrangebyscore_entries zv (Some 0) now 0 10).*1).
    assert (MarQS.expiredMessages now st
            = Done ((zrangebyscore_entries zv (Some 0) now 0 10).*1) st) as Hread.
    { unfold MarQS.expiredMessages, ZRANGEBYSCORE, mbind, cmd_bind. by rewrite Hv. }
    split_and!.
    + done.
    + rewrite length_fmap. unfold zrangebyscore_entries. rewrite length_take. lia.
    + apply zrangebyscore_NoDup.
    + intros id Hid. apply list_elem_of_fmap in Hid as ([m s] & -> & He).
      apply take_filter_range in He as [Hm Hr]. simpl in *.
      exists s. split; [done|]. lia.
    + intros id s Hm Hs Hout.
      destruct (zrangebyscore_left_out zv (Some 0) now 10 id s Hm) as [Hlen Hle];
        [simpl; lia|done|].
      split; [by rewrite length_fmap|].
      intros id' s' Hid' Hm'. apply list_elem_of_fmap in Hid' as ([m1 s1] & -> & He).
      pose proof (Hle _ He) as Hle1. apply take_filter_range in He as [Hm1 _].
      simpl in *. rewrite Hm1 in Hm'. by injection Hm' as <-.
    + unfold MarQS.requeueVisibleMessages. rewrite (bind_done _ _ _ _ _ Hread).
      by destruct (zrangebyscore_entries zv (Some 0) now 0 10).*1.
  - intros id st1 zv1 Hv1 Hbody.
    destruct (ZREM_run st1 _ zv1 id Hv1) as (st2 & Hrun & Hv2 & Hframe).
    exists st2. split; [|done]. rewrite <- Hrun.
    unfold missing_or_invalid in Hbody.
    unfold MarQS.requeueMessage, GET, mbind at 1, cmd_bind at 1.
    destruct (st1 !! messageKey id) as [[[]| |]|]; simpl; done.
  - intros id st1 m Hbody.
    unfold MarQS.requeueMessage, MarQS.callNackMessage, GET, mbind at 1, cmd_bind at 1.
    by rewrite Hbody.
Qed.

(** A body that is not JSON makes [JSON.parse] throw: the turn ends the
    cycle with the exception and the id stays in the visibility queue. *)
Lemma requeueMessage_not_json now id st :
  not_json (st !! messageKey id) = true → MarQS.requeueMessage now id st = Raised st.
Proof.
  unfold not_json, MarQS.requeueMessage, GET, mbind at 1, cmd_bind at 1.
  destruct (st !! messageKey id) as [[[]| |]|]; simpl; done.
Qed.

End Requeuer.

Lemma requeuer_cycle_witness :
  let st : store := {[ Example.VIS := RZSet {[ "a" := 800; "b" := 900; "c" := 5000 ]};
                      "message:a" :=
                        RString (SPayload {| version := "1"; data := ∅;
                                             queue := "queue:acme:dev:Q";
                                             concurrencyKey := None; timestamp := 100;
                                             messageId := "a";
                                             parentQueue := "env:dev:sharedQueue" |}) ]} in
  (∃ ids, MarQS.expiredMessages 1000 st = Done ids st ∧ (length ids ≤ 10)%nat)
  ∧ (∃ st2, MarQS.requeueMessage (keys := Example.shortKeys) 1000 "b" st = Done tt st2
       ∧ zset_at st2 Example.VIS = Some {[ "a" := 800; "c" := 5000 ]})
  ∧ MarQS.requeueMessage (keys := Example.shortKeys) 1000 "a" st
    = Lua.nackMessage "message:a" "queue:acme:dev:Q" "env:dev:sharedQueue" "cc:dev:Q"
        "ecc:dev" "occ:acme" Example.VIS "queue:acme:dev:Q" "a" 1000 100 st.
Proof.
  intros st.
  destruct (requeuer_cycle (keys := Example.shortKeys) 1000 st
              {[ "a" := 800; "b" := 900; "c" := 5000 ]} ltac:(reflexivity))
    as ((ids & Hread & Hlen & _) & Hbad & Hgood).
  split_and!.
  - by exists ids.
  - destruct (Hbad "b" st {[ "a" := 800; "b" := 900; "c" := 5000 ]}
                ltac:(reflexivity) ltac:(reflexivity)) as (st2 & Hrun & Hv & _).
    exists st2. split; [done|]. unfold Example.VIS. rewrite Hv. by f_equal.
  - by rewrite (Hgood "a" st _ ltac:(reflexivity)).
Defined.

(** C8.  A body that is not JSON is a body that fails to parse, and the
    cycle does not remove its id: with the visibility queue holding ["a"] at
    800 and ["b"] at 900, a text that is not JSON under the message key of
    ["a"], nothing under the message key of ["b"] and the clock at 1000, the
    cycle reads both ids, ends with the exception of [JSON.parse] at ["a"],
    and leaves the store as it was: ["a"] is still in the visibility queue,
    and so is ["b"], whose turn never comes. *)
Example requeuer_stops_at_garbled_body :
  let st : store := {[ Example.VIS := RZSet {[ "a" := 800; "b" := 900 ]};
                      "message:a" := RString SGarbled ]} in
  MarQS.expiredMessages 1000 st = Done ["a"; "b"] st
  ∧ no_payload (st !! messageKey (MarQSKeyProducer := Example.shortKeys) "a") = true
  ∧ no_payload (st !! messageKey (MarQSKeyProducer := Example.shortKeys) "b") = true
  ∧ MarQS.requeueVisibleMessages (keys := Example.shortKeys) 1000 st = Raised st
  ∧ deadline st Example.VIS "a" = Some 800
  ∧ deadline st Example.VIS "b" = Some 900.
Proof. vm_compute. split_and!; reflexivity. Qed.

(** * The acknowledge script *)

Lemma SREM_inv st k m st' :
  SREM k m st = Done tt st' →
  ∃ s, set_at st k = Some s ∧ st' = put_set k (s ∖ {[m]}) st.
Proof.
  unfold SREM. destruct (set_at st k) as [s|]; [|done]. intros [= <-]. eauto.
Qed.

Lemma SADD_inv st k m st' :
  SADD k m st = Done tt st' →
  ∃ s, set_at st k = Some s ∧ st' = put_set k ({[m]} ∪ s) st.
Proof.
  unfold SADD. destruct (set_at st k) as [s|]; [|done]. intros [= <-]. eauto.
Qed.

Lemma ZREM_inv_eq st k m st' :
  ZREM k m st = Done tt st' →
  ∃ z, zset_at st k = Some z ∧ st' = put_zset k (delete m z) st.
Proof.
  unfold ZREM. destruct (zset_at st k) as [z|]; [|done]. intros [= <-]. eauto.
Qed.

Lemma zset_at_set_at_absent st k z s :
  zset_at st k = Some z → set_at st k = Some s → st !! k = None.
Proof. unfold zset_at, set_at. by destruct (st !! k) as [[]|]. Qed.

Lemma put_zset_clean st k z m :
  id_gone_from_zset (put_zset k (delete m z) st) k m.
Proof.
  unfold id_gone_from_zset, put_zset. case_decide as E.
  - left. apply lookup_delete_eq.
  - right. exists (delete m z). rewrite lookup_insert_eq, lookup_delete_eq. done.
Qed.

Lemma put_set_clean st k s m :
  id_gone_from_set (put_set k (s ∖ {[m]}) st) k m.
Proof.
  unfold id_gone_from_set, put_set. case_decide as E.
  - left. apply lookup_delete_eq.
  - right. exists (s ∖ {[m]}). rewrite lookup_insert_eq. split_and!; [done..|].
    rewrite elem_of_difference, elem_of_singleton. tauto.
Qed.

(** A removal from a set leaves in place what is known of the other keys. *)
Lemma SREM_keeps st k m st' :
  SREM k m st = Done tt st' →
  (∀ k', st !! k' = None → st' !! k' = None)
  ∧ (∀ k', id_gone_from_zset st k' m → id_gone_from_zset st' k' m)
  ∧ (∀ k', id_gone_from_set st k' m → id_gone_from_set st' k' m)
  ∧ id_gone_from_set st' k m.
Proof.
  intros H. apply SREM_inv in H as (s & Hs & ->).
  assert (∀ k', st !! k' = None → put_set k (s ∖ {[m]}) st !! k' = None) as Habs.
  { intros k' Hk'. destruct (decide (k = k')) as [->|Hne].
    - unfold set_at in Hs. rewrite Hk' in Hs. injection Hs as <-.
      unfold put_set. rewrite decide_True by set_solver. apply lookup_delete_eq.
    - by rewrite lookup_put_set_ne. }
  split_and!; [done| | |apply put_set_clean].
  - intros k' [Hk'|(z & Hz & Hne & Hm)]; [left; by apply Habs|].
    destruct (decide (k = k')) as [->|Hkk].
    + unfold set_at in Hs. by rewrite Hz in Hs.
    + right. exists z. by rewrite lookup_put_set_ne.
  - intros k' Hk'. destruct (decide (k = k')) as [->|Hkk]; [apply put_set_clean|].
    destruct Hk' as [Hk'|(s' & Hs' & Hne & Hm)]; [left; by apply Habs|].
    right. exists s'. by rewrite lookup_put_set_ne.
Qed.

Lemma ZREM_noop st k m : id_gone_from_zset st k m → ZREM k m st = Done tt st.
Proof.
  intros [H|(z & Hz & Hne & Hm)]; unfold ZREM, zset_at, put_zset.
  - rewrite H. rewrite delete_empty, decide_True by done. by rewrite delete_id.
  - rewrite Hz. rewrite delete_id by done. rewrite decide_False by done.
    by rewrite insert_id.
Qed.

Lemma SREM_noop st k m : id_gone_from_set st k m → SREM k m st = Done tt st.
Proof.
  intros [H|(s & Hs & Hne & Hm)]; unfold SREM, set_at, put_set.
  - rewrite H. rewrite decide_True by set_solver. by rewrite delete_id.
  - rewrite Hs. assert (s ∖ {[m]} = s) as -> by set_solver.
    rewrite decide_False by done. by rewrite insert_id.
Qed.

Section AckScript.
Variables (messageKey visibilityQueue : string).
Variables (concurrencyKey envCurrentConcurrencyKey orgCurrentConcurrencyKey : string).
Variable (messageId : string).

Local Abbreviation ack :=
  (Lua.acknowledgeMessage messageKey visibilityQueue concurrencyKey
     envCurrentConcurrencyKey orgCurrentConcurrencyKey messageId).

Lemma ack_inv st st' :
  ack st = Done tt st' →
  st' !! messageKey = None
  ∧ id_gone_from_zset st' visibilityQueue messageId
  ∧ id_gone_from_set st' concurrencyKey messageId
  ∧ id_gone_from_set st' envCurrentConcurrencyKey messageId
  ∧ id_gone_from_set st' orgCurrentConcurrencyKey messageId.
Proof.
  unfold Lua.acknowledgeMessage. intros H.
  apply bind_inv in H as ([] & s1 & H1 & H). injection H1 as <-.
  apply bind_inv in H as ([] & s2 & H2 & H).
  apply bind_inv in H as ([] & s3 & H3 & H).
  apply bind_inv in H as ([] & s4 & H4 & H).
  apply ZREM_inv_eq in H2 as (z & Hz & ->).
  assert (put_zset visibilityQueue (delete messageId z) (delete messageKey st)
            !! messageKey = None) as Hbody.
  { destruct (decide (visibilityQueue = messageKey)) as [->|Hne].
    - unfold zset_at in Hz. rewrite lookup_delete_eq in Hz. injection Hz as <-.
      unfold put_zset. rewrite delete_empty, decide_True by done. apply lookup_delete_eq.
    - rewrite lookup_put_zset_ne by done. apply lookup_delete_eq. }
  pose proof (put_zset_clean (delete messageKey st) visibilityQueue z messageId) as Hvis.
  apply SREM_keeps in H3 as (A3 & Z3 & S3 & C3).
  apply SREM_keeps in H4 as (A4 & Z4 & S4 & C4).
  apply SREM_keeps in H as (A5 & Z5 & S5 & C5).
  split_and!; auto.
Qed.

(** X1.  When the acknowledge script completes, the body key is gone and
    the id is in neither the visibility queue nor any of the three
    current-concurrency sets, whatever the keys are and wherever the id was
    before. *)
Theorem ack_clears_message st st' :
  ack st = Done tt st' →
  st' !! messageKey = None
  ∧ (∃ zv, zset_at st' visibilityQueue = Some zv ∧ zv !! messageId = None)
  ∧ Forall (λ k, ∃ s, set_at st' k = Some s ∧ messageId ∉ s)
      [concurrencyKey; envCurrentConcurrencyKey; orgCurrentConcurrencyKey].
Proof.
  intros H. apply ack_inv in H as (Hb & Hv & Hq & He & Ho).
  split; [done|]. split.
  - unfold zset_at. destruct Hv as [->|(z & -> & _ & Hm)]; eauto.
  - assert (∀ k, id_gone_from_set st' k messageId →
                 ∃ s, set_at st' k = Some s ∧ messageId ∉ s) as Hset.
    { intros k [Hk|(s & Hk & _ & Hm)]; unfold set_at; rewrite Hk; eauto.
      exists ∅. split; [done|]. set_solver. }
    repeat constructor; auto.
Qed.

(** X2.  The acknowledge script is idempotent, and once it has completed,
    the nack and heartbeat scripts for the same id change nothing. *)
Theorem ack_then_scripts_change_nothing st st' :
  ack st = Done tt st' →
  ack st' = Done tt st'
  ∧ (∀ messageKey' childQueueKey parentQueueKey concurrencyKey' envConcurrencyKey'
       orgConcurrencyKey' childQueueName currentTime messageScore,
       Lua.nackMessage messageKey' childQueueKey parentQueueKey concurrencyKey'
         envConcurrencyKey' orgConcurrencyKey' visibilityQueue childQueueName
         messageId currentTime messageScore st' = Done tt st')
  ∧ (∀ milliseconds maxVisibilityTimeout,
       Lua.heartbeatMessage visibilityQueue messageId milliseconds maxVisibilityTimeout st'
       = Done tt st').
Proof.
  intros H. apply ack_inv in H as (Hb & Hv & Hq & He & Ho).
  assert (∃ zv, zset_at st' visibilityQueue = Some zv ∧ zv !! messageId = None)
    as (zv & Hzv & Hid).
  { unfold zset_at. destruct Hv as [->|(z & -> & _ & Hm)]; eauto. }
  split_and!.
  - unfold Lua.acknowledgeMessage, DEL, mbind at 1, cmd_bind at 1.
    rewrite delete_id by done.
    rewrite (bind_done _ _ _ _ _ (ZREM_noop _ _ _ Hv)).
    rewrite (bind_done _ _ _ _ _ (SREM_noop _ _ _ Hq)).
    rewrite (bind_done _ _ _ _ _ (SREM_noop _ _ _ He)).
    by apply SREM_noop.
  - intros. rewrite (nack_guard _ _ _ _ _ _ _ _ _ _ _ st' zv Hzv). by rewrite Hid.
  - intros. apply heartbeat_script_absent; [|by rewrite Hzv].
    unfold deadline. by rewrite Hzv.
Qed.

End AckScript.

(** * The enqueue script *)

Lemma rebalance_frame st child parent name st' :
  Lua.rebalanceParentQueue child parent name st = Done tt st' →
  ∀ k, k ≠ parent → st' !! k = st !! k.
Proof.
  unfold Lua.rebalanceParentQueue. intros H.
  apply bind_inv in H as (entries & st1 & Hrange & H).
  unfold ZRANGE in Hrange. destruct (zset_at st child) as [zc|]; [|done].
  injection Hrange as <- <-.
  destruct (zrange_slice (zset_entries zc) 0 0) as [|[m s] l].
  - apply ZREM_inv in H as (zp & _ & _ & Hframe). done.
  - apply ZADD_inv in H as (zp & _ & _ & Hframe). done.
Qed.

(** X3.  When the enqueue script completes on a queue key that differs
    from the parent key, the body is under the message key, the id is in
    the queue at the given score, and the parent holds the queue at a score
    that is not later than this one. *)
Theorem enqueue_stores_message st st' queue parentQueue messageKey queueName messageId
    messageData messageScore :
  Lua.enqueueMessage queue parentQueue messageKey queueName messageId messageData
    messageScore st = Done tt st' →
  queue ≠ parentQueue →
  st' !! messageKey = Some (RString messageData)
  ∧ ∃ zc zp s,
      zset_at st' queue = Some zc ∧ zc !! messageId = Some messageScore
      ∧ zset_at st' parentQueue = Some zp ∧ zp !! queueName = Some s
      ∧ s ≤ messageScore.
Proof.
  unfold Lua.enqueueMessage. intros H Hne.
  apply bind_inv in H as ([] & s1 & H1 & H). injection H1 as <-.
  apply bind_inv in H as ([] & s2 & H2 & H).
  split.
  - pose proof (keeps_ZADD queue messageScore messageId
                  (<[messageKey := RString messageData]> st) messageKey messageData
                  (lookup_insert_eq _ _ _)) as Hb.
    rewrite H2 in Hb. simpl in Hb.
    pose proof (keeps_rebalanceParentQueue queue parentQueue queueName s2 _ _ Hb) as Hb'.
    by rewrite H in Hb'.
  - apply ZADD_inv in H2 as (z & _ & Hq & _).
    pose proof (rebalance_frame _ _ _ _ _ H queue Hne) as Hframe.
    apply rebalance_balanced in H as (zc & zp & Hzc & Hzp & Hnone & Hmin).
    rewrite (zset_at_frame s2 st') in Hzc by done. rewrite Hq in Hzc.
    injection Hzc as <-.
    destruct (zp !! queueName) as [s|] eqn:Hs.
    + exists (<[messageId := messageScore]> z), zp, s.
      rewrite (zset_at_frame s2 st') by done.
      split_and!; [done|apply lookup_insert_eq|done|done|].
      destruct (Hmin s eq_refl) as [_ Hle]. apply (Hle messageId), lookup_insert_eq.
    + destruct Hnone as [Hnone _]. specialize (Hnone eq_refl).
      apply (f_equal (.!! messageId)) in Hnone.
      by rewrite lookup_insert_eq, lookup_empty in Hnone.
Qed.

Lemma enqueue_stores_message_witness :
  let st : store := {[ "queue:acme:dev:Q" := RZSet {[ "a" := 100 ]};
                      "env:dev:sharedQueue" := RZSet {[ "queue:acme:dev:Q" := 100 ]} ]} in
  let st' := store_of (Lua.enqueueMessage "queue:acme:dev:Q" "env:dev:sharedQueue"
                         "message:b" "queue:acme:dev:Q" "b" SJson 50 st) in
  st' !! "message:b" = Some (RString SJson)
  ∧ ∃ zc zp s,
      zset_at st' "queue:acme:dev:Q" = Some zc ∧ zc !! "b" = Some 50
      ∧ zset_at st' "env:dev:sharedQueue" = Some zp
      ∧ zp !! "queue:acme:dev:Q" = Some s ∧ s ≤ 50.
Proof.
  intros st st'.
  apply (enqueue_stores_message st st' "queue:acme:dev:Q" "env:dev:sharedQueue"
           "message:b" "queue:acme:dev:Q" "b" SJson 50).
  - vm_compute. reflexivity.
  - discriminate.
Defined.

(** * Commands that only read *)

Section ReadsOnly.
Context {A B : Type}.

Lemma reads_ret (a : A) : reads_only (mret a).
Proof. by intros st. Qed.

Lemma reads_raise : reads_only (@raise A).
Proof. by intros st. Qed.

Lemma reads_bind (m : cmd A) (f : A → cmd B) :
  reads_only m → (∀ a, reads_only (f a)) → reads_only (m ≫= f).
Proof.
  intros Hm Hf st. specialize (Hm st).
  unfold mbind, cmd_bind. destruct (m st) as [a st1|st1]; simpl in *; subst; [|done].
  apply Hf.
Qed.

End ReadsOnly.

Lemma reads_mapM {A B} (f : A → cmd B) (l : list A) :
  (∀ a, reads_only (f a)) → reads_only (mapM f l).
Proof.
  intros Hf. induction l as [|x l IH]; simpl; [apply reads_ret|].
  apply reads_bind; [apply Hf|]. intros y. apply reads_bind; [exact IH|].
  intros ys. apply reads_ret.
Qed.

Lemma reads_GET k : reads_only (GET k).
Proof. intros st. unfold GET. by repeat case_match. Qed.

Lemma reads_ZSCORE k m : reads_only (ZSCORE k m).
Proof. intros st. unfold ZSCORE. by repeat case_match. Qed.

Lemma reads_ZRANGE k a b : reads_only (ZRANGE k a b).
Proof. intros st. unfold ZRANGE. by repeat case_match. Qed.

Lemma reads_ZRANGEBYSCORE k lo hi o c : reads_only (ZRANGEBYSCORE k lo hi o c).
Proof. intros st. unfold ZRANGEBYSCORE. by repeat case_match. Qed.

Lemma reads_SCARD k : reads_only (SCARD k).
Proof. intros st. unfold SCARD. by repeat case_match. Qed.

Lemma reads_lua_ge a b : reads_only (lua_ge a b).
Proof. destruct b; [apply reads_ret | apply reads_raise]. Qed.

Create HintDb reads discriminated.
#[global] Hint Resolve reads_GET reads_ZSCORE reads_ZRANGE reads_ZRANGEBYSCORE
  reads_SCARD reads_lua_ge : reads.

Ltac solve_reads :=
  repeat first
    [ apply reads_ret
    | apply reads_raise
    | solve [auto with reads]
    | apply reads_bind; [|intros ?]
    | apply reads_mapM; intros ?
    | match goal with
      | |- reads_only (match ?x with _ => _ end) => destruct x
      | |- reads_only (let '(_, _) := ?x in _) => destruct x
      end ].

Lemma reads_limitOrDefault k d : reads_only (Lua.limitOrDefault k d).
Proof. unfold Lua.limitOrDefault. solve_reads. Qed.
#[global] Hint Resolve reads_limitOrDefault : reads.

Lemma reads_calculateMessageQueueCapacities qc ec oc ql el ol dq de do :
  reads_only (Lua.calculateMessageQueueCapacities qc ec oc ql el ol dq de do).
Proof. unfold Lua.calculateMessageQueueCapacities. solve_reads. Qed.
#[global] Hint Resolve reads_calculateMessageQueueCapacities : reads.

(** * The capacities script *)

Lemma cardinality_SCARD st k :
  SCARD k st = match cardinality st k with Some c => Done c st | None => Raised st end.
Proof. unfold SCARD, cardinality. by destruct (set_at st k). Qed.

Lemma limit_value_limitOrDefault st k d :
  Lua.limitOrDefault k d st
  = match st !! k with
    | None | Some (RString _) => Done (limit_value st k d) st
    | Some _ => Raised st
    end.
Proof.
  unfold Lua.limitOrDefault, limit_value, GET, mbind, cmd_bind.
  by destruct (st !! k) as [[]|].
Qed.

(** X4.  The capacities script never writes, and it replies with six
    numbers exactly when the three current sets and the three limits can be
    read; the numbers are then the cardinality and the limit (the value of
    the limit key, or the default when the key is missing) of the queue, of
    the environment and of the organisation, in this order. *)
Theorem capacities_script_reads_ceilings st
    currentConcurrencyKey currentEnvConcurrencyKey currentOrgConcurrencyKey
    concurrencyLimitKey envConcurrencyLimitKey orgConcurrencyLimitKey
    defaultConcurrencyLimit defaultEnvConcurrencyLimit defaultOrgConcurrencyLimit :
  let capacities :=
    Lua.calculateMessageQueueCapacities
      currentConcurrencyKey currentEnvConcurrencyKey currentOrgConcurrencyKey
      concurrencyLimitKey envConcurrencyLimitKey orgConcurrencyLimitKey
      defaultConcurrencyLimit defaultEnvConcurrencyLimit defaultOrgConcurrencyLimit in
  store_of (capacities st) = st
  ∧ ∀ cq lq ce le co lo,
      capacities st = Done [cq; lq; ce; le; co; lo] st
      ↔ (cardinality st currentConcurrencyKey = Some cq
         ∧ limit_value st concurrencyLimitKey defaultConcurrencyLimit = Some lq
         ∧ cardinality st currentEnvConcurrencyKey = Some ce
         ∧ limit_value st envConcurrencyLimitKey defaultEnvConcurrencyLimit = Some le
         ∧ cardinality st currentOrgConcurrencyKey = Some co
         ∧ limit_value st orgConcurrencyLimitKey defaultOrgConcurrencyLimit = Some lo).
Proof.
  intros capacities. split; [apply reads_calculateMessageQueueCapacities|].
  intros cq lq ce le co lo. unfold capacities, Lua.calculateMessageQueueCapacities.
  unfold Lua.limitOrDefault, SCARD, GET, cardinality, limit_value.
  unfold mbind, cmd_bind, mret, cmd_ret.
  destruct (set_at st currentOrgConcurrencyKey) as [so|]; simpl; [|naive_solver].
  destruct (st !! orgConcurrencyLimitKey) as [[vo| |]|]; simpl; try naive_solver;
  (destruct (set_at st currentEnvConcurrencyKey) as [se|]; simpl; [|naive_solver]);
  (destruct (st !! envConcurrencyLimitKey) as [[ve| |]|]; simpl; try naive_solver);
  (destruct (set_at st currentConcurrencyKey) as [sq|]; simpl; [|naive_solver]);
  (destruct (st !! concurrencyLimitKey) as [[vq| |]|]; simpl; try naive_solver);
  repeat (match goal with |- context [tonumber ?s] => destruct (tonumber s) end);
  simpl; naive_solver.
Qed.

(** * Concurrency limits *)

Section Limits.
Context {keys : MarQSKeyProducer}.

(** X5.  After [updateEnvConcurrencyLimits] the limit read under the
    organisation key is the organisation's maximum and the limit read under
    the environment key is the environment's maximum (the organisation's,
    should the two keys be one: it is written last); after
    [updateQueueConcurrencyLimits] the limit read under the queue's key is
    the given number, and a ceiling test against that key compares the
    given number with the cardinality of the current set.  No default is
    used then, and no other key changes. *)
Theorem updated_limits_are_read env queueName concurrency st defaultLimit :
  (∃ st', MarQS.updateEnvConcurrencyLimits env st = Done tt st'
     ∧ limit_value st' (orgConcurrencyLimitKey env) defaultLimit
       = Some (organizationMaximumConcurrencyLimit (organization env))
     ∧ limit_value st' (envConcurrencyLimitKey env) defaultLimit
       = Some (if decide (envConcurrencyLimitKey env = orgConcurrencyLimitKey env)
               then organizationMaximumConcurrencyLimit (organization env)
               else maximumConcurrencyLimit env)
     ∧ ∀ k, k ≠ envConcurrencyLimitKey env → k ≠ orgConcurrencyLimitKey env →
            st' !! k = st !! k)
  ∧ (∃ st', MarQS.updateQueueConcurrencyLimits env queueName concurrency st = Done tt st'
       ∧ limit_value st' (queueConcurrencyLimitKey env queueName) defaultLimit
         = Some concurrency
       ∧ (∀ k, k ≠ queueConcurrencyLimitKey env queueName → st' !! k = st !! k)
       ∧ ∀ currentKey c,
           currentKey ≠ queueConcurrencyLimitKey env queueName →
           cardinality st currentKey = Some c →
           ceiling_reached st' currentKey (queueConcurrencyLimitKey env queueName)
             defaultLimit = Some (concurrency <=? c)).
Proof.
  split.
  - eexists. split; [reflexivity|]. unfold limit_value. split_and!.
    + by rewrite lookup_insert_eq.
    + case_decide as E.
      * by rewrite E, lookup_insert_eq.
      * by rewrite lookup_insert_ne, lookup_insert_eq.
    + intros k H1 H2. by rewrite !lookup_insert_ne.
  - eexists. split; [reflexivity|]. split_and!.
    + unfold limit_value. by rewrite lookup_insert_eq.
    + intros k H1. by rewrite lookup_insert_ne.
    + intros currentKey c Hne Hc. unfold ceiling_reached, cardinality, set_at in *.
      rewrite lookup_insert_ne by done.
      destruct (st !! currentKey) as [[]|]; simplify_eq/=;
        unfold limit_value; by rewrite lookup_insert_eq.
Qed.

End Limits.

Lemma updated_limits_are_read_witness :
  let st : store := {[ "el:dev" := RString (SNumber 3) ]} in
  ∃ st', MarQS.updateEnvConcurrencyLimits (keys := Example.shortKeys) Example.dev st
         = Done tt st'
    ∧ limit_value st' "ol:acme" 25 = Some 10
    ∧ limit_value st' "el:dev" 25 = Some 10
    ∧ st' !! "cl:dev:Q" = st !! "cl:dev:Q".
Proof.
  intros st.
  destruct (updated_limits_are_read (keys := Example.shortKeys) Example.dev "Q" 1 st 25)
    as [(st' & Hrun & Horg & Henv & Hframe) _].
  exists st'. split_and!; [done|done|done|].
  apply Hframe; discriminate.
Defined.

(** * Queue selection and the dequeue operations *)

Section Selection.
Context {keys : MarQSKeyProducer}.
Variable options : MarQSOptions.

Lemma reads_readMessage id : reads_only (MarQS.readMessage id).
Proof. unfold MarQS.readMessage. solve_reads. Qed.

Lemma reads_getRandomQueueFromParentQueue now parentQueue strategy :
  reads_only (MarQS.getRandomQueueFromParentQueue options now parentQueue strategy
                (MarQS.calculateMessageQueueCapacities options)).
Proof.
  unfold MarQS.getRandomQueueFromParentQueue, MarQS.zrangeWithScores,
    MarQS.calculateQueueScores, MarQS.calculateMessageQueueCapacities,
    MarQS.callCalculateMessageCapacities.
  solve_reads.
Qed.

(** The store after a dequeue from [parentQueue] with [strategy]: the store
    before it, or the store the dequeue script leaves on some child queue
    with the keys made from that queue. *)
Lemma dequeue_body_writes now parentQueue strategy st :
  let st' :=
    store_of
      ((messageQueue ← MarQS.getRandomQueueFromParentQueue options now parentQueue
                         strategy (MarQS.calculateMessageQueueCapacities options);
        match messageQueue with
        | None | Some "" => mret None
        | Some messageQueue =>
            messageData ← MarQS.callDequeueMessage options now messageQueue parentQueue
                             constants.MESSAGE_VISIBILITY_TIMEOUT_QUEUE
                             (concurrencyLimitKeyFromQueue messageQueue)
                             (envConcurrencyLimitKeyFromQueue messageQueue)
                             (orgConcurrencyLimitKeyFromQueue messageQueue)
                             (currentConcurrencyKeyFromQueue messageQueue)
                             (envCurrentConcurrencyKeyFromQueue messageQueue)
                             (orgCurrentConcurrencyKeyFromQueue messageQueue);
            match messageData with
            | None => mret None
            | Some messageData => MarQS.readMessage (replyMessageId messageData)
            end
        end) st) in
  written_by_dequeue_script options now parentQueue st st'.
Proof.
  intros st'. subst st'. unfold written_by_dequeue_script.
  pose proof (reads_getRandomQueueFromParentQueue now parentQueue strategy st) as Hsel.
  destruct (MarQS.getRandomQueueFromParentQueue options now parentQueue strategy
              (MarQS.calculateMessageQueueCapacities options) st)
    as [[mq|] st1|st1] eqn:E; simpl in Hsel; subst st1.
  - rewrite (bind_done _ _ _ _ _ E). destruct mq as [|a mq]; [by left|].
    right. exists (String a mq).
    unfold MarQS.callDequeueMessage, mbind, cmd_bind, mret, cmd_ret.
    destruct (Lua.dequeueMessage _ _ _ _ _ _ _ _ _ _ _ _ _ _ _ st)
      as [[[id sc]|] st1|st1]; simpl.
    + apply reads_readMessage.
    + done.
    + done.
  - rewrite (bind_done _ _ _ _ _ E). by left.
  - rewrite (bind_raised _ _ _ _ E). by left.
Qed.

(** X6.  Choosing a queue never writes to the store, whatever the parent
    queue holds and whatever the strategy answers; nor does reading a
    message body. *)
Theorem queue_selection_reads_only now parentQueue strategy messageId st :
  store_of (MarQS.getRandomQueueFromParentQueue options now parentQueue strategy
              (MarQS.calculateMessageQueueCapacities options) st) = st
  ∧ store_of (MarQS.readMessage messageId st) = st.
Proof.
  split; [apply reads_getRandomQueueFromParentQueue | apply reads_readMessage].
Qed.

(** X7.  A dequeue, from an environment or from the shared queue, changes
    the store by one run of the dequeue script at most: the store after it
    is the store before it, or the store that the script leaves when run on
    some child queue, with the limit and current-concurrency keys made from
    that queue, the operation's parent queue and the visibility queue. *)
Theorem dequeue_writes_through_script now env st :
  written_by_dequeue_script options now (envSharedQueueKey env) st
    (store_of (MarQS.dequeueMessageInEnv options now env st))
  ∧ written_by_dequeue_script options now constants.SHARED_QUEUE st
      (store_of (MarQS.dequeueMessageInSharedQueue options now st)).
Proof. split; apply dequeue_body_writes. Qed.

End Selection.

(** * More on the heartbeat *)

(** X8.  On a visibility queue that can be read, the heartbeat script
    completes and touches one score at most: no member is added or removed,
    every other member keeps its score, every other key keeps its value, and
    the score of the id is as before or not later than the clamp. *)
Theorem heartbeat_touches_one_score st visibilityQueue messageId milliseconds
    maxVisibilityTimeout zv :
  zset_at st visibilityQueue = Some zv →
  ∃ st' zv',
    Lua.heartbeatMessage visibilityQueue messageId milliseconds maxVisibilityTimeout st
    = Done tt st'
    ∧ zset_at st' visibilityQueue = Some zv'
    ∧ dom zv' = dom zv
    ∧ (∀ m, m ≠ messageId → zv' !! m = zv !! m)
    ∧ (zv' !! messageId = zv !! messageId
       ∨ ∃ d, zv' !! messageId = Some d ∧ d ≤ maxVisibilityTimeout)
    ∧ ∀ k, k ≠ visibilityQueue → st' !! k = st !! k.
Proof.
  intros Hv.
  assert (∀ s, zv !! messageId = s → s = None ∨ s = Some 0 →
            ∃ st' zv',
              Lua.heartbeatMessage visibilityQueue messageId milliseconds
                maxVisibilityTimeout st = Done tt st'
              ∧ zset_at st' visibilityQueue = Some zv' ∧ dom zv' = dom zv
              ∧ (∀ m, m ≠ messageId → zv' !! m = zv !! m)
              ∧ (zv' !! messageId = zv !! messageId
                 ∨ ∃ d, zv' !! messageId = Some d ∧ d ≤ maxVisibilityTimeout)
              ∧ ∀ k, k ≠ visibilityQueue → st' !! k = st !! k) as Hnoop.
  { intros s Hs Hcase. exists st, zv. split_and!; try done; [|by left].
    unfold Lua.heartbeatMessage.
    rewrite (bind_done _ _ _ _ _ (scoreOrZero_done _ _ _ messageId Hv)), Hs.
    by destruct Hcase as [-> | ->]. }
  destruct (zv !! messageId) as [s|] eqn:Hs; [|by eapply Hnoop; eauto].
  destruct (decide (s = 0)) as [->|Hne]; [by eapply Hnoop; eauto|].
  rewrite (heartbeat_script_present _ _ _ _ _ _ _ Hv Hs Hne).
  eexists _, _. split; [done|]. split; [apply zset_at_put_zset|]. split_and!.
  - rewrite dom_insert_L. apply elem_of_dom_2 in Hs. set_solver.
  - intros m Hm. by rewrite lookup_insert_ne.
  - right. eexists. rewrite lookup_insert_eq. split; [done|]. lia.
  - intros k Hk. by rewrite lookup_put_zset_ne.
Qed.

Lemma heartbeat_touches_one_score_witness :
  let st : store := {[ Example.VIS := RZSet {[ "a" := 800; "b" := 900 ]} ]} in
  ∃ st' zv',
    Lua.heartbeatMessage Example.VIS "a" 1000 1200 st = Done tt st'
    ∧ zset_at st' Example.VIS = Some zv'
    ∧ zv' !! "b" = Some 900
    ∧ ∃ d, zv' !! "a" = Some d ∧ d ≤ 1200.
Proof.
  intros st.
  destruct (heartbeat_touches_one_score st Example.VIS "a" 1000 1200
              {[ "a" := 800; "b" := 900 ]} ltac:(reflexivity))
    as (st' & zv' & Hrun & Hv & _ & Hothers & Hid & _).
  exists st', zv'. split_and!; [done|done| |].
  - rewrite Hothers by discriminate. reflexivity.
  - destruct Hid as [Hid|Hid]; [|done]. exists 800. split; [by rewrite Hid|lia].
Defined.

(** X9.  A broker heartbeat of a non-negative number of seconds never
    shortens a lease that is not later than the current time plus the
    visibility timeout: the new deadline lies between the old one and that
    bound. *)
Theorem heartbeat_never_shortens options st messageId d now seconds :
  deadline st constants.MESSAGE_VISIBILITY_TIMEOUT_QUEUE messageId = Some d →
  0 ≤ default 30 seconds →
  d ≤ now + MarQS.visibilityTimeoutInMs options →
  ∃ st' d',
    MarQS.heartbeatMessage options now messageId seconds st = Done tt st'
    ∧ deadline st' constants.MESSAGE_VISIBILITY_TIMEOUT_QUEUE messageId = Some d'
    ∧ d ≤ d' ≤ now + MarQS.visibilityTimeoutInMs options.
Proof.
  intros Hd Hsec Hle. unfold deadline in *.
  destruct (zset_at st constants.MESSAGE_VISIBILITY_TIMEOUT_QUEUE) as [zv|] eqn:Hv;
    [|done].
  simpl in Hd. unfold MarQS.heartbeatMessage, MarQS.callHeartbeatMessage.
  destruct (decide (d = 0)) as [->|Hne].
  - exists st, 0. unfold Lua.heartbeatMessage.
    rewrite (bind_done _ _ _ _ _ (scoreOrZero_done _ _ _ messageId Hv)), Hd. simpl.
    rewrite Hv. simpl. split_and!; [done|done|lia|lia].
  - rewrite (heartbeat_script_present _ _ _ _ _ _ _ Hv Hd Hne).
    eexists _, _. split; [done|]. rewrite zset_at_put_zset. simpl.
    rewrite lookup_insert_eq. split; [done|]. lia.
Qed.

Lemma heartbeat_never_shortens_witness :
  let options := Example.exampleOptions 500 in
  let st : store := {[ Example.VIS := RZSet {[ "a" := 800 ]} ]} in
  ∃ st' d',
    MarQS.heartbeatMessage options 400 "a" None st = Done tt st'
    ∧ deadline st' constants.MESSAGE_VISIBILITY_TIMEOUT_QUEUE "a" = Some d'
    ∧ 800 ≤ d' ≤ 400 + MarQS.visibilityTimeoutInMs options.
Proof.
  intros options st.
  apply (heartbeat_never_shortens options st "a" 800 400 None).
  - reflexivity.
  - simpl. lia.
  - change (MarQS.visibilityTimeoutInMs options) with 500. lia.
Defined.

(** * A nack with a later score *)

Section NackThenDequeue.
Variables (messageKey childQueueKey parentQueueKey : string).
Variables (concurrencyKey envConcurrencyKey orgConcurrencyKey visibilityQueue : string).
Variables (childQueueName messageId : string) (currentTime messageScore : Z).

(** X10.  After the nack script has put an id back into its child queue at
    a score, no run of the dequeue script on that child queue at an earlier
    time returns the id, whatever its other keys and arguments. *)
Theorem nacked_message_waits st s zc zp zv sq se so :
  zset_at st visibilityQueue = Some zv →
  zv !! messageId = Some s → s ≠ 0 →
  keys_apart childQueueKey parentQueueKey visibilityQueue
    concurrencyKey envConcurrencyKey orgConcurrencyKey →
  zset_at st childQueueKey = Some zc → zset_at st parentQueueKey = Some zp →
  set_at st concurrencyKey = Some sq →
  set_at st envConcurrencyKey = Some se →
  set_at st orgConcurrencyKey = Some so →
  ∃ st',
    Lua.nackMessage messageKey childQueueKey parentQueueKey concurrencyKey
      envConcurrencyKey orgConcurrencyKey visibilityQueue childQueueName messageId
      currentTime messageScore st = Done tt st'
    ∧ ∀ parentQueue' visibilityQueue' concurrencyLimitKey envConcurrencyLimitKey
        orgConcurrencyLimitKey currentConcurrencyKey envCurrentConcurrencyKey
        orgCurrentConcurrencyKey childQueueName' visibilityTimeout now
        defaultConcurrencyLimit defaultEnvConcurrencyLimit defaultOrgConcurrencyLimit
        reply st'',
        now < messageScore →
        Lua.dequeueMessage childQueueKey parentQueue' visibilityQueue'
          concurrencyLimitKey envConcurrencyLimitKey orgConcurrencyLimitKey
          currentConcurrencyKey envCurrentConcurrencyKey orgCurrentConcurrencyKey
          childQueueName' visibilityTimeout now
          defaultConcurrencyLimit defaultEnvConcurrencyLimit defaultOrgConcurrencyLimit
          st' = Done reply st'' →
        ∀ sc, reply ≠ Some (messageId, sc).
Proof.
  intros Hv Hs Hne Hapart Hc Hp Hq He Ho.
  rewrite (nack_guard _ _ _ _ _ _ _ _ _ _ _ st zv Hv), Hs. simpl.
  destruct (s =? 0) eqn:E; [lia|].
  destruct (requeue_run childQueueKey parentQueueKey concurrencyKey
              envConcurrencyKey orgConcurrencyKey visibilityQueue childQueueName
              messageId messageScore st zc zp zv sq se so
              Hapart Hc Hp Hv Hq He Ho)
    as (st' & Hrun & _ & Hc' & _).
  exists st'. split; [done|].
  intros ? ? ? ? ? ? ? ? ? ? now ? ? ? reply st'' Hnow Hdeq sc ->.
  apply dequeue_inv in Hdeq as [[? _]|(zc' & id' & sc' & l & Hzc & Hdue & Hr & _)];
    [done|].
  injection Hr as <- <-. rewrite Hc' in Hzc. injection Hzc as <-.
  apply first_due_entry in Hdue as (Hm & Hle & _).
  rewrite lookup_insert_eq in Hm. injection Hm as <-. lia.
Qed.

End NackThenDequeue.

Lemma nacked_message_waits_witness :
  let child := "queue:acme:dev:Q" in
  let st : store := {[ Example.VIS := RZSet {[ "a" := 800 ]};
                      "cc:dev:Q" := RSet {[ "a" ]};
                      "ecc:dev" := RSet {[ "a" ]};
                      "occ:acme" := RSet {[ "a" ]} ]} in
  ∃ st',
    Lua.nackMessage "message:a" child "env:dev:sharedQueue" "cc:dev:Q" "ecc:dev"
      "occ:acme" Example.VIS child "a" 900 2000 st = Done tt st'
    ∧ Lua.dequeueMessage child "env:dev:sharedQueue" Example.VIS
        "cl:dev:Q" "el:dev" "ol:acme" "cc:dev:Q" "ecc:dev" "occ:acme"
        child 500 1999 10 10 10 st' = Done None st'.
Proof.
  intros child st.
  destruct (nacked_message_waits "message:a" child "env:dev:sharedQueue" "cc:dev:Q"
              "ecc:dev" "occ:acme" Example.VIS child "a" 900 2000 st 800 ∅ ∅
              {[ "a" := 800 ]} {[ "a" ]} {[ "a" ]} {[ "a" ]}
              ltac:(reflexivity) ltac:(reflexivity) ltac:(lia) ltac:(compute_done)
              ltac:(reflexivity) ltac:(reflexivity) ltac:(reflexivity)
              ltac:(reflexivity) ltac:(reflexivity))
    as (st' & Hrun & Hwait).
  exists st'. split; [done|].
  assert (st' = store_of (Lua.nackMessage "message:a" child "env:dev:sharedQueue"
                            "cc:dev:Q" "ecc:dev" "occ:acme" Example.VIS child "a"
                            900 2000 st)) as -> by (by rewrite Hrun).
  vm_compute. reflexivity.
Defined.

(** * The dequeue script and the limits *)

Lemma size_add_le (s : gset string) (m : string) :
  (size ({[m]} ∪ s) ≤ 1 + size s)%nat.
Proof.
  rewrite size_union_alt, size_singleton.
  pose proof (subseteq_size (s ∖ {[m]}) s ltac:(set_solver)). lia.
Qed.

Lemma ceiling_reached_readings st cur lim dflt b :
  ceiling_reached st cur lim dflt = Some b →
  ∃ s l, set_at st cur = Some s ∧ limit_value st lim dflt = Some l
       ∧ b = (l <=? Z.of_nat (size s)).
Proof.
  unfold ceiling_reached, cardinality.
  destruct (set_at st cur) as [s|]; [|done]. simpl.
  destruct (limit_value st lim dflt) as [l|]; [|done]. simpl.
  intros [= <-]. eauto.
Qed.

Section DequeueLimits.
Variables (childQueue parentQueue visibilityQueue : string).
Variables (concurrencyLimitKey envConcurrencyLimitKey orgConcurrencyLimitKey : string).
Variables (currentConcurrencyKey envCurrentConcurrencyKey orgCurrentConcurrencyKey : string).
Variables (childQueueName : string) (visibilityTimeout currentTime : Z).
Variables (defaultConcurrencyLimit defaultEnvConcurrencyLimit defaultOrgConcurrencyLimit : Z).

Local Abbreviation dequeue :=
  (Lua.dequeueMessage childQueue parentQueue visibilityQueue
     concurrencyLimitKey envConcurrencyLimitKey orgConcurrencyLimitKey
     currentConcurrencyKey envCurrentConcurrencyKey orgCurrentConcurrencyKey
     childQueueName visibilityTimeout currentTime
     defaultConcurrencyLimit defaultEnvConcurrencyLimit defaultOrgConcurrencyLimit).

(** X11.  With the keys apart and the three ceilings readable, the dequeue
    script completes and pushes no current-concurrency set past its limit:
    the cardinality of each set after the script is at most the larger of
    its cardinality before and its limit. *)
Theorem dequeue_stays_within_limits st zc zp zv bo be bq :
  keys_apart childQueue parentQueue visibilityQueue
    currentConcurrencyKey envCurrentConcurrencyKey orgCurrentConcurrencyKey →
  zset_at st childQueue = Some zc → zset_at st parentQueue = Some zp →
  zset_at st visibilityQueue = Some zv →
  ceiling_reached st orgCurrentConcurrencyKey orgConcurrencyLimitKey
    defaultOrgConcurrencyLimit = Some bo →
  ceiling_reached st envCurrentConcurrencyKey envConcurrencyLimitKey
    defaultEnvConcurrencyLimit = Some be →
  ceiling_reached st currentConcurrencyKey concurrencyLimitKey
    defaultConcurrencyLimit = Some bq →
  ∃ reply st',
    dequeue st = Done reply st'
    ∧ Forall (λ level : string * string * Z,
                let '(currentKey, limitKey, defaultLimit) := level in
                ∃ c c' l,
                  cardinality st currentKey = Some c
                  ∧ limit_value st limitKey defaultLimit = Some l
                  ∧ cardinality st' currentKey = Some c'
                  ∧ c' ≤ Z.max c l)
        [(currentConcurrencyKey, concurrencyLimitKey, defaultConcurrencyLimit);
         (envCurrentConcurrencyKey, envConcurrencyLimitKey, defaultEnvConcurrencyLimit);
         (orgCurrentConcurrencyKey, orgConcurrencyLimitKey, defaultOrgConcurrencyLimit)].
Proof.
  intros Hapart Hc Hp Hv Ho He Hq.
  destruct (ceiling_reached_readings _ _ _ _ _ Ho) as (so & lo & Hso & Hlo & Ebo).
  destruct (ceiling_reached_readings _ _ _ _ _ He) as (se & le & Hse & Hle & Ebe).
  destruct (ceiling_reached_readings _ _ _ _ _ Hq) as (sq & lq & Hsq & Hlq & Ebq).
  assert (∀ st',
            set_at st' currentConcurrencyKey = Some sq →
            set_at st' envCurrentConcurrencyKey = Some se →
            set_at st' orgCurrentConcurrencyKey = Some so →
            Forall (λ level : string * string * Z,
                let '(currentKey, limitKey, defaultLimit) := level in
                ∃ c c' l,
                  cardinality st currentKey = Some c
                  ∧ limit_value st limitKey defaultLimit = Some l
                  ∧ cardinality st' currentKey = Some c'
                  ∧ c' ≤ Z.max c l)
        [(currentConcurrencyKey, concurrencyLimitKey, defaultConcurrencyLimit);
         (envCurrentConcurrencyKey, envConcurrencyLimitKey, defaultEnvConcurrencyLimit);
         (orgCurrentConcurrencyKey, orgConcurrencyLimitKey, defaultOrgConcurrencyLimit)])
    as Hsame.
  { intros st' H1 H2 H3. unfold cardinality.
    repeat constructor; eexists _, _, _; rewrite ?Hsq, ?Hse, ?Hso, ?H1, ?H2, ?H3;
      simpl; (split_and!; [done|done|done|lia]). }
  destruct bo.
  { exists None, st. split; [|by apply Hsame].
    unfold Lua.dequeueMessage. by rewrite (ceiling_check_run _ _ _ _ _ _ Ho). }
  destruct be.
  { exists None, st. split; [|by apply Hsame].
    unfold Lua.dequeueMessage.
    by rewrite (ceiling_check_run _ _ _ _ _ _ Ho), (ceiling_check_run _ _ _ _ _ _ He). }
  destruct bq.
  { exists None, st. split; [|by apply Hsame].
    unfold Lua.dequeueMessage.
    by rewrite (ceiling_check_run _ _ _ _ _ _ Ho), (ceiling_check_run _ _ _ _ _ _ He),
      (ceiling_check_run _ _ _ _ _ _ Hq). }
  rewrite (dequeue_run _ _ _ _ _ _ _ _ _ _ _ _ _ _ _ st zc Ho He Hq Hc).
  destruct (zrangebyscore_entries zc None currentTime 0 1) as [|[id sc] l].
  { exists None, st. split; [done|by apply Hsame]. }
  destruct (move_run childQueue parentQueue visibilityQueue currentConcurrencyKey
              envCurrentConcurrencyKey orgCurrentConcurrencyKey childQueueName
              visibilityTimeout currentTime st zc zp zv sq se so id
              Hapart Hc Hp Hv Hsq Hse Hso)
    as (st' & Hrun & _ & _ & Hq' & He' & Ho').
  exists (Some (id, sc)), st'. split; [by rewrite (bind_done _ _ _ _ _ Hrun)|].
  unfold cardinality.
  pose proof (size_add_le sq id). pose proof (size_add_le se id).
  pose proof (size_add_le so id).
  repeat constructor; eexists _, _, _;
    rewrite ?Hsq, ?Hse, ?Hso, ?Hq', ?He', ?Ho'; simpl;
    (split_and!; [done|done|done|lia]).
Qed.

End DequeueLimits.

Lemma dequeue_stays_within_limits_witness :
  let child := "queue:acme:dev:Q" in
  let st : store := {[ child := RZSet {[ "b" := 200 ]};
                      "env:dev:sharedQueue" := RZSet {[ child := 200 ]};
                      "cl:dev:Q" := RString (SNumber 2);
                      "cc:dev:Q" := RSet {[ "a" ]};
                      "ecc:dev" := RSet {[ "a" ]};
                      "occ:acme" := RSet {[ "a" ]} ]} in
  ∃ reply st',
    Lua.dequeueMessage child "env:dev:sharedQueue" Example.VIS
      "cl:dev:Q" "el:dev" "ol:acme" "cc:dev:Q" "ecc:dev" "occ:acme"
      child 500 300 10 10 10 st = Done reply st'
    ∧ ∃ c', cardinality st' "cc:dev:Q" = Some c' ∧ c' ≤ 2.
Proof.
  intros child st.
  destruct (dequeue_stays_within_limits child "env:dev:sharedQueue" Example.VIS
              "cl:dev:Q" "el:dev" "ol:acme" "cc:dev:Q" "ecc:dev" "occ:acme"
              child 500 300 10 10 10 st {[ "b" := 200 ]} {[ child := 200 ]} ∅
              false false false
              ltac:(compute_done) ltac:(reflexivity) ltac:(reflexivity)
              ltac:(reflexivity) ltac:(reflexivity) ltac:(reflexivity)
              ltac:(reflexivity))
    as (reply & st' & Hrun & Hlevels).
  exists reply, st'. split; [done|].
  apply Forall_cons in Hlevels as [(c & c' & l & Hc & Hl & Hc' & Hle) _].
  exists c'. split; [done|].
  vm_compute in Hc, Hl. injection Hc as <-. injection Hl as <-. lia.
Defined.

(** * A nack at the original score *)

Section DequeueThenNack.
Variables (childQueue parentQueue visibilityQueue : string).
Variables (concurrencyLimitKey envConcurrencyLimitKey orgConcurrencyLimitKey : string).
Variables (currentConcurrencyKey envCurrentConcurrencyKey orgCurrentConcurrencyKey : string).
Variables (childQueueName : string) (visibilityTimeout currentTime : Z).
Variables (defaultConcurrencyLimit defaultEnvConcurrencyLimit defaultOrgConcurrencyLimit : Z).

(** X12.  A nack at the score the dequeue script returned undoes the
    dequeue: for a message that was not in flight before, the child queue,
    the visibility queue and the three current-concurrency sets are again
    what they were before the dequeue, and the parent queue holds the child
    at its least score.  This is what the requeuer does to an expired
    message whose body carries the score it was enqueued at. *)
Theorem nack_at_original_score_undoes_dequeue st st1 id sc zc zp zv sq se so
    messageKey nackTime :
  keys_apart childQueue parentQueue visibilityQueue
    currentConcurrencyKey envCurrentConcurrencyKey orgCurrentConcurrencyKey →
  zset_at st childQueue = Some zc → zset_at st parentQueue = Some zp →
  zset_at st visibilityQueue = Some zv →
  set_at st currentConcurrencyKey = Some sq →
  set_at st envCurrentConcurrencyKey = Some se →
  set_at st orgCurrentConcurrencyKey = Some so →
  zv !! id = None → id ∉ sq → id ∉ se → id ∉ so →
  currentTime + visibilityTimeout ≠ 0 →
  Lua.dequeueMessage childQueue parentQueue visibilityQueue
    concurrencyLimitKey envConcurrencyLimitKey orgConcurrencyLimitKey
    currentConcurrencyKey envCurrentConcurrencyKey orgCurrentConcurrencyKey
    childQueueName visibilityTimeout currentTime
    defaultConcurrencyLimit defaultEnvConcurrencyLimit defaultOrgConcurrencyLimit st
  = Done (Some (id, sc)) st1 →
  ∃ st2,
    Lua.nackMessage messageKey childQueue parentQueue currentConcurrencyKey
      envCurrentConcurrencyKey orgCurrentConcurrencyKey visibilityQueue childQueueName
      id nackTime sc st1 = Done tt st2
    ∧ zset_at st2 childQueue = Some zc
    ∧ zset_at st2 visibilityQueue = Some zv
    ∧ set_at st2 currentConcurrencyKey = Some sq
    ∧ set_at st2 envCurrentConcurrencyKey = Some se
    ∧ set_at st2 orgCurrentConcurrencyKey = Some so
    ∧ parent_balanced st2 childQueue parentQueue childQueueName.
Proof.
  intros Hapart Hc Hp Hv Hq He Ho Hfresh Hnq Hne Hno Hlease Hdeq.
  apply dequeue_inv in Hdeq as [[? _]|(zc' & id' & sc' & l & Hzc & Hdue & Hr & Hmove)];
    [done|].
  injection Hr as <- <-. rewrite Hc in Hzc. injection Hzc as <-.
  apply first_due_entry in Hdue as (Hid & _ & _).
  destruct (move_run childQueue parentQueue visibilityQueue currentConcurrencyKey
              envCurrentConcurrencyKey orgCurrentConcurrencyKey childQueueName
              visibilityTimeout currentTime st zc zp zv sq se so id
              Hapart Hc Hp Hv Hq He Ho)
    as (st1' & Hrun & Hc1 & Hv1 & Hq1 & He1 & Ho1).
  rewrite Hmove in Hrun. injection Hrun as <-.
  assert (∃ zp1, zset_at st1 parentQueue = Some zp1) as [zp1 Hp1].
  { apply bind_inv in Hmove as ([] & s1 & _ & H).
    apply bind_inv in H as ([] & s2 & _ & H).
    apply bind_inv in H as ([] & s3 & _ & H).
    apply bind_inv in H as ([] & s4 & _ & H).
    apply bind_inv in H as ([] & s5 & _ & H).
    apply rebalance_balanced in H as (? & zp1 & _ & ? & _). eauto. }
  rewrite (nack_guard messageKey childQueue parentQueue currentConcurrencyKey
             envCurrentConcurrencyKey orgCurrentConcurrencyKey visibilityQueue
             childQueueName id nackTime sc st1 _ Hv1).
  rewrite lookup_insert_eq. simpl.
  destruct (currentTime + visibilityTimeout =? 0) eqn:E; [lia|].
  destruct (requeue_run childQueue parentQueue currentConcurrencyKey
              envCurrentConcurrencyKey orgCurrentConcurrencyKey visibilityQueue
              childQueueName id sc st1 _ _ _ _ _ _ Hapart Hc1 Hp1 Hv1 Hq1 He1 Ho1)
    as (st2 & Hrun & Hv2 & Hc2 & Hq2 & He2 & Ho2).
  exists st2. split; [done|].
  rewrite Hc2, Hv2, Hq2, He2, Ho2.
  rewrite insert_delete_id by done. rewrite delete_insert_id by done.
  assert (∀ s : gset string, id ∉ s → ({[id]} ∪ s) ∖ {[id]} = s) as Hset
    by (intros; set_solver).
  rewrite !Hset by done. split_and!; [done..|].
  apply bind_inv in Hrun as ([] & s1 & _ & H).
  apply bind_inv in H as ([] & s2 & _ & H).
  apply bind_inv in H as ([] & s3 & _ & H).
  apply bind_inv in H as ([] & s4 & _ & H).
  apply bind_inv in H as ([] & s5 & _ & H).
  by apply rebalance_balanced in H.
Qed.

End DequeueThenNack.

Lemma nack_at_original_score_undoes_dequeue_witness :
  let child := "queue:acme:dev:Q" in
  let parent := "env:dev:sharedQueue" in
  let st : store := {[ child := RZSet {[ "a" := 100; "b" := 200 ]};
                      parent := RZSet {[ child := 100 ]} ]} in
  let st1 := store_of (Lua.dequeueMessage child parent Example.VIS
                         "cl:dev:Q" "el:dev" "ol:acme" "cc:dev:Q" "ecc:dev" "occ:acme"
                         child 500 300 10 10 10 st) in
  ∃ st2,
    Lua.nackMessage "message:a" child parent "cc:dev:Q" "ecc:dev" "occ:acme"
      Example.VIS child "a" 900 100 st1 = Done tt st2
    ∧ zset_at st2 child = Some {[ "a" := 100; "b" := 200 ]}
    ∧ zset_at st2 Example.VIS = Some ∅.
Proof.
  intros child parent st st1.
  destruct (nack_at_original_score_undoes_dequeue child parent Example.VIS
              "cl:dev:Q" "el:dev" "ol:acme" "cc:dev:Q" "ecc:dev" "occ:acme"
              child 500 300 10 10 10 st st1 "a" 100
              {[ "a" := 100; "b" := 200 ]} {[ child := 100 ]} ∅ ∅ ∅ ∅
              "message:a" 900
              ltac:(compute_done) ltac:(reflexivity) ltac:(reflexivity)
              ltac:(reflexivity) ltac:(reflexivity) ltac:(reflexivity)
              ltac:(reflexivity) ltac:(reflexivity)
              ltac:(apply not_elem_of_empty) ltac:(apply not_elem_of_empty)
              ltac:(apply not_elem_of_empty) ltac:(lia)
              ltac:(vm_compute; reflexivity))
    as (st2 & Hrun & Hc & Hv & _).
  exists st2. auto.
Defined.

(** * The requeuer with nothing to do *)

Section RequeuerIdle.
Context {keys : MarQSKeyProducer}.

(** X15.  When no deadline in the visibility queue lies between 0 and the
    current time, a requeuer cycle changes nothing; in particular a message
    with a negative deadline is never requeued. *)
Theorem requeuer_idle now st zv :
  zset_at st constants.MESSAGE_VISIBILITY_TIMEOUT_QUEUE = Some zv →
  (∀ m s, zv !! m = Some s → s < 0 ∨ now < s) →
  MarQS.requeueVisibleMessages now st = Done tt st.
Proof.
  intros Hv Hnone.
  assert (zrangebyscore_entries zv (Some 0) now 0 10 = []) as Hempty.
  { destruct (zrangebyscore_entries zv (Some 0) now 0 10) as [|e l] eqn:E; [done|].
    assert (e ∈ zrangebyscore_entries zv (Some 0) now 0 10) as He
      by (rewrite E; apply elem_of_cons; auto).
    apply take_filter_range in He as [Hm Hr]. apply Hnone in Hm.
    simpl in Hr. lia. }
  unfold MarQS.requeueVisibleMessages, MarQS.expiredMessages, ZRANGEBYSCORE,
    mbind, cmd_bind.
  by rewrite Hv, Hempty.
Qed.

End RequeuerIdle.

Lemma requeuer_idle_witness :
  let st : store := {[ Example.VIS := RZSet {[ "a" := 800; "b" := -5 ]} ]} in
  MarQS.requeueVisibleMessages (keys := Example.shortKeys) 700 st = Done tt st.
Proof.
  intros st.
  apply (requeuer_idle (keys := Example.shortKeys) 700 st {[ "a" := 800; "b" := -5 ]}).
  - reflexivity.
  - intros m s Hm.
    destruct (decide (m = "a")) as [->|Ha].
    + vm_compute in Hm. injection Hm as <-. lia.
    + destruct (decide (m = "b")) as [->|Hb].
      * vm_compute in Hm. injection Hm as <-. lia.
      * rewrite lookup_insert_ne, lookup_singleton_ne in Hm by done. done.
Defined.

(** * Replacing and acknowledging through the broker *)

Lemma enqueue_done st st' queue parentQueue messageKey queueName messageId messageData
    messageScore :
  Lua.enqueueMessage queue parentQueue messageKey queueName messageId messageData
    messageScore st = Done tt st' →
  st' !! messageKey = Some (RString messageData)
  ∧ (queue ≠ parentQueue →
     ∃ zc, zset_at st' queue = Some zc ∧ zc !! messageId = Some messageScore)
  ∧ ∀ k, k ≠ messageKey → k ≠ queue → k ≠ parentQueue → st' !! k = st !! k.
Proof.
  unfold Lua.enqueueMessage. intros H.
  apply bind_inv in H as ([] & s1 & H1 & H). injection H1 as <-.
  apply bind_inv in H as ([] & s2 & H2 & H).
  pose proof (rebalance_frame _ _ _ _ _ H) as Hframe.
  split_and!.
  - pose proof (keeps_ZADD queue messageScore messageId
                  (<[messageKey := RString messageData]> st) messageKey messageData
                  (lookup_insert_eq _ _ _)) as Hb.
    rewrite H2 in Hb. simpl in Hb.
    pose proof (keeps_rebalanceParentQueue queue parentQueue queueName s2 _ _ Hb) as Hb'.
    by rewrite H in Hb'.
  - intros Hne. apply ZADD_inv in H2 as (z & _ & Hq & _).
    exists (<[messageId := messageScore]> z).
    rewrite (zset_at_frame s2 st') by by apply Hframe.
    split; [done|apply lookup_insert_eq].
  - intros k Hk1 Hk2 Hk3. apply ZADD_inv in H2 as (z & _ & _ & Hf).
    rewrite Hframe, Hf by done. by rewrite lookup_insert_ne.
Qed.

Section ReplaceAndAck.
Context {keys : MarQSKeyProducer}.

(** X13.  When [replaceMessage] completes on a message that has a body,
    the message reads back with the new data, the new timestamp (the current
    time when none is given) and the id, queue, parent queue and concurrency
    key it had; it is queued at that timestamp when its queue key differs
    from its parent key, and it is not in flight when the visibility queue
    is none of its keys. *)
Theorem replace_keeps_identity now id newData newTimestamp st st' m :
  st !! messageKey id = Some (RString (SPayload m)) →
  MarQS.replaceMessage now id newData newTimestamp st = Done tt st' →
  MarQS.readMessage id st'
  = Done (Some {| version := "1"; data := newData; queue := queue m;
                  concurrencyKey := concurrencyKey m;
                  timestamp := default now newTimestamp;
                  messageId := id; parentQueue := parentQueue m |}) st'
  ∧ (queue m ≠ parentQueue m →
     ∃ zc, zset_at st' (queue m) = Some zc
         ∧ zc !! id = Some (default now newTimestamp))
  ∧ (constants.MESSAGE_VISIBILITY_TIMEOUT_QUEUE
       ∉ [messageKey id; queue m; parentQueue m] →
     deadline st' constants.MESSAGE_VISIBILITY_TIMEOUT_QUEUE id = None).
Proof.
  intros Hbody H. unfold MarQS.replaceMessage in H.
  rewrite (bind_done _ _ _ _ _ (readMessage_payload _ _ _ Hbody)) in H.
  apply bind_inv in H as ([] & s1 & Hack & Henq).
  unfold MarQS.callAcknowledgeMessage in Hack.
  unfold MarQS.callEnqueueMessage, JSON_stringify in Henq. simpl in Henq.
  apply ack_inv in Hack as (_ & Hvis & _).
  apply enqueue_done in Henq as (Hb & Hq & Hframe).
  split_and!.
  - by apply readMessage_payload.
  - done.
  - intros Hnot. unfold deadline, zset_at.
    rewrite Hframe by (intros E; apply Hnot; rewrite E; set_solver).
    destruct Hvis as [->|(z & -> & _ & Hz)]; done.
Qed.

(** X14.  After [acknowledgeMessage] has completed on a message that had a
    body, the message has none, and acknowledging it again, nacking it,
    replacing it or sending a heartbeat for it changes nothing. *)
Theorem acknowledged_message_is_final options id st st' m :
  st !! messageKey id = Some (RString (SPayload m)) →
  MarQS.acknowledgeMessage id st = Done tt st' →
  MarQS.readMessage id st' = Done None st'
  ∧ MarQS.acknowledgeMessage id st' = Done tt st'
  ∧ (∀ now retryAt, MarQS.nackMessage now id retryAt st' = Done tt st')
  ∧ (∀ now newData newTimestamp,
       MarQS.replaceMessage now id newData newTimestamp st' = Done tt st')
  ∧ (∀ now seconds, MarQS.heartbeatMessage options now id seconds st' = Done tt st').
Proof.
  intros Hbody H. unfold MarQS.acknowledgeMessage in H.
  rewrite (bind_done _ _ _ _ _ (readMessage_payload _ _ _ Hbody)) in H.
  unfold MarQS.callAcknowledgeMessage in H.
  apply ack_inv in H as (Hb & Hvis & _).
  assert (MarQS.readMessage id st' = Done None st') as Hread.
  { rewrite readMessage_no_payload by by rewrite Hb. by rewrite Hb. }
  split_and!; [done| | | |].
  - unfold MarQS.acknowledgeMessage. by rewrite (bind_done _ _ _ _ _ Hread).
  - intros. unfold MarQS.nackMessage. cbv zeta. by rewrite (bind_done _ _ _ _ _ Hread).
  - intros. unfold MarQS.replaceMessage. by rewrite (bind_done _ _ _ _ _ Hread).
  - intros. unfold MarQS.heartbeatMessage, MarQS.callHeartbeatMessage. cbv zeta.
    apply heartbeat_script_absent; unfold deadline, zset_at;
      destruct Hvis as [->|(z & -> & _ & Hz)]; done.
Qed.

End ReplaceAndAck.

Lemma replace_keeps_identity_witness :
  let st0 := store_of (MarQS.enqueueMessage (keys := Example.shortKeys)
                         ∅ 100 Example.dev "Q" "a" {[ "x" := UNum 1 ]} None ∅) in
  let st' := store_of (MarQS.replaceMessage (keys := Example.shortKeys)
                         150 "a" {[ "x" := UNum 2 ]} None st0) in
  ∃ m', MarQS.readMessage (keys := Example.shortKeys) "a" st' = Done (Some m') st'
      ∧ messageId m' = "a" ∧ data m' !! "x" = Some (UNum 2) ∧ timestamp m' = 150.
Proof.
  intros st0 st'.
  pose (m := {| version := "1"; data := ({[ "x" := UNum 1 ]} : Data);
                queue := "queue:acme:dev:Q"; concurrencyKey := None; timestamp := 100;
                messageId := "a"; parentQueue := "env:dev:sharedQueue" |}).
  assert (st0 !! messageKey (MarQSKeyProducer := Example.shortKeys) "a"
          = Some (RString (SPayload m))) as Hbody by (vm_compute; reflexivity).
  assert (MarQS.replaceMessage (keys := Example.shortKeys) 150 "a"
            {[ "x" := UNum 2 ]} None st0 = Done tt st') as Hrun
    by (vm_compute; reflexivity).
  destruct (replace_keeps_identity (keys := Example.shortKeys) 150 "a"
              {[ "x" := UNum 2 ]} None st0 st' m Hbody Hrun) as (Hread & _ & _).
  eexists. split; [exact Hread|]. split_and!; reflexivity.
Defined.

Lemma acknowledged_message_is_final_witness :
  let options := Example.exampleOptions 500 in
  let st0 := store_of (MarQS.enqueueMessage (keys := Example.shortKeys)
                         ∅ 100 Example.dev "Q" "a" ∅ None ∅) in
  let st1 := store_of (MarQS.dequeueMessageInEnv (keys := Example.shortKeys)
                         options 300 Example.dev st0) in
  let st' := store_of (MarQS.acknowledgeMessage (keys := Example.shortKeys) "a" st1) in
  MarQS.acknowledgeMessage (keys := Example.shortKeys) "a" st' = Done tt st'
  ∧ MarQS.nackMessage (keys := Example.shortKeys) 400 "a" None st' = Done tt st'
  ∧ MarQS.heartbeatMessage options 400 "a" None st' = Done tt st'.
Proof.
  intros options st0 st1 st'.
  pose (m := {| version := "1"; data := (∅ : Data);
                queue := "queue:acme:dev:Q"; concurrencyKey := None; timestamp := 100;
                messageId := "a"; parentQueue := "env:dev:sharedQueue" |}).
  assert (st1 !! messageKey (MarQSKeyProducer := Example.shortKeys) "a"
          = Some (RString (SPayload m))) as Hbody by (vm_compute; reflexivity).
  assert (MarQS.acknowledgeMessage (keys := Example.shortKeys) "a" st1 = Done tt st')
    as Hrun by (vm_compute; reflexivity).
  destruct (acknowledged_message_is_final (keys := Example.shortKeys) options "a" st1 st'
              m Hbody Hrun) as (_ & Hack & Hnack & _ & Hbeat).
  split_and!; [exact Hack | apply Hnack | apply Hbeat].
Defined.

(** * Queue names *)

Lemma filter_sublist {A} (f : A → bool) (l : list A) : List.filter f l `sublist_of` l.
Proof.
  induction l as [|x l IH]; simpl; [done|].
  destruct (f x); [by apply sublist_skip | by apply sublist_cons].
Qed.

Lemma filter_all {A} (f : A → bool) (l : list A) :
  Forall (λ x, f x = true) l → List.filter f l = l.
Proof.
  induction 1 as [|x l Hx _ IH]; simpl; [done|]. by rewrite Hx, IH.
Qed.

Lemma filter_allowed (f : N → bool) (l : list N) :
  Forall (λ x, f x = true) (List.filter f l).
Proof.
  apply Forall_forall. intros x Hx. by apply list_elem_of_In, filter_In in Hx as [_ ?].
Qed.

(** X16.  A sanitized queue name has at most 128 code units, all of them
    letters, digits, underscore, hyphen or slash, and it is made of units of
    the given name in their order. *)
Theorem sanitized_name_is_valid queueName :
  (length (sanitizeQueueName queueName) ≤ 128)%nat
  ∧ Forall (λ c, allowedInQueueName c = true) (sanitizeQueueName queueName)
  ∧ sanitizeQueueName queueName `sublist_of` queueName.
Proof.
  unfold sanitizeQueueName. split_and!.
  - rewrite length_take. lia.
  - apply Forall_take, filter_allowed.
  - etrans; [apply sublist_take | apply filter_sublist].
Qed.

(** X17.  Sanitizing is idempotent, and it returns the given name exactly
    when the name has at most 128 code units and all of them are allowed. *)
Theorem sanitize_fixes_valid_names queueName :
  sanitizeQueueName (sanitizeQueueName queueName) = sanitizeQueueName queueName
  ∧ (sanitizeQueueName queueName = queueName
     ↔ (length queueName ≤ 128)%nat
       ∧ Forall (λ c, allowedInQueueName c = true) queueName).
Proof.
  assert (∀ l, (length l ≤ 128)%nat → Forall (λ c, allowedInQueueName c = true) l →
               sanitizeQueueName l = l) as Hfix.
  { intros l Hlen Hall. unfold sanitizeQueueName. rewrite filter_all by done.
    by apply take_ge. }
  split.
  - apply Hfix.
    + unfold sanitizeQueueName. rewrite length_take. lia.
    + unfold sanitizeQueueName. apply Forall_take, filter_allowed.
  - split.
    + intros <-. split.
      * unfold sanitizeQueueName. rewrite length_take. lia.
      * unfold sanitizeQueueName. apply Forall_take, filter_allowed.
    + intros [Hlen Hall]. by apply Hfix.
Qed.

Lemma sanitize_fixes_valid_names_witness :
  (* "my queue!" keeps "myqueue"; "task/a-1" is kept as it is *)
  sanitizeQueueName [109; 121; 32; 113; 117; 101; 117; 101; 33]%N
  = [109; 121; 113; 117; 101; 117; 101]%N
  ∧ sanitizeQueueName [116; 97; 115; 107; 47; 97; 45; 49]%N
    = [116; 97; 115; 107; 47; 97; 45; 49]%N.
Proof.
  split; [reflexivity|].
  apply (sanitize_fixes_valid_names [116; 97; 115; 107; 47; 97; 45; 49]%N).
  split; [simpl; lia | repeat constructor].
Defined.

(** * Examples for the acknowledge and capacities scripts *)

Lemma ack_clears_message_witness :
  let st : store := {[ "message:a" := RString SJson;
                      Example.VIS := RZSet {[ "a" := 800; "b" := 900 ]};
                      "cc:dev:Q" := RSet {[ "a" ]};
                      "ecc:dev" := RSet {[ "a"; "b" ]} ]} in
  let st' := store_of (Lua.acknowledgeMessage "message:a" Example.VIS "cc:dev:Q"
                         "ecc:dev" "occ:acme" "a" st) in
  st' !! "message:a" = None
  ∧ (∃ zv, zset_at st' Example.VIS = Some zv ∧ zv !! "a" = None)
  ∧ Forall (λ k, ∃ s, set_at st' k = Some s ∧ "a" ∉ s)
      ["cc:dev:Q"; "ecc:dev"; "occ:acme"].
Proof.
  intros st st'.
  apply (ack_clears_message "message:a" Example.VIS "cc:dev:Q" "ecc:dev" "occ:acme"
           "a" st st').
  vm_compute. reflexivity.
Defined.

Lemma ack_then_scripts_change_nothing_witness :
  let st : store := {[ "message:a" := RString SJson;
                      Example.VIS := RZSet {[ "a" := 800; "b" := 900 ]};
                      "cc:dev:Q" := RSet {[ "a" ]};
                      "ecc:dev" := RSet {[ "a"; "b" ]} ]} in
  let st' := store_of (Lua.acknowledgeMessage "message:a" Example.VIS "cc:dev:Q"
                         "ecc:dev" "occ:acme" "a" st) in
  Lua.acknowledgeMessage "message:a" Example.VIS "cc:dev:Q" "ecc:dev" "occ:acme" "a" st'
  = Done tt st'
  ∧ Lua.nackMessage "message:a" "queue:acme:dev:Q" "env:dev:sharedQueue" "cc:dev:Q"
      "ecc:dev" "occ:acme" Example.VIS "queue:acme:dev:Q" "a" 900 100 st' = Done tt st'
  ∧ Lua.heartbeatMessage Example.VIS "a" 30000 1400 st' = Done tt st'.
Proof.
  intros st st'.
  destruct (ack_then_scripts_change_nothing "message:a" Example.VIS "cc:dev:Q" "ecc:dev"
              "occ:acme" "a" st st' ltac:(vm_compute; reflexivity))
    as (Hack & Hnack & Hbeat).
  split_and!; [exact Hack | apply Hnack | apply Hbeat].
Defined.

Lemma capacities_script_reads_ceilings_witness :
  let st : store := {[ "cl:dev:Q" := RString (SNumber 2);
                      "cc:dev:Q" := RSet {[ "a" ]};
                      "ecc:dev" := RSet {[ "a"; "b" ]} ]} in
  Lua.calculateMessageQueueCapacities "cc:dev:Q" "ecc:dev" "occ:acme"
    "cl:dev:Q" "el:dev" "ol:acme" 10 20 30 st = Done [1; 2; 2; 20; 0; 30] st.
Proof.
  intros st.
  destruct (capacities_script_reads_ceilings st "cc:dev:Q" "ecc:dev" "occ:acme"
              "cl:dev:Q" "el:dev" "ol:acme" 10 20 30) as [_ H].
  apply H. split_and!; reflexivity.
Defined.

(** * Messages without a body in the visibility queue *)

Lemma no_payload_cases v :
  no_payload v = true → not_json v = false → missing_or_invalid v = true.
Proof. by destruct v as [[[]| |]|]. Qed.

Section Bodyless.
Context {keys : MarQSKeyProducer}.

(** X18.  When the requeuer meets an id whose body holds no message payload
    (it is missing, empty, not JSON, or JSON that is not a payload), its turn
    leaves every set as it is: an id that was in a current-concurrency set
    stays there.  The turn takes the id out of the visibility queue, except
    on a body that is not JSON, where it ends with the exception of
    [JSON.parse], the store is unchanged and the id keeps its deadline.
    Afterwards [acknowledgeMessage] and [nackMessage] for the id change
    nothing either (they return without a script, or end with the same
    exception), so these operations never free that slot. *)
Theorem bodyless_message_keeps_its_slots now id st zv :
  zset_at st constants.MESSAGE_VISIBILITY_TIMEOUT_QUEUE = Some zv →
  no_payload (st !! messageKey id) = true →
  ∃ st',
    MarQS.requeueMessage now id st
    = (if not_json (st !! messageKey id) then Raised st' else Done tt st')
    ∧ (not_json (st !! messageKey id) = true → st' = st)
    ∧ deadline st' constants.MESSAGE_VISIBILITY_TIMEOUT_QUEUE id
      = (if not_json (st !! messageKey id) then zv !! id else None)
    ∧ (∀ k s, st !! k = Some (RSet s) → st' !! k = Some (RSet s))
    ∧ MarQS.acknowledgeMessage id st'
      = (if not_json (st !! messageKey id) then Raised st' else Done tt st')
    ∧ ∀ now' retryAt,
        MarQS.nackMessage now' id retryAt st'
        = (if not_json (st !! messageKey id) then Raised st' else Done tt st').
Proof.
  intros Hv Hpay. destruct (not_json (st !! messageKey id)) eqn:Hjson.
  { pose proof (readMessage_no_payload id st Hpay) as Hread. rewrite Hjson in Hread.
    exists st. split_and!; [by apply requeueMessage_not_json|done| |done| |].
    - unfold deadline. by rewrite Hv.
    - unfold MarQS.acknowledgeMessage. by rewrite (bind_raised _ _ _ _ Hread).
    - intros. unfold MarQS.nackMessage. cbv zeta. by rewrite (bind_raised _ _ _ _ Hread). }
  pose proof (no_payload_cases _ Hpay Hjson) as Hbody.
  destruct (ZREM_run st _ zv id Hv) as (st' & Hrun & Hv' & Hframe).
  assert (MarQS.requeueMessage now id st = Done tt st') as Hturn.
  { rewrite <- Hrun. unfold missing_or_invalid in Hbody.
    unfold MarQS.requeueMessage, GET, mbind at 1, cmd_bind at 1.
    destruct (st !! messageKey id) as [[[]| |]|]; simpl; done. }
  assert (no_payload (st' !! messageKey id) = true
          ∧ not_json (st' !! messageKey id) = false) as [Hno Hjson'].
  { destruct (decide (messageKey id = constants.MESSAGE_VISIBILITY_TIMEOUT_QUEUE))
      as [E|E].
    - rewrite E in *.
      assert (st !! constants.MESSAGE_VISIBILITY_TIMEOUT_QUEUE = None) as Habs.
      { unfold zset_at in Hv. unfold missing_or_invalid in Hbody.
        by destruct (st !! constants.MESSAGE_VISIBILITY_TIMEOUT_QUEUE) as [[]|]. }
      assert (st' !! constants.MESSAGE_VISIBILITY_TIMEOUT_QUEUE = None) as ->; [|done].
      unfold zset_at in Hv. rewrite Habs in Hv. injection Hv as <-.
      rewrite (ZREM_done st _ ∅ id) in Hrun by (unfold zset_at; by rewrite Habs).
      injection Hrun as <-. unfold put_zset.
      rewrite delete_empty, decide_True by done. apply lookup_delete_eq.
    - rewrite Hframe by done. unfold missing_or_invalid in Hbody.
      by destruct (st !! messageKey id) as [[[]| |]|]. }
  assert (MarQS.readMessage id st' = Done None st') as Hread
    by (by rewrite readMessage_no_payload, Hjson').
  exists st'. split_and!; [done|done| | | |].
  - unfold deadline. rewrite Hv'. simpl. apply lookup_delete_eq.
  - intros k s Hk.
    destruct (decide (k = constants.MESSAGE_VISIBILITY_TIMEOUT_QUEUE)) as [->|Hne].
    + unfold zset_at in Hv. by rewrite Hk in Hv.
    + by rewrite Hframe.
  - unfold MarQS.acknowledgeMessage. by rewrite (bind_done _ _ _ _ _ Hread).
  - intros. unfold MarQS.nackMessage. cbv zeta. by rewrite (bind_done _ _ _ _ _ Hread).
Qed.

End Bodyless.

Lemma bodyless_message_keeps_its_slots_witness :
  let st : store := {[ Example.VIS := RZSet {[ "a" := 800; "b" := 900 ]};
                      "message:b" := RString SGarbled;
                      "cc:dev:Q" := RSet {[ "a"; "b" ]};
                      "ecc:dev" := RSet {[ "a"; "b" ]};
                      "occ:acme" := RSet {[ "a"; "b" ]} ]} in
  (∃ st',
     MarQS.requeueMessage (keys := Example.shortKeys) 1000 "a" st = Done tt st'
     ∧ deadline st' Example.VIS "a" = None
     ∧ st' !! "cc:dev:Q" = Some (RSet {[ "a"; "b" ]})
     ∧ MarQS.acknowledgeMessage (keys := Example.shortKeys) "a" st' = Done tt st')
  ∧ MarQS.requeueMessage (keys := Example.shortKeys) 1000 "b" st = Raised st
  ∧ MarQS.acknowledgeMessage (keys := Example.shortKeys) "b" st = Raised st.
Proof.
  intros st. split.
  - destruct (bodyless_message_keeps_its_slots (keys := Example.shortKeys) 1000 "a" st
                {[ "a" := 800; "b" := 900 ]} ltac:(reflexivity) ltac:(reflexivity))
      as (st' & Hrun & _ & Hdl & Hsets & Hack & _).
    exists st'. split_and!; [exact Hrun|exact Hdl| |exact Hack].
    apply Hsets. reflexivity.
  - destruct (bodyless_message_keeps_its_slots (keys := Example.shortKeys) 1000 "b" st
                {[ "a" := 800; "b" := 900 ]} ltac:(reflexivity) ltac:(reflexivity))
      as (st' & Hrun & Heq & _ & _ & Hack & _).
    rewrite (Heq ltac:(reflexivity)) in Hrun, Hack. split; [exact Hrun|exact Hack].
Defined.
